(** * SynapseX: session and topology engine

    A shallow embedding of the Go packages [pkg/p2p/topology] (manager,
    reputation system, router), [pkg/p2p/crypto], [pkg/p2p/monitor],
    [pkg/p2p] (message protocol, connection pool, secure handshake,
    sending), [internal/config], [internal/logger] and
    [pkg/p2p/discovery], followed by the properties proved about them.

    Conventions of the embedding.
    - [float64] is Rocq's primitive binary64 [float]; every operation is
      rounded on its own (no fused multiply-add), decimal constants denote
      the nearest binary64 value as Go's constant conversion does.
    - [int], [int64] and [time.Duration] are [Z]; where the code computes
      with [int64] the wrap-around is written out.
    - [time.Time] is an opaque instant in [Z]; every call of [time.Now()]
      is a parameter of the operation that makes it.
    - Go strings are [string] (sequences of bytes), [[]byte] is
      [list Byte.byte].
    - [map[string]*PeerInfo] is a [gmap] from ids to locations of a heap of
      [PeerInfo] cells, so that aliasing through [*PeerInfo] is visible.
    - Mutexes are not modelled: every operation runs atomically.
    - A panic is a result of its own ([None] where the operation has no
      error to return).  [make] of a slice panics on a capacity below zero
      or beyond what the platform allocates at once; running out of memory
      is not modelled.
    - What an operation draws from outside (the order of a [range] over a
      map, random bytes, the outcome of a write or of a callback, whether
      a context is cancelled) is a parameter of its embedding. *)

From Stdlib Require Import ZArith NArith Floats Uint63 Bool List Ascii Lia.
From Stdlib Require Import Sorting.Sorted Sorting.Permutation.
From stdpp Require Import gmap strings list pretty.

#[local] Set Warnings "-inexact-float,-register-all".
#[local] Open Scope Z_scope.

(* ================================================================= *)
(** ** float64 helpers: Go's [math] package and conversions *)

Module Float64.

(** [math.IsInf(x, -1)] *)
Definition IsNegInf (x : float) : bool := (x =? neg_infinity)%float.

(** [math.Signbit] on the zeros, the only place [math.Min] uses it. *)
Definition Signbit (x : float) : bool := PrimFloat.get_sign x.

(** [math.Min], case by case as in Go's [math/dim.go]. *)
Definition Min (x y : float) : float :=
  if IsNegInf x || IsNegInf y then neg_infinity
  else if PrimFloat.is_nan x || PrimFloat.is_nan y then nan
  else if (x =? 0)%float && (x =? y)%float then (if Signbit x then x else y)
  else if (x <? y)%float then x else y.

(** The conversion [float64(d)] of an [int64]: round to nearest even,
    symmetric in the sign. *)
Definition of_int64 (z : Z) : float :=
  if z =? - 2 ^ 63 then (-9223372036854775808)%float
  else if z <? 0 then (- of_uint63 (Uint63.of_Z (- z)))%float
  else of_uint63 (Uint63.of_Z z).

(** The binary64 value nearest to an integer of any size (ties to even;
    an infinity beyond the range), which is what [strconv.ParseFloat]
    returns for its decimal digits. *)
Definition of_Z (z : Z) : float := SF2Prim (binary_normalize 53 1024 z 0 false).

(** The comparisons of the ordered values: [x <= y] holds. *)
Definition le (x y : float) : Prop := (x <=? y)%float = true.

(** [lo <= x <= hi]; false for NaN. *)
Definition within (lo hi x : float) : Prop := le lo x ∧ le x hi.

(** The integer part of a finite value: the fraction is discarded
    (truncation towards zero). *)
Definition truncate (x : float) : option Z :=
  match Prim2SF x with
  | S754_zero _ => Some 0
  | S754_finite s m e =>
      let a := if 0 <=? e then Z.pos m * 2 ^ e else Z.pos m / 2 ^ (- e) in
      Some (if s then - a else a)
  | S754_infinity _ | S754_nan => None
  end.

(** The conversion [int(x)] (64 bits).  Where [int] cannot represent the
    value Go leaves the result to the implementation: [unrepresentable]. *)
Definition to_int (unrepresentable : float → Z) (x : float) : Z :=
  match truncate x with
  | Some z => if (- 2 ^ 63 <=? z) && (z <? 2 ^ 63) then z else unrepresentable x
  | None => unrepresentable x
  end.

End Float64.

(* ================================================================= *)
(** ** Go's runtime: [make] of a slice

    [make([]T, 0, n)] panics ("makeslice: cap out of range") when [n] is
    negative or when [n] elements of [T] take more than [maxAlloc] bytes,
    the largest allocation the runtime of the platform grants: 2^48 bytes
    on linux/amd64, and 2^32 bytes or more on every platform whose [int]
    has 64 bits. *)

Module runtime.

Record Platform := mkPlatform {
  maxAlloc : Z;
  maxAlloc_min : (2 ^ 32 <=? maxAlloc) = true
}.

(** Whether [make([]T, 0, cap)] returns, for a [T] of [elemSize] bytes. *)
Definition makeslice (pf : Platform) (elemSize cap : Z) : bool :=
  (0 <=? cap) && (elemSize * cap <=? maxAlloc pf).

(** The size of a [string]: a pointer and a length. *)
Definition sizeofString : Z := 16.

End runtime.

(* ================================================================= *)
(** ** Go's [sort.Slice] on short slices

    [sort.Slice] promises a permutation ordered by [less] and no
    stability.  Its implementation runs this insertion sort on slices of
    at most twelve elements: each element is swapped leftwards while it is
    [less] than its left neighbour. *)

Section InsertionSort.
Context {A : Type} (less : A → A → bool).

(** The inner loop, on the reversed sorted prefix. *)
Fixpoint bubble (x : A) (rev_prefix : list A) : list A :=
  match rev_prefix with
  | [] => [x]
  | y :: r => if less x y then y :: bubble x r else x :: y :: r
  end.

Definition insertionSort (data : list A) : list A :=
  reverse (fold_left (λ acc x, bubble x acc) data []).
End InsertionSort.

(* ================================================================= *)
(** ** Package [topology]: manager.go and reputation.go *)

Module topology.

Record ConnectionQuality := mkQuality {
  Latency : Z;            (* time.Duration, nanoseconds *)
  Bandwidth : float;      (* Mbps *)
  PacketLoss : float;     (* percentage *)
  Jitter : Z;             (* time.Duration *)
  LastUpdate : Z          (* time.Time *)
}.

Record PeerInfo := mkPeerInfo {
  ID : string;
  Address : string;
  Quality : ConnectionQuality;
  LastSeen : Z;
  Connected : bool;
  Reputation : float;     (* -1.0 to 1.0 scale *)
  Load : Z
}.

Record Peer := mkPeer {
  peerID : string;
  peerAddress : string;
  peerVersion : string;
  peerLastSeen : Z
}.

(** [time.Second] and [time.Millisecond] in nanoseconds. *)
Definition Second : Z := 1000000000.
Definition Millisecond : Z := 1000000.

(** The heap of [PeerInfo] objects: [*PeerInfo] is a location. *)
Record Heap := mkHeap { cells : gmap nat PeerInfo; next : nat }.

Record Manager := mkManager {
  maxPeers : Z;
  meshThreshold : Z;
  peers : gmap string nat
}.

(** The program state an operation runs in. *)
Record World := mkWorld { heap : Heap; mgr : Manager }.

(** [&PeerInfo{...}] and [info := *peer; &info]: a fresh cell. *)
Definition new (v : PeerInfo) (h : Heap) : nat * Heap :=
  (next h, mkHeap (<[next h := v]> (cells h)) (S (next h))).

(** [*p] *)
Definition load (p : nat) (h : Heap) : option PeerInfo := cells h !! p.

(** [p.f = v], as an update of the cell. *)
Definition store (p : nat) (f : PeerInfo → PeerInfo) (h : Heap) : Heap :=
  mkHeap (alter f p (cells h)) (next h).

Definition set_Quality (q : ConnectionQuality) (i : PeerInfo) : PeerInfo :=
  mkPeerInfo (ID i) (Address i) q (LastSeen i) (Connected i) (Reputation i) (Load i).
Definition set_LastSeen (t : Z) (i : PeerInfo) : PeerInfo :=
  mkPeerInfo (ID i) (Address i) (Quality i) t (Connected i) (Reputation i) (Load i).
Definition set_Reputation (r : float) (i : PeerInfo) : PeerInfo :=
  mkPeerInfo (ID i) (Address i) (Quality i) (LastSeen i) (Connected i) r (Load i).
Definition set_Load (n : Z) (i : PeerInfo) : PeerInfo :=
  mkPeerInfo (ID i) (Address i) (Quality i) (LastSeen i) (Connected i) (Reputation i) n.

Definition NewManager (maxPeers : Z) : Manager :=
  mkManager maxPeers 10 ∅.

(** [AddPeer]; [now1] and [now2] are its two readings of the clock. *)
Definition AddPeer (now1 now2 : Z) (peer : Peer) (w : World) : World :=
  let info :=
    mkPeerInfo (peerID peer) (peerAddress peer)
      (mkQuality Second 1.0%float 0.0%float (Millisecond * 10) now2)
      now1 true 0.0%float 0 in
  let '(p, h) := new info (heap w) in
  let t := mgr w in
  mkWorld h (mkManager (maxPeers t) (meshThreshold t) (<[peerID peer := p]> (peers t))).

Definition RemovePeer (peerID : string) (w : World) : World :=
  let t := mgr w in
  mkWorld (heap w) (mkManager (maxPeers t) (meshThreshold t) (delete peerID (peers t))).

Definition UpdatePeerQuality (now : Z) (peerID : string) (quality : ConnectionQuality)
    (w : World) : World :=
  match peers (mgr w) !! peerID with
  | Some p => mkWorld (store p (λ i, set_LastSeen now (set_Quality quality i)) (heap w)) (mgr w)
  | None => w
  end.

Definition UpdatePeerReputation (peerID : string) (reputation : float) (w : World) : World :=
  match peers (mgr w) !! peerID with
  | Some p => mkWorld (store p (set_Reputation reputation) (heap w)) (mgr w)
  | None => w
  end.

Definition UpdatePeerLoad (peerID : string) (load : Z) (w : World) : World :=
  match peers (mgr w) !! peerID with
  | Some p => mkWorld (store p (set_Load load) (heap w)) (mgr w)
  | None => w
  end.

Definition calculateQualityScore (quality : ConnectionQuality) : float :=
  let latencyScore :=
    (1.0 / (1.0 + Float64.of_int64 (Latency quality) / Float64.of_int64 Second))%float in
  let bandwidthScore := Float64.Min (Bandwidth quality / 100.0)%float 1.0%float in
  let packetLossScore := (1.0 - Float64.Min (PacketLoss quality / 100.0) 1.0)%float in
  let jitterScore :=
    (1.0 / (1.0 + Float64.of_int64 (Jitter quality) / Float64.of_int64 Second))%float in
  let totalScore :=
    (latencyScore * 0.3 + bandwidthScore * 0.3 + packetLossScore * 0.2 + jitterScore * 0.2)%float in
  Float64.Min totalScore 1.0%float.

(** The score [GetBestPeers] ranks by. *)
Definition peerScoreOf (info : PeerInfo) : float :=
  (calculateQualityScore (Quality info) * 0.7 + Reputation info * 0.3)%float.

(** [GetBestPeers].  [sort_Slice] is [sort.Slice]; [order] is the order in
    which [range t.peers] visits the entries of the map, which Go leaves
    unspecified.  [None] is the panic of [make([]string, 0, n)].  The
    other [make], of [peerScores], asks for [len(t.peers)] elements of 24
    bytes; the map holds as many entries of 24 bytes or more in memory
    already, so that capacity is within the limit and the [make] returns. *)
Definition GetBestPeers (pf : runtime.Platform)
    (sort_Slice : (string * float → string * float → bool) →
                  list (string * float) → list (string * float))
    (order : list (string * nat)) (n : Z) (w : World) : option (list string) :=
  let peerScores :=
    omap (λ '(id, p), (λ info, (id, peerScoreOf info)) <$> load p (heap w)) order in
  let sorted := sort_Slice (λ a b, (b.2 <? a.2)%float) peerScores in
  if runtime.makeslice pf runtime.sizeofString n
  then Some (take (Z.to_nat n) (fst <$> sorted))
  else None.

(** [GetPeerInfo]: the pointer returned, or [None] for [(nil, false)]. *)
Definition GetPeerInfo (peerID : string) (w : World) : option nat * World :=
  match peers (mgr w) !! peerID with
  | None => (None, w)
  | Some peer =>
      match load peer (heap w) with
      | None => (None, w)
      | Some info => let '(p, h) := new info (heap w) in (Some p, mkWorld h (mgr w))
      end
  end.

Definition GetPeerCount (w : World) : nat := size (peers (mgr w)).

(** *** reputation.go: [ReputationSystem] *)

(** The two-sided guard [if x < -1.0 { x = -1.0 } else if x > 1.0 { x = 1.0 }]
    that reputation.go writes out at each use. *)
Definition bound (x : float) : float :=
  if (x <? -1.0)%float then (-1.0)%float
  else if (1.0 <? x)%float then 1.0%float else x.

Definition UpdateReputationBasedOnBehavior (peerID : string) (behaviorScore : float)
    (w : World) : World :=
  let behaviorScore := bound behaviorScore in
  match GetPeerInfo peerID w with
  | (None, w) => w
  | (Some currentInfo, w) =>
      match load currentInfo (heap w) with
      | None => w
      | Some info =>
          let newReputation := (Reputation info * 0.7 + behaviorScore * 0.3)%float in
          UpdatePeerReputation peerID (bound newReputation) w
      end
  end.

Definition UpdateReputationBasedOnPerformance (peerID : string) (successRate : float)
    (responseTime : Z) (w : World) : World :=
  let performanceScore := successRate in
  let maxAcceptableTime := Second in
  let performanceScore :=
    if responseTime <? Millisecond * 100 then (performanceScore * 1.2)%float
    else if maxAcceptableTime <? responseTime then (performanceScore * 0.8)%float
    else performanceScore in
  let scaledScore := bound (performanceScore * 2.0 - 1.0)%float in
  UpdateReputationBasedOnBehavior peerID scaledScore w.

Definition UpdateReputationBasedOnReliability (peerID : string)
    (uptimeRatio messageDeliveryRate : float) (w : World) : World :=
  let reliabilityScore := (uptimeRatio * 0.6 + messageDeliveryRate * 0.4)%float in
  let scaledScore := bound (reliabilityScore * 2.0 - 1.0)%float in
  UpdateReputationBasedOnBehavior peerID scaledScore w.

Definition DecayReputation (peerID : string) (decayRate : float) (w : World) : World :=
  match GetPeerInfo peerID w with
  | (None, w) => w
  | (Some currentInfo, w) =>
      match load currentInfo (heap w) with
      | None => w
      | Some info =>
          let newReputation := (Reputation info * (1 - decayRate))%float in
          UpdatePeerReputation peerID (bound newReputation) w
      end
  end.

(** What a caller reads through [GetPeerInfo]: the record behind the
    returned pointer. *)
Definition peerInfoOf (peerID : string) (w : World) : option PeerInfo :=
  let '(r, w') := GetPeerInfo peerID w in
  p ← r; load p (heap w').

(** *** manager.go: the queries *)

(** [int64] addition, wrapped into [-2^63, 2^63). *)
Definition add64 (a b : Z) : Z := (a + b + 2 ^ 63) mod 2 ^ 64 - 2 ^ 63.

Definition GetTopologyType (w : World) : string :=
  let peerCount := Z.of_nat (size (peers (mgr w))) in
  if peerCount <=? 3 then "star"
  else if peerCount <=? meshThreshold (mgr w) then "full-mesh"
  else "partial-mesh".

(** [GetRoute]; the nil slice is [[]]. *)
Definition GetRoute (targetPeerID : string) (w : World) : list string :=
  match peers (mgr w) !! targetPeerID with
  | Some _ => [targetPeerID]
  | None => []
  end.

(** [GetConnectedPeers]; [order] is the order in which [range t.peers]
    visits the map. *)
Definition GetConnectedPeers (order : list (string * nat)) (w : World) : list string :=
  fold_left
    (λ peers '(id, p),
       match load p (heap w) with
       | Some info => if Connected info then peers ++ [id] else peers
       | None => peers
       end)
    order [].

(** The map [GetNetworkMetrics] returns, by key. *)
Record NetworkMetrics := mkMetrics {
  total_peers : Z;
  connected_peers : Z;
  topology_type : string;
  avg_latency : Z;          (* time.Duration *)
  avg_bandwidth : float;
  max_peers : Z
}.

Definition GetNetworkMetrics (order : list (string * nat)) (w : World) : NetworkMetrics :=
  let totalPeers := Z.of_nat (size (peers (mgr w))) in
  let '(connectedPeers, avgLatency, totalBandwidth) :=
    fold_left
      (λ '(connectedPeers, avgLatency, totalBandwidth) '(_, p),
         match load p (heap w) with
         | Some info =>
             (if Connected info then connectedPeers + 1 else connectedPeers,
              add64 avgLatency (Latency (Quality info)),
              (totalBandwidth + Bandwidth (Quality info))%float)
         | None => (connectedPeers, avgLatency, totalBandwidth)
         end)
      order (0, 0, 0.0%float) in
  let avgLatency := if 0 <? totalPeers then avgLatency ÷ totalPeers else avgLatency in
  let avgBandwidth :=
    if 0 <? connectedPeers then (totalBandwidth / Float64.of_int64 connectedPeers)%float
    else 0.0%float in
  mkMetrics totalPeers connectedPeers (GetTopologyType w) avgLatency avgBandwidth
    (maxPeers (mgr w)).

(** [GetOptimalPeersForBroadcast]; [None] is a panic: that of
    [GetBestPeers], or that of [make([]string, 0, maxPeers)]. *)
Definition GetOptimalPeersForBroadcast (pf : runtime.Platform)
    (sort_Slice : (string * float → string * float → bool) →
                  list (string * float) → list (string * float))
    (order : list (string * nat)) (excludePeerID : string) (maxPeers : Z) (w : World)
    : option (list string) :=
  bestPeers ← GetBestPeers pf sort_Slice order (Z.of_nat (size (peers (mgr w)))) w;
  if negb (runtime.makeslice pf runtime.sizeofString maxPeers) then None
  else
    Some (fold_left
            (λ result peerID,
               if negb (String.eqb peerID excludePeerID)
                  && (Z.of_nat (length result) <? maxPeers)
               then
                 match peers (mgr w) !! peerID with
                 | Some p =>
                     match load p (heap w) with
                     | Some peer => if Connected peer then result ++ [peerID] else result
                     | None => result
                     end
                 | None => result
                 end
               else result)
            bestPeers []).

(** *** reputation.go: the queries *)

(** [GetTrustedPeers]: the threshold is not read. *)
Definition GetTrustedPeers (pf : runtime.Platform)
    (sort_Slice : (string * float → string * float → bool) →
                  list (string * float) → list (string * float))
    (order : list (string * nat)) (threshold : float) (w : World) : option (list string) :=
  GetBestPeers pf sort_Slice order 10 w.

(** [GetPeerRank]; [unrepresentable] is what the platform's conversion
    [int(x)] gives where [int] cannot represent [x]. *)
Definition GetPeerRank (unrepresentable : float → Z) (peerID : string) (w : World)
    : Z * World :=
  match GetPeerInfo peerID w with
  | (None, w) => (1, w)
  | (Some info, w) =>
      match load info (heap w) with
      | None => (1, w)
      | Some info =>
          let rank := Float64.to_int unrepresentable ((Reputation info + 1.0) * 5)%float in
          (if rank <? 1 then 1 else if 10 <? rank then 10 else rank, w)
      end
  end.

(** *** routing.go *)

(** [RoutingStrategy], an [int]. *)
Definition Direct : Z := 0.
Definition Gossip : Z := 1.
Definition ShortestPath : Z := 2.

Record Router := mkRouter {
  strategy : Z;
  routeCache : gmap string (list string)
}.

Definition NewRouter (strategy : Z) : Router := mkRouter strategy ∅.

Section Routing.
Context (pf : runtime.Platform)
        (sort_Slice : (string * float → string * float → bool) →
                      list (string * float) → list (string * float))
        (order : list (string * nat)).

Definition directRoute (targetID : string) (w : World) : list string * World :=
  match GetPeerInfo targetID w with
  | (Some _, w) => ([targetID], w)
  | (None, w) => ([], w)
  end.

(** [None] is the panic of [GetBestPeers]. *)
Definition gossipRoute (targetID : string) (w : World) : option (list string * World) :=
  bestPeers ← GetBestPeers pf sort_Slice order 3 w;
  Some (bestPeers, w).

Definition shortestPathRoute (targetID : string) (w : World)
    : option (list string * World) :=
  match GetPeerInfo targetID w with
  | (Some _, w) => Some ([targetID], w)
  | (None, w) =>
      bestPeers ← GetBestPeers pf sort_Slice order 2 w;
      Some (bestPeers, w)
  end.

(** [RouteMessage]: the route, the router and the manager's state after
    the call; [None] is the panic of [GetBestPeers]. *)
Definition RouteMessage (targetID : string) (r : Router) (w : World)
    : option (list string * Router * World) :=
  match routeCache r !! targetID with
  | Some route => Some (route, r, w)
  | None =>
      '(route, w) ←
        (if strategy r =? Direct then Some (directRoute targetID w)
         else if strategy r =? Gossip then gossipRoute targetID w
         else if strategy r =? ShortestPath then shortestPathRoute targetID w
         else Some (directRoute targetID w));
      Some (route, mkRouter (strategy r) (<[targetID := route]> (routeCache r)), w)
  end.
End Routing.

Definition UpdateRouteCache (r : Router) : Router := mkRouter (strategy r) ∅.

End topology.

(* ================================================================= *)
(** ** Package [crypto]: handshake.go and the parts of encrypt.go it calls *)

Module crypto.

Record HandshakeMessage := mkHandshakeMessage {
  NodeID : string;
  PublicKey : list Byte.byte;
  Timestamp : Z;                 (* int64, Unix seconds *)
  Signature : list Byte.byte;
  SessionKey : list Byte.byte
}.

(** The Go libraries the package calls: [encoding/pem], [crypto/x509],
    [encoding/json], [crypto/sha256] and [crypto/rsa]. *)
Record Lib := mkLib {
  Block : Type;
  PubKey : Type;
  RSAPublicKey : Type;
  pem_Decode : list Byte.byte → option Block;
  block_Bytes : Block → list Byte.byte;
  x509_ParsePKIXPublicKey : list Byte.byte → option PubKey;
  as_rsa : PubKey → option RSAPublicKey;       (* pubKey.( *rsa.PublicKey ) *)
  json_Marshal : HandshakeMessage → option (list Byte.byte);
  sha256_Sum256 : list Byte.byte → list Byte.byte;
  rsa_VerifyPSS : RSAPublicKey → list Byte.byte → list Byte.byte → bool
}.

(** The errors of [VerifyHandshakeMessage], by the message they carry. *)
Inductive error :=
| ErrNilMessage        (* handshake message is nil *)
| ErrDecodePEM         (* failed to unmarshal public key: failed to decode PEM block *)
| ErrParsePublicKey    (* failed to unmarshal public key: failed to parse public key *)
| ErrNotRSA            (* failed to unmarshal public key: not an RSA public key *)
| ErrMarshalCopy       (* failed to marshal message copy *)
| ErrSignature         (* signature verification failed *)
| ErrTimestamp.        (* timestamp is too old or too far in the future *)

(** [int64] arithmetic: the result wrapped into [-2^63, 2^63). *)
Definition wrap64 (z : Z) : Z := (z + 2 ^ 63) mod 2 ^ 64 - 2 ^ 63.
Definition sub64 (a b : Z) : Z := wrap64 (a - b).
Definition int64 (z : Z) : Prop := - 2 ^ 63 ≤ z < 2 ^ 63.

Section Handshake.
Context (L : Lib).

Definition UnmarshalPublicKey (pubKeyPEM : list Byte.byte) : RSAPublicKey L + error :=
  match pem_Decode L pubKeyPEM with
  | None => inr ErrDecodePEM
  | Some block =>
      match x509_ParsePKIXPublicKey L (block_Bytes L block) with
      | None => inr ErrParsePublicKey
      | Some pubKey =>
          match as_rsa L pubKey with
          | None => inr ErrNotRSA
          | Some rsaPubKey => inl rsaPubKey
          end
      end
  end.

(** [VerifySignature]: [true] for a nil error. *)
Definition VerifySignature (message signature : list Byte.byte)
    (pubKey : RSAPublicKey L) : bool :=
  rsa_VerifyPSS L pubKey (sha256_Sum256 L message) signature.

(** [VerifyHandshakeMessage]; [currentTime] is [time.Now().Unix()], the
    result [None] is the nil error. *)
Definition VerifyHandshakeMessage (currentTime : Z) (msg : option HandshakeMessage)
    : option error :=
  match msg with
  | None => Some ErrNilMessage
  | Some msg =>
      match UnmarshalPublicKey (PublicKey msg) with
      | inr e => Some e
      | inl pubKey =>
          let msgCopy :=
            mkHandshakeMessage (NodeID msg) (PublicKey msg) (Timestamp msg) []
              (SessionKey msg) in
          match json_Marshal L msgCopy with
          | None => Some ErrMarshalCopy
          | Some msgBytes =>
              if negb (VerifySignature msgBytes (Signature msg) pubKey)
              then Some ErrSignature
              else if (300 <? sub64 currentTime (Timestamp msg))
                      || (300 <? sub64 (Timestamp msg) currentTime)
              then Some ErrTimestamp
              else None
          end
      end
  end.
End Handshake.

(** *** encrypt.go and handshake.go: signing and encryption *)

(** The rest of the Go libraries the package calls: [crypto/x509] and
    [encoding/pem] for writing a key, [crypto/rsa] for signing and for
    OAEP, [crypto/aes] and [crypto/cipher] for AES-GCM.  [Rand] is what a
    call draws from [rand.Reader]. *)
Record CryptoLib (L : Lib) := mkCryptoLib {
  RSAPrivateKey : Type;
  Rand : Type;
  x509_MarshalPKIXPublicKey : RSAPublicKey L → option (list Byte.byte);
  pem_EncodeToMemory : list Byte.byte → list Byte.byte;    (* a "PUBLIC KEY" block *)
  rsa_SignPSS : Rand → RSAPrivateKey → list Byte.byte → option (list Byte.byte);
  rsa_EncryptOAEP : Rand → RSAPublicKey L → list Byte.byte → option (list Byte.byte);
  rsa_DecryptOAEP : RSAPrivateKey → list Byte.byte → option (list Byte.byte);
  rsa_Size : RSAPrivateKey → nat;                          (* privateKey.Size() *)
  gcm_Seal : list Byte.byte → list Byte.byte → list Byte.byte → list Byte.byte;
                                                           (* key, nonce, plaintext *)
  gcm_Open : list Byte.byte → list Byte.byte → list Byte.byte → option (list Byte.byte)
}.
Arguments RSAPrivateKey {L}.
Arguments Rand {L}.
Arguments x509_MarshalPKIXPublicKey {L}.
Arguments pem_EncodeToMemory {L}.
Arguments rsa_SignPSS {L}.
Arguments rsa_EncryptOAEP {L}.
Arguments rsa_DecryptOAEP {L}.
Arguments rsa_Size {L}.
Arguments gcm_Seal {L}.
Arguments gcm_Open {L}.

(** The errors of the functions below, by the message they carry. *)
Inductive cryptoError :=
| ErrMarshalPublicKey    (* failed to marshal public key *)
| ErrSessionKey          (* failed to generate session key *)
| ErrMarshalMessage      (* failed to marshal message *)
| ErrSign                (* failed to sign message *)
| ErrAESKey              (* failed to generate AES key *)
| ErrEncryptAESKey       (* failed to encrypt AES key *)
| ErrNonce               (* failed to generate nonce *)
| ErrTooShort            (* encrypted data too short *)
| ErrDecryptAESKey       (* failed to decrypt AES key *)
| ErrAESCipher           (* failed to create AES cipher *)
| ErrCiphertextTooShort  (* ciphertext too short *)
| ErrDecrypt.            (* failed to decrypt message *)

Section Encryptor.
Context {L : Lib} (C : CryptoLib L).

Record Encryptor := mkEncryptor {
  privateKey : RSAPrivateKey C;
  publicKey : RSAPublicKey L
}.

Definition MarshalPublicKey (pubKey : RSAPublicKey L) : list Byte.byte + cryptoError :=
  match x509_MarshalPKIXPublicKey C pubKey with
  | None => inr ErrMarshalPublicKey
  | Some pubKeyBytes => inl (pem_EncodeToMemory C pubKeyBytes)
  end.

(** [SignMessage]; [salt] is what [rsa.SignPSS] draws. *)
Definition SignMessage (e : Encryptor) (salt : Rand C) (message : list Byte.byte)
    : list Byte.byte + cryptoError :=
  match rsa_SignPSS C salt (privateKey e) (sha256_Sum256 L message) with
  | None => inr ErrSign
  | Some signature => inl signature
  end.

(** [CreateHandshakeMessage] of the manager [(e, nodeID)].  [sessionKey]
    is the outcome of [rand.Read] on 32 bytes ([None]: it failed), [now]
    is [time.Now().Unix()]. *)
Definition CreateHandshakeMessage (e : Encryptor) (nodeID : string)
    (sessionKey : option (list Byte.byte)) (now : Z) (salt : Rand C)
    : HandshakeMessage + cryptoError :=
  match MarshalPublicKey (publicKey e) with
  | inr err => inr err
  | inl pubKeyPEM =>
      match sessionKey with
      | None => inr ErrSessionKey
      | Some sessionKey =>
          let msg := mkHandshakeMessage nodeID pubKeyPEM now [] sessionKey in
          match json_Marshal L msg with
          | None => inr ErrMarshalMessage
          | Some msgBytes =>
              match SignMessage e salt msgBytes with
              | inr err => inr err
              | inl signature =>
                  inl (mkHandshakeMessage nodeID pubKeyPEM now signature sessionKey)
              end
          end
      end
  end.

(** [aes.NewCipher] accepts keys of 16, 24 or 32 bytes. *)
Definition aes_NewCipher (key : list Byte.byte) : bool :=
  (length key =? 16)%nat || (length key =? 24)%nat || (length key =? 32)%nat.

(** [gcm.NonceSize()] of the standard GCM. *)
Definition NonceSize : nat := 12.

(** [EncryptMessage].  [aesKey] and [nonce] are the outcomes of the two
    [io.ReadFull(rand.Reader, _)], on 32 and on [NonceSize] bytes. *)
Definition EncryptMessage (aesKey : option (list Byte.byte)) (oaep : Rand C)
    (nonce : option (list Byte.byte)) (plaintext : list Byte.byte)
    (recipientPubKey : RSAPublicKey L) : list Byte.byte + cryptoError :=
  match aesKey with
  | None => inr ErrAESKey
  | Some aesKey =>
      match rsa_EncryptOAEP C oaep recipientPubKey aesKey with
      | None => inr ErrEncryptAESKey
      | Some encryptedAESKey =>
          if negb (aes_NewCipher aesKey) then inr ErrAESCipher
          else
            match nonce with
            | None => inr ErrNonce
            | Some nonce =>
                let ciphertext := nonce ++ gcm_Seal C aesKey nonce plaintext in
                inl (encryptedAESKey ++ ciphertext)
            end
      end
  end.

(** [DecryptMessage]; the sender's public key is not read. *)
Definition DecryptMessage (e : Encryptor) (encryptedData : list Byte.byte)
    (senderPubKey : RSAPublicKey L) : list Byte.byte + cryptoError :=
  let keySize := rsa_Size C (privateKey e) in
  if (length encryptedData <? keySize)%nat then inr ErrTooShort
  else
    let encryptedAESKey := take keySize encryptedData in
    let ciphertext := drop keySize encryptedData in
    match rsa_DecryptOAEP C (privateKey e) encryptedAESKey with
    | None => inr ErrDecryptAESKey
    | Some aesKey =>
        if negb (aes_NewCipher aesKey) then inr ErrAESCipher
        else if (length ciphertext <? NonceSize)%nat then inr ErrCiphertextTooShort
        else
          match gcm_Open C aesKey (take NonceSize ciphertext) (drop NonceSize ciphertext) with
          | None => inr ErrDecrypt
          | Some plaintext => inl plaintext
          end
    end.
End Encryptor.

End crypto.

(* ================================================================= *)
(** ** Package [monitor]: statistics and health checks *)

Module monitor.

(** [uint64] arithmetic. *)
Definition wrapU64 (z : Z) : Z := z mod 2 ^ 64.

Record Stats := mkStats {
  TotalMessagesSent : Z;         (* uint64 *)
  TotalMessagesReceived : Z;
  TotalBytesSent : Z;
  TotalBytesReceived : Z;
  ConnectionCount : Z;
  ActiveConnections : Z;
  Uptime : Z;                    (* time.Duration *)
  StartTime : Z                  (* time.Time *)
}.

Definition NewStats (now : Z) : Stats := mkStats 0 0 0 0 0 0 0 now.

Definition IncrementMessagesSent (s : Stats) : Stats :=
  mkStats (wrapU64 (TotalMessagesSent s + 1)) (TotalMessagesReceived s) (TotalBytesSent s)
    (TotalBytesReceived s) (ConnectionCount s) (ActiveConnections s) (Uptime s) (StartTime s).

Definition IncrementMessagesReceived (s : Stats) : Stats :=
  mkStats (TotalMessagesSent s) (wrapU64 (TotalMessagesReceived s + 1)) (TotalBytesSent s)
    (TotalBytesReceived s) (ConnectionCount s) (ActiveConnections s) (Uptime s) (StartTime s).

Definition AddBytesSent (bytes : Z) (s : Stats) : Stats :=
  mkStats (TotalMessagesSent s) (TotalMessagesReceived s) (wrapU64 (TotalBytesSent s + bytes))
    (TotalBytesReceived s) (ConnectionCount s) (ActiveConnections s) (Uptime s) (StartTime s).

Definition AddBytesReceived (bytes : Z) (s : Stats) : Stats :=
  mkStats (TotalMessagesSent s) (TotalMessagesReceived s) (TotalBytesSent s)
    (wrapU64 (TotalBytesReceived s + bytes)) (ConnectionCount s) (ActiveConnections s)
    (Uptime s) (StartTime s).

(** [HealthChecker]: the monitored peers with the instant each was added,
    and the check function when one is set. *)
Record HealthChecker := mkHealthChecker {
  peers : gmap string Z;
  healthCheck : option (string → bool)
}.

Definition NewHealthChecker : HealthChecker := mkHealthChecker ∅ None.

Definition SetHealthCheckFunc (f : string → bool) (h : HealthChecker) : HealthChecker :=
  mkHealthChecker (peers h) (Some f).

Definition AddPeer (now : Z) (peerID : string) (h : HealthChecker) : HealthChecker :=
  mkHealthChecker (<[peerID := now]> (peers h)) (healthCheck h).

Definition RemovePeer (peerID : string) (h : HealthChecker) : HealthChecker :=
  mkHealthChecker (delete peerID (peers h)) (healthCheck h).

Definition CheckPeerHealth (peerID : string) (h : HealthChecker) : bool :=
  match healthCheck h with
  | None => true
  | Some check => check peerID
  end.

(** [GetUnhealthyPeers]; [order] is the order in which the map of peers
    is visited. *)
Definition GetUnhealthyPeers (order : list (string * Z)) (h : HealthChecker) : list string :=
  let peers := fold_left (λ peers '(peerID, _), peers ++ [peerID]) order [] in
  fold_left
    (λ unhealthy peerID,
       if negb (CheckPeerHealth peerID h) then unhealthy ++ [peerID] else unhealthy)
    peers [].

End monitor.

(* ================================================================= *)
(** ** Package [p2p]: protocol, connection pool and secure handshake *)

Module p2p.

(** *** Go values behind [interface{}] and JSON documents

    [encoding/json] is modelled on documents, not on their text: what
    [json.Marshal] returns is the document it would print, and
    [json.Unmarshal] starts from the document it would parse. *)

(** A dynamic Go value.  [GoInt] is an integer of any integer type or a
    [*big.Int]; [GoMap] lists a map or a struct in the order
    [json.Marshal] writes its keys; [GoChan] stands for the kinds
    [json.Marshal] rejects (channels, functions, complex numbers). *)
Inductive GoValue :=
| GoNil
| GoBool (b : bool)
| GoInt (z : Z)
| GoFloat64 (f : float)
| GoString (s : string)
| GoSlice (l : list GoValue)
| GoMap (kvs : list (string * GoValue))
| GoChan.

(** A JSON document.  A number is an integer literal ([JInt], of any
    size) or the literal [json.Marshal] writes for a finite [float64]
    ([JFloat]), which [strconv.ParseFloat] reads back as that value. *)
Inductive json :=
| JNull
| JBool (b : bool)
| JInt (z : Z)
| JFloat (f : float)
| JString (s : string)
| JArray (l : list json)
| JObject (kvs : list (string * json)).

(** **** UTF-8, as [unicode/utf8] decodes it *)

Definition inRange (lo hi : N) (c : ascii) : bool :=
  ((lo <=? N_of_ascii c) && (N_of_ascii c <=? hi))%N.

(** By the first byte: the length of the encoding and the range of its
    second byte. *)
Definition runeShape (c : ascii) : option (nat * N * N) :=
  let b := N_of_ascii c in
  (if b <? 0x80 then Some (1%nat, 0, 0)
   else if b <? 0xC2 then None
   else if b <? 0xE0 then Some (2%nat, 0x80, 0xBF)
   else if b =? 0xE0 then Some (3%nat, 0xA0, 0xBF)
   else if b <? 0xED then Some (3%nat, 0x80, 0xBF)
   else if b =? 0xED then Some (3%nat, 0x80, 0x9F)
   else if b <? 0xF0 then Some (3%nat, 0x80, 0xBF)
   else if b =? 0xF0 then Some (4%nat, 0x90, 0xBF)
   else if b <? 0xF4 then Some (4%nat, 0x80, 0xBF)
   else if b =? 0xF4 then Some (4%nat, 0x80, 0x8F)
   else None)%N.

(** The first [k] bytes of [s] are continuation bytes. *)
Fixpoint continuations (k : nat) (s : string) : bool :=
  match k, s with
  | O, _ => true
  | S k, String c r => inRange 0x80 0xBF c && continuations k r
  | S _, EmptyString => false
  end.

(** The size of the well-formed encoding [s] starts with; [None] where
    [utf8.DecodeRuneInString] answers [(RuneError, 1)]. *)
Definition runeSize (s : string) : option nat :=
  match s with
  | EmptyString => None
  | String c r =>
      match runeShape c with
      | None => None
      | Some (n, lo, hi) =>
          match n, r with
          | 1%nat, _ => Some 1%nat
          | _, String c1 r1 =>
              if inRange lo hi c1 && continuations (n - 2) r1 then Some n else None
          | _, EmptyString => None
          end
      end
  end.

(** U+FFFD in UTF-8. *)
Definition replacementChar : string :=
  String (ascii_of_N 0xEF) (String (ascii_of_N 0xBF) (String (ascii_of_N 0xBD) EmptyString)).

(** [utf8.ValidString]; [skip] bytes of an encoding already checked remain. *)
Fixpoint validFrom (skip : nat) (s : string) : bool :=
  match s with
  | EmptyString => true
  | String c r =>
      match skip with
      | S k => validFrom k r
      | O => match runeSize s with
             | Some n => validFrom (pred n) r
             | None => false
             end
      end
  end.
Definition ValidString (s : string) : bool := validFrom 0 s.

(** What a string reads as after [json.Marshal] wrote it: every byte
    that starts no well-formed encoding is replaced by U+FFFD. *)
Fixpoint coerceFrom (skip : nat) (s : string) : string :=
  match s with
  | EmptyString => EmptyString
  | String c r =>
      match skip with
      | S k => String c (coerceFrom k r)
      | O => match runeSize s with
             | Some n => String c (coerceFrom (pred n) r)
             | None => replacementChar +:+ coerceFrom 0 r
             end
      end
  end.
Definition toValidUTF8 (s : string) : string := coerceFrom 0 s.

(** **** [json.Marshal] and [json.Unmarshal] of an [interface{}] *)

Fixpoint marshalValue (v : GoValue) : option json :=
  match v with
  | GoNil => Some JNull
  | GoBool b => Some (JBool b)
  | GoInt z => Some (JInt z)
  | GoFloat64 f =>
      if PrimFloat.is_nan f || PrimFloat.is_infinity f then None else Some (JFloat f)
  | GoString s => Some (JString (toValidUTF8 s))
  | GoSlice l => JArray <$> mapM marshalValue l
  | GoMap kvs =>
      JObject <$> mapM (λ kv, (λ j, (toValidUTF8 kv.1, j)) <$> marshalValue kv.2) kvs
  | GoChan => None
  end.

(** [m[k] = v] on a map held as a list. *)
Fixpoint mapAssign (k : string) (v : GoValue) (m : list (string * GoValue))
    : list (string * GoValue) :=
  match m with
  | [] => [(k, v)]
  | (k', v') :: r => if String.eqb k' k then (k, v) :: r else (k', v') :: mapAssign k v r
  end.

(** [convertNumber]: a number becomes a [float64]; [None] is the error of
    [strconv.ParseFloat] on a literal beyond the range of [float64]. *)
Definition convertNumber (z : Z) : option float :=
  let f := Float64.of_Z z in
  if PrimFloat.is_infinity f then None else Some f.

(** [json.Unmarshal] into an [interface{}]: [nil], [bool], [float64],
    [string], [[]interface{}] or [map[string]interface{}], in which the
    last of equal keys stays.  [None] is the error of a number out of
    range. *)
Fixpoint unmarshalValue (j : json) : option GoValue :=
  match j with
  | JNull => Some GoNil
  | JBool b => Some (GoBool b)
  | JInt z => GoFloat64 <$> convertNumber z
  | JFloat f => Some (GoFloat64 f)
  | JString s => Some (GoString s)
  | JArray l => GoSlice <$> mapM unmarshalValue l
  | JObject kvs =>
      GoMap <$> foldl (λ acc kv, m ← acc; v ← unmarshalValue kv.2; Some (mapAssign kv.1 v m))
                  (Some []) kvs
  end.

(** How deep arrays and objects nest in a document. *)
Fixpoint depth (j : json) : Z :=
  match j with
  | JArray l => 1 + foldr Z.max 0 (depth <$> l)
  | JObject kvs => 1 + foldr Z.max 0 ((λ kv, depth kv.2) <$> kvs)
  | _ => 0
  end.

(** The scanner of [json.Unmarshal] refuses a document that nests deeper. *)
Definition maxNestingDepth : Z := 10000.

(** *** protocol.go *)

Record Message := mkMessage {
  Type_ : string;       (* Type, json "type" *)
  ID : string;          (* json "id" *)
  Sender : string;      (* json "sender" *)
  Timestamp : Z;        (* time.Time, json "timestamp" *)
  Payload : GoValue     (* interface{}, json "payload" *)
}.

Inductive error :=
| ErrEmptyType                 (* message type cannot be empty *)
| ErrEmptyID                   (* message ID cannot be empty *)
| ErrEmptySender               (* message sender cannot be empty *)
| ErrMarshal                   (* json.Marshal: unsupported type or value *)
| ErrUnmarshal                 (* json.Unmarshal: nesting too deep, a value of the
                                  wrong kind, a number out of range *)
| ErrPoolAtCapacity (max : Z)  (* connection pool at maximum capacity (max) *)
| ErrReceiveHandshake          (* failed to receive (response) handshake *)
| ErrVerifyHandshake (e : crypto.error)  (* (response) handshake verification failed *)
| ErrCreateHandshake           (* failed to create (response) handshake *)
| ErrSendHandshake.            (* failed to send (response) handshake *)

Definition isEmpty (s : string) : bool :=
  match s with EmptyString => true | _ => false end.

(** [Validate]; [None] is the nil error. *)
Definition Validate (m : Message) : option error :=
  if isEmpty (Type_ m) then Some ErrEmptyType
  else if isEmpty (ID m) then Some ErrEmptyID
  else if isEmpty (Sender m) then Some ErrEmptySender
  else None.

(** The zero [Message] that [var msg Message] declares. *)
Definition zeroMessage : Message := mkMessage "" "" "" 0 GoNil.

(** Case folding of an object key, which is how [json.Unmarshal] matches
    it to a field name when no key matches exactly: two names match when
    they are equal under Unicode's simple case folding.  The runes that
    fold to an ASCII letter are that letter in either case, U+017F (long
    s, bytes C5 BF) for [s] and U+212A (the Kelvin sign, bytes E2 84 AA)
    for [k]; every other byte is kept, as no other rune folds into ASCII.
    The field names of [Message] are ASCII. *)
Definition lower (c : ascii) : ascii :=
  if inRange 0x41 0x5A c then ascii_of_N (N_of_ascii c + 32) else c.
Definition isByte (n : N) (c : ascii) : bool := (N_of_ascii c =? n)%N.
Fixpoint foldKey (s : string) : string :=
  match s with
  | EmptyString => EmptyString
  | String c r =>
      match r with
      | String c1 r1 =>
          if isByte 0xC5 c && isByte 0xBF c1 then String "s" (foldKey r1)
          else
            match r1 with
            | String c2 r2 =>
                if isByte 0xE2 c && isByte 0x84 c1 && isByte 0xAA c2
                then String "k" (foldKey r2)
                else String (lower c) (foldKey r)
            | EmptyString => String (lower c) (foldKey r)
            end
      | EmptyString => String (lower c) EmptyString
      end
  end.

Section JSON.
(** [time.Time]'s [MarshalJSON] (the text between the quotes, or an
    error) and [UnmarshalJSON]. *)
Context (time_MarshalJSON : Z → option string)
        (time_UnmarshalJSON : string → option Z).

(** [Serialize]: [json.Marshal(m)] *)
Definition Serialize (m : Message) : json + error :=
  match time_MarshalJSON (Timestamp m) with
  | None => inr ErrMarshal
  | Some ts =>
      match marshalValue (Payload m) with
      | None => inr ErrMarshal
      | Some payload =>
          inl (JObject [("type", JString (toValidUTF8 (Type_ m)));
                        ("id", JString (toValidUTF8 (ID m)));
                        ("sender", JString (toValidUTF8 (Sender m)));
                        ("timestamp", JString ts);
                        ("payload", payload)])
      end
  end.

(** A JSON value stored into a [string] field. *)
Definition intoString (v : json) (old : string) : string + error :=
  match v with
  | JString s => inl s
  | JNull => inl old
  | _ => inr ErrUnmarshal
  end.

(** One key of the object stored into the message. *)
Definition setField (msg : Message) (kv : string * json) : Message + error :=
  let '(k, v) := kv in
  let k := foldKey k in
  if String.eqb k "type" then
    match intoString v (Type_ msg) with
    | inl s => inl (mkMessage s (ID msg) (Sender msg) (Timestamp msg) (Payload msg))
    | inr e => inr e
    end
  else if String.eqb k "id" then
    match intoString v (ID msg) with
    | inl s => inl (mkMessage (Type_ msg) s (Sender msg) (Timestamp msg) (Payload msg))
    | inr e => inr e
    end
  else if String.eqb k "sender" then
    match intoString v (Sender msg) with
    | inl s => inl (mkMessage (Type_ msg) (ID msg) s (Timestamp msg) (Payload msg))
    | inr e => inr e
    end
  else if String.eqb k "timestamp" then
    match v with
    | JNull => inl msg
    | JString s =>
        match time_UnmarshalJSON s with
        | Some t => inl (mkMessage (Type_ msg) (ID msg) (Sender msg) t (Payload msg))
        | None => inr ErrUnmarshal
        end
    | _ => inr ErrUnmarshal
    end
  else if String.eqb k "payload" then
    match unmarshalValue v with
    | Some payload =>
        inl (mkMessage (Type_ msg) (ID msg) (Sender msg) (Timestamp msg) payload)
    | None => inr ErrUnmarshal
    end
  else inl msg.

(** [DeserializeMessage]: [json.Unmarshal(data, &msg)], which scans the
    whole document before it stores anything. *)
Definition DeserializeMessage (data : json) : Message + error :=
  if maxNestingDepth <? depth data then inr ErrUnmarshal
  else
    match data with
    | JNull => inl zeroMessage
    | JObject kvs =>
        fold_left (λ acc kv, match acc with inl msg => setField msg kv | inr e => inr e end)
          kvs (inl zeroMessage)
    | _ => inr ErrUnmarshal
    end.
End JSON.

(** *** connection.go and peer.go *)

Record Connection := mkConnection {
  connID : string;
  connPeerID : string;
  connAddress : string;
  Conn : nat;            (* net.Conn, the socket *)
  CreatedAt : Z;
  connLastSeen : Z
}.

(** A [*Connection] held by a peer or by the pool is kept as the record it
    points to: nothing below depends on two holders sharing one. *)
Record Peer := mkPeer {
  peerID : string;
  peerAddress : string;
  peerVersion : string;
  peerLastSeen : Z;
  ConnectedAt : Z;
  peerConnection : option Connection
}.

(** [NewPeer]; [now1] and [now2] are its two readings of the clock, for
    [ConnectedAt] and then for [LastSeen]. *)
Definition NewPeer (now1 now2 : Z) (id address version : string) : Peer :=
  mkPeer id address version now2 now1 None.

Definition SetConnection (conn : Connection) (p : Peer) : Peer :=
  mkPeer (peerID p) (peerAddress p) (peerVersion p) (peerLastSeen p) (ConnectedAt p)
    (Some conn).

(** *** pool.go *)

Definition Second : Z := 1000000000.
Definition DefaultMaxConnections : Z := 50.
Definition DefaultConnectionTimeout : Z := 30 * Second.

Record ConnectionPool := mkPool {
  maxConnections : Z;
  timeout : Z;
  connections : gmap string Connection;
  peers : gmap string Peer
}.

Definition NewConnectionPool (maxConnections timeout : Z) : ConnectionPool :=
  let maxConnections := if maxConnections <=? 0 then DefaultMaxConnections else maxConnections in
  let timeout := if timeout <=? 0 then DefaultConnectionTimeout else timeout in
  mkPool maxConnections timeout ∅ ∅.

(** [len(cp.connections)] *)
Definition ConnectionCount (cp : ConnectionPool) : Z := Z.of_nat (size (connections cp)).
Definition PeerCount (cp : ConnectionPool) : Z := Z.of_nat (size (peers cp)).
Definition IsFull (cp : ConnectionPool) : bool := maxConnections cp <=? ConnectionCount cp.

(** [AddConnection]: the error returned ([None] for nil) and the pool
    afterwards. *)
Definition AddConnection (conn : Connection) (cp : ConnectionPool)
    : option error * ConnectionPool :=
  if maxConnections cp <=? Z.of_nat (size (connections cp)) then
    (Some (ErrPoolAtCapacity (maxConnections cp)), cp)
  else
    (None, mkPool (maxConnections cp) (timeout cp)
             (<[connID conn := conn]> (connections cp)) (peers cp)).

Definition RemoveConnection (connID : string) (cp : ConnectionPool) : ConnectionPool :=
  mkPool (maxConnections cp) (timeout cp) (delete connID (connections cp)) (peers cp).

Definition AddPeer (peer : Peer) (cp : ConnectionPool) : ConnectionPool :=
  mkPool (maxConnections cp) (timeout cp) (connections cp) (<[peerID peer := peer]> (peers cp)).

Definition RemovePeer (peerID : string) (cp : ConnectionPool) : ConnectionPool :=
  mkPool (maxConnections cp) (timeout cp) (connections cp) (delete peerID (peers cp)).

(** *** connection.go, peer.go and pool.go: the remaining operations *)

(** [t.Sub(u)], a [time.Duration]: the difference of two instants in
    nanoseconds, kept within the bounds of [int64]. *)
Definition time_Sub (t u : Z) : Z := Z.max (- 2 ^ 63) (Z.min (2 ^ 63 - 1) (t - u)).

(** [UpdateLastSeen], [now] being [time.Now()]. *)
Definition UpdateLastSeen (now : Z) (c : Connection) : Connection :=
  mkConnection (connID c) (connPeerID c) (connAddress c) (Conn c) (CreatedAt c) now.

(** [IsActive]: [time.Since(c.LastSeen) < timeout], [now] being the
    instant [time.Since] reads. *)
Definition IsActive (now : Z) (timeout : Z) (c : Connection) : bool :=
  time_Sub now (connLastSeen c) <? timeout.

Definition IsAlive (now : Z) (timeout : Z) (p : Peer) : bool :=
  time_Sub now (peerLastSeen p) <? timeout.

(** [GetConnection] and [GetPeer]: [None] for [(nil, false)]. *)
Definition GetConnection (connID : string) (cp : ConnectionPool) : option Connection :=
  connections cp !! connID.

Definition GetPeer (peerID : string) (cp : ConnectionPool) : option Peer :=
  peers cp !! peerID.

(** [cleanInactiveConnections].  [order] is the order in which the map of
    connections is visited and [clock id] the instant read when the
    connection [id] is tested.  The result is the ids of the connections
    closed, in the order of their closing, and the pool afterwards. *)
Definition cleanInactiveConnections (clock : string → Z)
    (order : list (string * Connection)) (cp : ConnectionPool)
    : list string * ConnectionPool :=
  let inactive :=
    fold_left
      (λ inactive '(id, conn),
         if negb (IsActive (clock id) (timeout cp) conn) then inactive ++ [id] else inactive)
      order [] in
  (inactive,
   fold_left
     (λ cp id, mkPool (maxConnections cp) (timeout cp) (delete id (connections cp)) (peers cp))
     inactive cp).

(** *** network.go: the secure handshake *)

(** The part of [Network] the handshake reads and writes. *)
Record Network := mkNetwork {
  nodeID : string;
  netPeers : gmap string Peer;          (* n.peers *)
  pool : ConnectionPool;
  topologyMgr : topology.World
}.

(** The readings of the clock one registration makes: the two of
    [NewPeer], then the two of [topology.AddPeer]. *)
Record Readings := mkReadings {
  newPeer1 : Z;
  newPeer2 : Z;
  addPeer1 : Z;
  addPeer2 : Z
}.

(** [registerPeer]; [t] holds its readings of the clock. *)
Definition registerPeer (t : Readings) (peerID : string) (connection : Connection)
    (n : Network) : Network :=
  let peer :=
    SetConnection connection
      (NewPeer (newPeer1 t) (newPeer2 t) peerID (connAddress connection) "1.0.0") in
  let topologyPeer :=
    topology.mkPeer (p2p.peerID peer) (peerAddress peer) (peerVersion peer) (peerLastSeen peer) in
  mkNetwork (nodeID n) (<[peerID := peer]> (netPeers n)) (AddPeer peer (pool n))
    (topology.AddPeer (addPeer1 t) (addPeer2 t) topologyPeer (topologyMgr n)).

(** What a handshake does, in the order it does it. *)
Inductive Event :=
| EvReceive (msg : option crypto.HandshakeMessage)
| EvVerify (msg : crypto.HandshakeMessage) (err : option crypto.error)
| EvRegister (peerID : string)
| EvCreate (msg : option crypto.HandshakeMessage)
| EvSend (msg : crypto.HandshakeMessage) (ok : bool).

(** What the outside answers during one handshake: the second
    [VerifyHandshakeMessage] reads off the clock ([time.Now().Unix()]), the
    instants [registerPeer] reads, the message read from the socket
    ([None]: the read or the parse failed), the message
    [CreateHandshakeMessage] builds ([None]: it failed) and whether the
    write succeeds. *)
Record Env := mkEnv {
  now : Z;
  registration : Readings;
  received : option crypto.HandshakeMessage;
  created : option crypto.HandshakeMessage;
  written : bool
}.

(** Steps on the network and the log of events, stopping at an error. *)
Definition Run (A : Type) : Type :=
  Network * list Event → (A + error) * (Network * list Event).

#[export] Instance run_ret : MRet Run := λ A a s, (inl a, s).
#[export] Instance run_bind : MBind Run := λ A B f m s,
  match m s with
  | (inl a, s') => f a s'
  | (inr e, s') => (inr e, s')
  end.

Definition fail {A : Type} (e : error) : Run A := λ s, (inr e, s).
Definition emit (ev : Event) : Run unit := λ s, (inl tt, (s.1, s.2 ++ [ev])).
Definition update (f : Network → Network) : Run unit := λ s, (inl tt, (f s.1, s.2)).

Section Handshake.
Context (L : crypto.Lib) (env : Env).

Definition receiveHandshakeMessage : Run crypto.HandshakeMessage :=
  emit (EvReceive (received env));;
  match received env with
  | Some msg => mret msg
  | None => fail ErrReceiveHandshake
  end.

Definition CreateHandshakeMessage : Run crypto.HandshakeMessage :=
  emit (EvCreate (created env));;
  match created env with
  | Some msg => mret msg
  | None => fail ErrCreateHandshake
  end.

Definition sendHandshakeMessage (msg : crypto.HandshakeMessage) : Run unit :=
  emit (EvSend msg (written env));;
  if written env then mret tt else fail ErrSendHandshake.

Definition verifyHandshake (msg : crypto.HandshakeMessage) : Run unit :=
  let err := crypto.VerifyHandshakeMessage L (now env) (Some msg) in
  emit (EvVerify msg err);;
  match err with
  | None => mret tt
  | Some e => fail (ErrVerifyHandshake e)
  end.

Definition register (peerID : string) (connection : Connection) : Run unit :=
  emit (EvRegister peerID);;
  update (registerPeer (registration env) peerID connection).

Definition performSecureHandshake (incoming : bool) (connection : Connection) : Run unit :=
  if incoming then
    handshakeMsg ← receiveHandshakeMessage;
    verifyHandshake handshakeMsg;;
    register (crypto.NodeID handshakeMsg) connection;;
    responseMsg ← CreateHandshakeMessage;
    sendHandshakeMessage responseMsg
  else
    handshakeMsg ← CreateHandshakeMessage;
    sendHandshakeMessage handshakeMsg;;
    responseMsg ← receiveHandshakeMessage;
    verifyHandshake responseMsg;;
    register (crypto.NodeID responseMsg) connection.
End Handshake.

(** *** protocol.go: [NewMessage] *)

(** [NewMessage]; [unixNano] is [time.Now().UnixNano()] of the first
    reading of the clock, [now] the second reading. *)
Definition NewMessage (unixNano now : Z) (msgType sender : string) (payload : GoValue)
    : Message :=
  mkMessage msgType (msgType +:+ "-" +:+ pretty unixNano) sender now payload.

(** *** network.go: sending *)

Inductive sendError :=
| ErrPeerNotFound (peerID : string)     (* peer %s not found *)
| ErrNoConnection (peerID : string)     (* no active connection to peer %s *)
| ErrSerialize (e : error)              (* failed to serialize message *)
| ErrWrite.                             (* failed to write message to connection *)

Section Sending.
(** The codec of [time.Time], the text [json.Marshal] prints for a
    document, and whether [conn.Write] of these bytes on a socket
    succeeds. *)
Context (time_MarshalJSON : Z → option string)
        (json_text : json → list Byte.byte)
        (conn_Write : nat → list Byte.byte → bool).

(** [sendMessageToConn]: the error, the monitor's statistics afterwards
    and the sockets written to. *)
Definition sendMessageToConn (conn : nat) (msg : Message) (stats : monitor.Stats)
    : option sendError * monitor.Stats * list nat :=
  match Serialize time_MarshalJSON msg with
  | inr e => (Some (ErrSerialize e), stats, [])
  | inl data =>
      let data := json_text data ++ [Byte.x0a] in
      if conn_Write conn data then
        (None,
         monitor.IncrementMessagesSent (monitor.AddBytesSent (Z.of_nat (length data)) stats),
         [conn])
      else (Some ErrWrite, stats, [conn])
  end.

(** [SendMessage], on the peers of the network. *)
Definition SendMessage (peerID : string) (msg : Message) (n : Network) (stats : monitor.Stats)
    : option sendError * monitor.Stats * list nat :=
  match netPeers n !! peerID with
  | None => (Some (ErrPeerNotFound peerID), stats, [])
  | Some peer =>
      match peerConnection peer with
      | None => (Some (ErrNoConnection peerID), stats, [])
      | Some conn => sendMessageToConn (Conn conn) msg stats
      end
  end.

(** [Broadcast], on the peers of the pool; [order] is the order in which
    [GetPeers] visits them. *)
Definition Broadcast (order : list (string * Peer)) (msg : Message) (stats : monitor.Stats)
    : option sendError * monitor.Stats * list nat :=
  fold_left
    (λ '(lastErr, stats, written) '(_, peer),
       match peerConnection peer with
       | None => (lastErr, stats, written)
       | Some conn =>
           match sendMessageToConn (Conn conn) msg stats with
           | (Some err, stats, w) => (Some err, stats, written ++ w)
           | (None, stats, w) => (lastErr, stats, written ++ w)
           end
       end)
    order (None, stats, []).
End Sending.

End p2p.


(* ================================================================= *)
(** ** Packages [config] and [logger] *)

Module config.

Record NodeConfig := mkNodeConfig { ID : string; Name : string }.

Record P2PConfig := mkP2PConfig {
  ListenPort : Z;
  BootstrapPeers : list string;
  MaxPeers : Z;
  EnableDiscovery : bool
}.

Record StorageConfig := mkStorageConfig {
  DataDir : string;
  MaxSizeGB : Z;
  EnableBackups : bool
}.

Record AIConfig := mkAIConfig {
  Endpoint : string;
  Timeout : Z;
  MaxRetries : Z;
  EnableOffline : bool
}.

Record LoggingConfig := mkLoggingConfig {
  Level : string;
  Format : string;
  OutputFile : string
}.

Record Config := mkConfig {
  Node : NodeConfig;
  P2P : P2PConfig;
  Storage : StorageConfig;
  AI : AIConfig;
  Logging : LoggingConfig
}.

(** [Default]; [dataDir] is [filepath.Join(homeDir, ".synapse", "data")]. *)
Definition Default (dataDir : string) : Config :=
  mkConfig (mkNodeConfig "" "synapse-node")
    (mkP2PConfig 8080 [] 50 false)
    (mkStorageConfig dataDir 10 true)
    (mkAIConfig "https://svceai.site/api/chat" 30 3 true)
    (mkLoggingConfig "info" "json" "").

Inductive error :=
| ErrListenPort (port : Z)     (* invalid P2P listen port: %d *)
| ErrMaxPeers                  (* max peers must be at least 1 *)
| ErrMaxSize                   (* max storage size must be at least 1 GB *)
| ErrTimeout                   (* AI timeout must be at least 1 second *)
| ErrLogLevel (level : string). (* invalid log level: %s *)

(** The map [validLogLevels], read at a key. *)
Definition validLogLevels (level : string) : bool :=
  String.eqb level "debug" || String.eqb level "info" || String.eqb level "warn"
  || String.eqb level "error".

(** [Validate]; [None] is the nil error. *)
Definition Validate (c : Config) : option error :=
  if (ListenPort (P2P c) <? 1024) || (65535 <? ListenPort (P2P c))
  then Some (ErrListenPort (ListenPort (P2P c)))
  else if MaxPeers (P2P c) <? 1 then Some ErrMaxPeers
  else if MaxSizeGB (Storage c) <? 1 then Some ErrMaxSize
  else if Timeout (AI c) <? 1 then Some ErrTimeout
  else if negb (validLogLevels (Level (Logging c))) then Some (ErrLogLevel (Level (Logging c)))
  else None.

End config.

Module logger.

(** [zerolog.Level], for the levels the package names. *)
Inductive Level := DebugLevel | InfoLevel | WarnLevel | ErrorLevel.

Definition parseLevel (level : string) : Level :=
  if String.eqb level "debug" then DebugLevel
  else if String.eqb level "info" then InfoLevel
  else if String.eqb level "warn" then WarnLevel
  else if String.eqb level "error" then ErrorLevel
  else InfoLevel.

End logger.

(* ================================================================= *)
(** ** Package [discovery]: bootstrap nodes, peer exchange, mDNS records *)

Module discovery.

Record BootstrapManager := mkBootstrapManager {
  nodes : list string;
  connected : gmap string bool;
  maxRetries : Z;
  retryDelay : Z
}.

Definition NewBootstrapManager (nodes : list string) : BootstrapManager :=
  mkBootstrapManager nodes ∅ 3 (5 * 1000000000).

Definition AddNode (node : string) (b : BootstrapManager) : BootstrapManager :=
  if existsb (String.eqb node) (nodes b) then b
  else mkBootstrapManager (nodes b ++ [node]) (connected b) (maxRetries b) (retryDelay b).

Definition GetNodes (b : BootstrapManager) : list string := nodes b.

(** [b.connected[node]]: [false] for a missing key. *)
Definition IsConnected (node : string) (b : BootstrapManager) : bool :=
  default false (connected b !! node).

(** How a call of [connectWithRetry] ends. *)
Inductive outcome :=
| Connected                       (* nil *)
| Cancelled                       (* ctx.Err() *)
| GaveUp (attempts : Z).          (* failed to connect ... after %d attempts *)

(** What a run of the retry loop has done so far. *)
Record Attempts := mkAttempts {
  calls : nat;        (* calls of connectFunc *)
  sleeps : nat        (* calls of time.Sleep(b.retryDelay) *)
}.

(** The loop of [connectWithRetry] from the iteration [i], with [fuel]
    iterations left before [i] reaches [maxRetries].  [cancelled i] says
    whether the context is done when the iteration [i] tests it, and
    [connects i] whether the call of [connectFunc] in it succeeds. *)
Fixpoint retryLoop (cancelled connects : nat → bool) (node : string)
    (fuel : nat) (i : nat) (a : Attempts) (b : BootstrapManager)
    : outcome * Attempts * BootstrapManager :=
  match fuel with
  | O => (GaveUp (maxRetries b), a, b)
  | S fuel =>
      if cancelled i then (Cancelled, a, b)
      else if connects i then
        (Connected, mkAttempts (S (calls a)) (sleeps a),
         mkBootstrapManager (nodes b) (<[node := true]> (connected b)) (maxRetries b)
           (retryDelay b))
      else if Z.of_nat i <? maxRetries b - 1 then
        retryLoop cancelled connects node fuel (S i)
          (mkAttempts (S (calls a)) (S (sleeps a))) b
      else
        retryLoop cancelled connects node fuel (S i) (mkAttempts (S (calls a)) (sleeps a)) b
  end.

Definition connectWithRetry (cancelled connects : nat → bool) (node : string)
    (b : BootstrapManager) : outcome * Attempts * BootstrapManager :=
  retryLoop cancelled connects node (Z.to_nat (maxRetries b)) 0 (mkAttempts 0 0) b.

(** A discovered peer. *)
Record Peer := mkPeer {
  ID : string;
  Address : string;
  Port : Z;
  Hostname : string;
  TTL : Z
}.

Record PeerExchange := mkPeerExchange {
  maxPeers : Z;
  peerDiscovery : option (option (list Peer));   (* the function, and what it returns *)
  peerConnect : option (Peer → bool)             (* the function: [true] for nil *)
}.

Definition NewPeerExchange (maxPeers : Z) : PeerExchange := mkPeerExchange maxPeers None None.

Inductive exchangeError :=
| ErrFunctionsNotSet      (* discovery and connect functions must be set *)
| ErrDiscover             (* failed to discover peers *)
| ErrContext.             (* ctx.Err() *)

(** The loop of [ExchangePeers]: the error, the peers [peerConnect] was
    called on and the number it accepted.  [cancelled k] says whether the
    context is done at the [k]-th test. *)
Fixpoint exchangeLoop (maxPeers : Z) (connect : Peer → bool) (cancelled : nat → bool)
    (peers : list Peer) (k : nat) (tried : list Peer) (connectedCount : Z)
    : option exchangeError * list Peer * Z :=
  match peers with
  | [] => (None, tried, connectedCount)
  | peer :: rest =>
      if maxPeers <=? connectedCount then (None, tried, connectedCount)
      else if cancelled k then (Some ErrContext, tried, connectedCount)
      else if connect peer then
        exchangeLoop maxPeers connect cancelled rest (S k) (tried ++ [peer]) (connectedCount + 1)
      else
        exchangeLoop maxPeers connect cancelled rest (S k) (tried ++ [peer]) connectedCount
  end.

Definition ExchangePeers (cancelled : nat → bool) (p : PeerExchange)
    : option exchangeError * list Peer * Z :=
  match peerDiscovery p, peerConnect p with
  | Some discovered, Some connect =>
      match discovered with
      | None => (Some ErrDiscover, [], 0)
      | Some peers => exchangeLoop (maxPeers p) connect cancelled peers 0 [] 0
      end
  | _, _ => (Some ErrFunctionsNotSet, [], 0)
  end.

(** [splitNodeID]: [for i, c := range s] visits the runes of [s];
    [skip] bytes of the rune being visited remain and [before] is
    [s[:i]]. *)
Fixpoint splitFrom (skip : nat) (before : string) (s : string) : list string :=
  match s with
  | EmptyString => []
  | String c r =>
      match skip with
      | S k => splitFrom k (before +:+ String c "") r
      | O =>
          match p2p.runeSize s with
          | Some 1%nat =>
              if Ascii.eqb c "="%char then [before; r]
              else splitFrom 0 (before +:+ String c "") r
          | Some n => splitFrom (pred n) (before +:+ String c "") r
          | None => splitFrom 0 (before +:+ String c "") r
          end
      end
  end.

Definition splitNodeID (s : string) : list string := splitFrom 0 "" s.

(** [strings.HasPrefix] and [strings.TrimPrefix], through the rest of
    [s] after [prefix] when [s] starts with it. *)
Fixpoint afterPrefix (prefix s : string) : option string :=
  match prefix, s with
  | EmptyString, _ => Some s
  | String a p, String b r => if Ascii.eqb a b then afterPrefix p r else None
  | String _ _, EmptyString => None
  end.

Definition strings_HasPrefix (s prefix : string) : bool :=
  match afterPrefix prefix s with Some _ => true | None => false end.

Definition strings_TrimPrefix (s prefix : string) : string :=
  match afterPrefix prefix s with Some r => r | None => s end.

(** The node id [processServiceEntry] reads off the TXT records. *)
Fixpoint nodeIDOfServiceEntry (text : list string) : string :=
  match text with
  | [] => ""
  | txt :: rest =>
      match splitNodeID txt with
      | [key; value] => if String.eqb key "node_id" then value else nodeIDOfServiceEntry rest
      | _ => nodeIDOfServiceEntry rest
      end
  end.

(** The node id [MDNSDiscoverer.processEntry] reads off them. *)
Fixpoint nodeIDOfEntry (text : list string) : string :=
  match text with
  | [] => ""
  | txt :: rest =>
      if strings_HasPrefix txt "node_id=" then strings_TrimPrefix txt "node_id="
      else nodeIDOfEntry rest
  end.

End discovery.

(* ================================================================= *)
(** * Definitions used to state and prove the properties *)

(** ** The order of binary64 values, read off their specification *)

Definition SFnotnan (x : spec_float) : bool :=
  match x with S754_nan => false | _ => true end.

(** A key whose lexicographic order is the order [SFcompare] decides. *)
Definition SFkey (x : spec_float) : Z * Z * Z :=
  match x with
  | S754_infinity true => (-2, 0, 0)
  | S754_finite true m e => (-1, - e, - Z.pos m)
  | S754_zero _ | S754_nan => (0, 0, 0)
  | S754_finite false m e => (1, e, Z.pos m)
  | S754_infinity false => (2, 0, 0)
  end.

Definition lexlt (a b : Z * Z * Z) : Prop :=
  a.1.1 < b.1.1 ∨ (a.1.1 = b.1.1 ∧ (a.1.2 < b.1.2 ∨ (a.1.2 = b.1.2 ∧ a.2 < b.2))).

Definition lexeq (a b : Z * Z * Z) : Prop :=
  a.1.1 = b.1.1 ∧ a.1.2 = b.1.2 ∧ a.2 = b.2.

(** Not NaN, with sign bit [s]. *)
Definition SFsigned (s : bool) (x : spec_float) : Prop :=
  match x with
  | S754_zero s' | S754_infinity s' | S754_finite s' _ _ => s' = s
  | S754_nan => False
  end.

(** Not NaN and not below zero (either zero is allowed). *)
Definition SFnn (x : spec_float) : Prop :=
  match x with
  | S754_zero _ => True
  | S754_infinity s | S754_finite s _ _ => s = false
  | S754_nan => False
  end.

(** The specification of [1.0]. *)
Definition SFone : spec_float := S754_finite false 4503599627370496 (-52).

Definition nn (x : float) : Prop := SFnn (Prim2SF x).
Definition sp (x : float) : Prop := SFsigned false (Prim2SF x).

(** ** [sort.Slice] *)

(** What [sort.Slice] demands of [less], on the elements of [l]: it is
    asymmetric and "not less" is transitive (a strict weak ordering). *)
Definition weakOrderOn {A} (less : A → A → bool) (l : list A) : Prop :=
  (∀ a b, a ∈ l → b ∈ l → less a b = true → less b a = false) ∧
  (∀ a b c, a ∈ l → b ∈ l → c ∈ l →
     less b a = false → less c b = false → less c a = false).

(** What [sort.Slice] promises: a permutation of the slice, in which no
    element is [less] than the one before it when [less] is such an order. *)
Definition SortsSlices {A} (sort : (A → A → bool) → list A → list A) : Prop :=
  ∀ less l,
    sort less l ≡ₚ l ∧
    (weakOrderOn less l → Sorted (λ a b, less b a = false) (sort less l)).

Definition notLess {A} (less : A → A → bool) (u v : A) : Prop := less u v = false.

(** ** The topology manager *)

(** Every pointer of the peer map is an allocated cell of the heap. *)
Definition wf (w : topology.World) : Prop :=
  map_Forall
    (λ _ p, (p < topology.next (topology.heap w))%nat ∧
            is_Some (topology.cells (topology.heap w) !! p))
    (topology.peers (topology.mgr w)).

#[global] Instance wf_dec w : Decision (wf w).
Proof. unfold wf. apply _. Defined.

(** The state [NewManager] starts from. *)
Definition emptyWorld (maxPeers : Z) : topology.World :=
  topology.mkWorld (topology.mkHeap ∅ 0) (topology.NewManager maxPeers).

(** linux/amd64, where the largest allocation is 2^48 bytes. *)
Definition amd64 : runtime.Platform := runtime.mkPlatform (2 ^ 48) eq_refl.

(** The record [AddPeer] stores. *)
Definition defaultInfo (now1 now2 : Z) (peer : topology.Peer) : topology.PeerInfo :=
  topology.mkPeerInfo (topology.peerID peer) (topology.peerAddress peer)
    (topology.mkQuality 1000000000 1.0%float 0.0%float 10000000 now2)
    now1 true 0.0%float 0.

(** The slice [peerScores] that [GetBestPeers] builds. *)
Definition peerScores (order : list (string * nat)) (w : topology.World)
    : list (string * float) :=
  omap (λ '(id, p),
          (λ info, (id, topology.peerScoreOf info)) <$> topology.load p (topology.heap w))
    order.

(** [order] is an order in which [range t.peers] may visit the map. *)
Definition rangeOrder (order : list (string * nat)) (w : topology.World) : Prop :=
  order ≡ₚ map_to_list (topology.peers (topology.mgr w)).




(** The calls a client makes, [Manager.UpdatePeerReputation] apart. *)
Inductive Op :=
| OpAddPeer (now1 now2 : Z) (peer : topology.Peer)
| OpRemovePeer (peerID : string)
| OpUpdatePeerQuality (now : Z) (peerID : string) (quality : topology.ConnectionQuality)
| OpUpdatePeerLoad (peerID : string) (load : Z)
| OpGetPeerInfo (peerID : string)
| OpBehavior (peerID : string) (behaviorScore : float)
| OpPerformance (peerID : string) (successRate : float) (responseTime : Z)
| OpReliability (peerID : string) (uptimeRatio messageDeliveryRate : float)
| OpDecay (peerID : string) (decayRate : float).

Definition step (w : topology.World) (op : Op) : topology.World :=
  match op with
  | OpAddPeer now1 now2 peer => topology.AddPeer now1 now2 peer w
  | OpRemovePeer id => topology.RemovePeer id w
  | OpUpdatePeerQuality now id q => topology.UpdatePeerQuality now id q w
  | OpUpdatePeerLoad id n => topology.UpdatePeerLoad id n w
  | OpGetPeerInfo id => (topology.GetPeerInfo id w).2
  | OpBehavior id s => topology.UpdateReputationBasedOnBehavior id s w
  | OpPerformance id r t => topology.UpdateReputationBasedOnPerformance id r t w
  | OpReliability id u d => topology.UpdateReputationBasedOnReliability id u d w
  | OpDecay id r => topology.DecayReputation id r w
  end.


(** *** States and inputs the examples use *)

Definition peerA : topology.Peer := topology.mkPeer "a" "10.0.0.1:7000" "1.0.0" 0.
Definition peerB : topology.Peer := topology.mkPeer "b" "10.0.0.2:7000" "1.0.0" 0.

(** Two peers, freshly added: equal quality, equal reputation. *)
Definition twoPeers : topology.World :=
  topology.AddPeer 3 4 peerB (topology.AddPeer 1 2 peerA (emptyWorld 10)).


(** Peer ["a"] with an earned reputation and measured quality. *)
Definition seasoned : topology.World :=
  topology.UpdatePeerQuality 9 "a"
    (topology.mkQuality (50 * topology.Millisecond) 20 0.1 0 9)
    (topology.UpdateReputationBasedOnBehavior "a" 1.0 twoPeers).

Definition negativeBandwidth : topology.ConnectionQuality :=
  topology.mkQuality topology.Second (-1000) 0 (topology.Millisecond * 10) 0.

(** The quality record of the repository's own test. *)
Definition testQuality : topology.ConnectionQuality :=
  topology.mkQuality (100 * topology.Millisecond) 10 1 (5 * topology.Millisecond) 0.

(** ** The handshake and the protocol *)

(** [a] occurs before the occurrence of [b] that splits the trace. *)
Definition precedes {A} (a b : A) (tr : list A) : Prop :=
  ∃ pre post, tr = pre ++ b :: post ∧ a ∈ pre.

(** A library in which every key parses and every signature verifies. *)
Definition trustingLib : crypto.Lib :=
  crypto.mkLib unit unit unit (λ _, Some tt) (λ _, []) (λ _, Some tt) (λ _, Some tt)
    (λ _, Some []) (λ b, b) (λ _ _ _, true).

(** A handshake stamped [2^63] seconds before the instant 1700000000. *)
Definition wrappedMessage : crypto.HandshakeMessage :=
  crypto.mkHandshakeMessage "mallory" [] (1700000000 - 2 ^ 63) [] [].

Definition freshMessage : crypto.HandshakeMessage :=
  crypto.mkHandshakeMessage "bob" [] 1699999800 [] [].

Definition staleMessage : crypto.HandshakeMessage :=
  crypto.mkHandshakeMessage "bob" [] 1699999699 [] [].

Definition someConnection : p2p.Connection :=
  p2p.mkConnection "conn_10.0.0.2:7000_1" "" "10.0.0.2:7000" 0 5 5.

Definition someNetwork : p2p.Network :=
  p2p.mkNetwork "node-1" ∅ (p2p.NewConnectionPool 50 0) (emptyWorld 50).

(** The instants a registration reads one second after 1700000000, in
    nanoseconds. *)
Definition someReadings : p2p.Readings :=
  p2p.mkReadings 1700000001000000001 1700000001000000002 1700000001000000003
    1700000001000000004.

Definition acceptingEnv : p2p.Env :=
  p2p.mkEnv 1700000000 someReadings (Some freshMessage) (Some freshMessage) true.

(** The type, id and sender of [m'] are those of [m]. *)
Definition sameEnvelope (m m' : p2p.Message) : Prop :=
  p2p.Type_ m' = p2p.Type_ m ∧ p2p.ID m' = p2p.ID m ∧ p2p.Sender m' = p2p.Sender m.

Definition helloMessage : p2p.Message :=
  p2p.mkMessage "HELLO" "HELLO-1" "node-a" 0 (p2p.GoString "hi").

(** A valid message whose payload is a channel. *)
Definition chanMessage : p2p.Message := p2p.mkMessage "DATA_SYNC" "m-1" "node-a" 0 p2p.GoChan.

(** A valid message whose id is the single byte 0xFF. *)
Definition badID : string := String (ascii_of_N 0xFF) "".
Definition badMessage : p2p.Message := p2p.mkMessage "DATA_SYNC" badID "node-a" 0 p2p.GoNil.

(** Every integer of the document is within the range of [float64]. *)
Fixpoint numbersFit (j : p2p.json) : bool :=
  match j with
  | p2p.JInt z => negb (PrimFloat.is_infinity (Float64.of_Z z))
  | p2p.JArray l => forallb numbersFit l
  | p2p.JObject kvs => forallb (λ kv, numbersFit kv.2) kvs
  | _ => true
  end.

(** The document [Serialize] returns. *)
Definition envelope (type id sender ts : string) (payload : p2p.json) : p2p.json :=
  p2p.JObject [("type", p2p.JString type); ("id", p2p.JString id);
               ("sender", p2p.JString sender); ("timestamp", p2p.JString ts);
               ("payload", payload)].

(** [n] slices, each the only element of the one around it, and the
    arrays they are written as. *)
Definition nestedSlices (n : nat) : p2p.GoValue :=
  Nat.iter n (λ v, p2p.GoSlice [v]) p2p.GoNil.
Definition nestedArrays (n : nat) : p2p.json :=
  Nat.iter n (λ j, p2p.JArray [j]) p2p.JNull.

(** A valid message whose payload nests 10000 slices. *)
Definition deepMessage : p2p.Message :=
  p2p.mkMessage "DATA_SYNC" "m-2" "node-a" 0 (nestedSlices (Z.to_nat 10000)).

(** A valid message whose payload is the [*big.Int] [10^400]. *)
Definition bigMessage : p2p.Message :=
  p2p.mkMessage "DATA_SYNC" "m-3" "node-a" 0 (p2p.GoInt (10 ^ 400)).

(** Membership in an explicit trace, decomposed. *)
Ltac in_trace :=
  repeat match goal with
  | H : _ ∈ [] |- _ => exfalso; exact (proj1 (elem_of_nil _) H)
  | H : _ ∈ _ :: _ |- _ => apply elem_of_cons in H as [H|H]
  | H : p2p.EvRegister _ = _ |- _ => first [discriminate H | injection H as H]
  | H : p2p.EvSend _ _ = _ |- _ => first [discriminate H | injection H as ? ?]
  end.

(** The goal [precedes a b tr], with [pre] the trace up to [b]. *)
Ltac before pre :=
  exists pre; eexists; split;
  [reflexivity | repeat first [apply list_elem_of_here | apply list_elem_of_further]].

(** ** The topology manager under every call *)

(** The calls a client makes, [Manager.UpdatePeerReputation] included. *)
Inductive Call :=
| CallOp (op : Op)
| CallUpdatePeerReputation (peerID : string) (reputation : float).

Definition call (w : topology.World) (c : Call) : topology.World :=
  match c with
  | CallOp op => step w op
  | CallUpdatePeerReputation id r => topology.UpdatePeerReputation id r w
  end.

Definition calls (cs : list Call) (w : topology.World) : topology.World := foldl call w cs.

(** The peer whose reputation a call sets, for the calls that set one. *)
Definition reputationTarget (c : Call) : option string :=
  match c with
  | CallOp (OpBehavior id _) | CallOp (OpPerformance id _ _)
  | CallOp (OpReliability id _ _) | CallOp (OpDecay id _)
  | CallUpdatePeerReputation id _ => Some id
  | _ => None
  end.

(** What the states reached from [NewManager] have in common: pointers
    are allocated, no two ids share one, the mesh threshold is 10 and
    every record is marked connected. *)
Definition Sound (w : topology.World) : Prop :=
  wf w ∧
  (∀ id1 id2 p, topology.peers (topology.mgr w) !! id1 = Some p →
                topology.peers (topology.mgr w) !! id2 = Some p → id1 = id2) ∧
  topology.meshThreshold (topology.mgr w) = 10 ∧
  (∀ id p info, topology.peers (topology.mgr w) !! id = Some p →
                topology.cells (topology.heap w) !! p = Some info →
                topology.Connected info = true).

(** The records the entries of [order] point to. *)
Definition infosOf (order : list (string * nat)) (w : topology.World)
    : list topology.PeerInfo :=
  omap (λ '(_, p), topology.load p (topology.heap w)) order.

(** Whether the manager knows [id] as a connected peer. *)
Definition connectedIn (w : topology.World) (id : string) : bool :=
  match topology.peers (topology.mgr w) !! id with
  | Some p =>
      match topology.load p (topology.heap w) with
      | Some info => topology.Connected info
      | None => false
      end
  | None => false
  end.

(** [w'] is [w] with, at most, another reputation in the cell of [target]
    and further cells allocated. *)
Definition onlyReputation (target : string) (w w' : topology.World) : Prop :=
  topology.mgr w' = topology.mgr w ∧
  ∀ p, (p < topology.next (topology.heap w))%nat →
    (topology.peers (topology.mgr w) !! target ≠ Some p →
     topology.cells (topology.heap w') !! p = topology.cells (topology.heap w) !! p) ∧
    (topology.peers (topology.mgr w) !! target = Some p →
     ∃ r, topology.cells (topology.heap w') !! p =
            topology.set_Reputation r <$> topology.cells (topology.heap w) !! p).

(** Six peers, ["p1"] to ["p6"]. *)
Definition sixPeers : topology.World :=
  foldl (λ w id, topology.AddPeer 1 2 (topology.mkPeer id "10.0.0.9:7000" "1.0.0" 0) w)
    (emptyWorld 50) ["p1"; "p2"; "p3"; "p4"; "p5"; "p6"].

(** ** The connection pool under every call *)

Inductive PoolOp :=
| PoolAddConnection (conn : p2p.Connection)
| PoolRemoveConnection (connID : string)
| PoolAddPeer (peer : p2p.Peer)
| PoolRemovePeer (peerID : string)
| PoolCleanInactive (clock : string → Z).

Definition poolStep (cp : p2p.ConnectionPool) (op : PoolOp) : p2p.ConnectionPool :=
  match op with
  | PoolAddConnection conn => (p2p.AddConnection conn cp).2
  | PoolRemoveConnection id => p2p.RemoveConnection id cp
  | PoolAddPeer peer => p2p.AddPeer peer cp
  | PoolRemovePeer id => p2p.RemovePeer id cp
  | PoolCleanInactive clock =>
      (p2p.cleanInactiveConnections clock (map_to_list (p2p.connections cp)) cp).2
  end.

Definition poolRun (ops : list PoolOp) (cp : p2p.ConnectionPool) : p2p.ConnectionPool :=
  foldl poolStep cp ops.

(** A second connection, last seen at instant 5 like [someConnection]. *)
Definition otherConnection : p2p.Connection :=
  p2p.mkConnection "conn_10.0.0.3:7000_2" "" "10.0.0.3:7000" 1 5 (5 + 20 * p2p.Second).

(** A pool holding [someConnection] and [otherConnection]. *)
Definition twoConnections : p2p.ConnectionPool :=
  (p2p.AddConnection otherConnection
     (p2p.AddConnection someConnection (p2p.NewConnectionPool 50 0)).2).2.

(** ** Signing and encryption: a library for the examples *)

(** Beside [trustingLib]: keys are [tt], a signature is the hash, a
    private key has size 32, OAEP is the identity on 32 bytes and GCM is
    the identity. *)
Definition trustingCrypto : crypto.CryptoLib trustingLib :=
  crypto.mkCryptoLib trustingLib unit unit (λ _, Some []) (λ der, der)
    (λ _ _ hash, Some hash)
    (λ _ _ key, if (length key =? 32)%nat then Some key else None)
    (λ _ enc, Some enc) (λ _, 32%nat)
    (λ _ _ plaintext, plaintext) (λ _ _ ciphertext, Some ciphertext).

Definition someEncryptor : crypto.Encryptor trustingCrypto :=
  crypto.mkEncryptor trustingCrypto tt tt.

(** An AES key of 32 bytes, a nonce of 12 and a plaintext. *)
Definition someKey : list Byte.byte := replicate 32 Byte.x2a.
Definition someNonce : list Byte.byte := replicate 12 Byte.x07.
Definition somePlaintext : list Byte.byte := [Byte.x68; Byte.x69].

(** The peers of a pool as [GetPeers] lists them: ["bob"] on
    [someConnection], ["carol"] without a connection. *)
Definition poolPeers : list (string * p2p.Peer) :=
  [("bob", p2p.mkPeer "bob" "10.0.0.2:7000" "1.0.0" 5 5 (Some someConnection));
   ("carol", p2p.mkPeer "carol" "10.0.0.4:7000" "1.0.0" 6 6 None)].

(** A health checker that monitors ["a"] and ["b"] and finds only ["a"]
    healthy. *)
Definition someChecker : monitor.HealthChecker :=
  monitor.SetHealthCheckFunc (String.eqb "a")
    (monitor.AddPeer 2 "b" (monitor.AddPeer 1 "a" monitor.NewHealthChecker)).

(** Three discovered peers, and an exchange of at most two connections
    in which the first peer refuses. *)
Definition discovered3 : list discovery.Peer :=
  [discovery.mkPeer "n1" "10.0.0.1" 8080 "h1" 120; discovery.mkPeer "n2" "10.0.0.2" 8080 "h2" 120;
   discovery.mkPeer "n3" "10.0.0.3" 8080 "h3" 120].

Definition someExchange : discovery.PeerExchange :=
  discovery.mkPeerExchange 2 (Some (Some discovered3))
    (Some (λ p, negb (String.eqb (discovery.ID p) "n1"))).

(** ** Splitting at the first ['='] byte *)

(** Whether the byte ['='] occurs in [s]. *)
Fixpoint hasEquals (s : string) : bool :=
  match s with
  | EmptyString => false
  | String c r => Ascii.eqb c "="%char || hasEquals r
  end.

(** The search of [splitNodeID], byte by byte. *)
Fixpoint splitBytes (before : string) (s : string) : list string :=
  match s with
  | EmptyString => []
  | String c r =>
      if Ascii.eqb c "="%char then [before; r]
      else splitBytes (before +:+ String c "") r
  end.


(* ================================================================= *)
(** * Properties *)

(** ** The order of binary64 values *)

Lemma SFcompare_key x y :
  SFnotnan x = true → SFnotnan y = true →
  match SFcompare x y with
  | Some Lt => lexlt (SFkey x) (SFkey y)
  | Some Eq => lexeq (SFkey x) (SFkey y)
  | Some Gt => lexlt (SFkey y) (SFkey x)
  | None => False
  end.
Proof.
  destruct x as [sx|sx| |sx mx ex], y as [sy|sy| |sy my ey]; try discriminate;
    intros _ _; try destruct sx; try destruct sy; cbn; unfold lexlt, lexeq; cbn; try lia.
  - destruct (Z.compare_spec ex ey); try lia.
    change (Pos.compare_cont Eq mx my) with (Pos.compare mx my).
    destruct (Pos.compare_spec mx my); cbn; lia.
  - destruct (Z.compare_spec ex ey); try lia.
    change (Pos.compare_cont Eq mx my) with (Pos.compare mx my).
    destruct (Pos.compare_spec mx my); cbn; lia.
Qed.

Lemma SFcompare_nan x y :
  SFcompare x y = None ↔ SFnotnan x = false ∨ SFnotnan y = false.
Proof.
  destruct x as [sx|sx| |sx mx ex], y as [sy|sy| |sy my ey]; cbn;
    try destruct sx; try destruct sy; cbn; split; intros H; try discriminate; auto;
    destruct H; discriminate.
Qed.

(** With a NaN on either side every comparison is false. *)
Ltac compare_with_nan x y :=
  assert (SFcompare x y = None) as -> by (apply SFcompare_nan; auto);
  split; [discriminate | intros (? & ? & _); discriminate].

Lemma SFltb_key x y :
  SFltb x y = true ↔ SFnotnan x = true ∧ SFnotnan y = true ∧ lexlt (SFkey x) (SFkey y).
Proof.
  unfold SFltb. destruct (SFnotnan x) eqn:Hx, (SFnotnan y) eqn:Hy;
    [|compare_with_nan x y ..].
  pose proof (SFcompare_key x y Hx Hy) as H.
  destruct (SFcompare x y) as [[]|]; unfold lexlt, lexeq in *;
    split; intros; try discriminate; try tauto; lia.
Qed.

Lemma SFleb_key x y :
  SFleb x y = true ↔
  SFnotnan x = true ∧ SFnotnan y = true ∧
  (lexlt (SFkey x) (SFkey y) ∨ lexeq (SFkey x) (SFkey y)).
Proof.
  unfold SFleb. destruct (SFnotnan x) eqn:Hx, (SFnotnan y) eqn:Hy;
    [|compare_with_nan x y ..].
  pose proof (SFcompare_key x y Hx Hy) as H.
  destruct (SFcompare x y) as [[]|]; unfold lexlt, lexeq in *;
    split; intros; try discriminate; try tauto; lia.
Qed.

Lemma is_nan_spec x : PrimFloat.is_nan x = negb (SFnotnan (Prim2SF x)).
Proof.
  unfold PrimFloat.is_nan. rewrite FloatAxioms.eqb_spec. unfold SFeqb.
  destruct (SFnotnan (Prim2SF x)) eqn:Hx.
  - pose proof (SFcompare_key _ _ Hx Hx) as H.
    destruct (SFcompare (Prim2SF x) (Prim2SF x)) as [[]|]; try reflexivity;
      exfalso; unfold lexlt in H; try lia; auto.
  - assert (SFcompare (Prim2SF x) (Prim2SF x) = None) as -> by (apply SFcompare_nan; auto).
    reflexivity.
Qed.

Lemma notnan_spec x : PrimFloat.is_nan x = false ↔ SFnotnan (Prim2SF x) = true.
Proof. rewrite is_nan_spec. destruct (SFnotnan _); cbn; split; congruence. Qed.

Lemma ltb_key x y :
  (x <? y)%float = true ↔
  SFnotnan (Prim2SF x) = true ∧ SFnotnan (Prim2SF y) = true ∧
  lexlt (SFkey (Prim2SF x)) (SFkey (Prim2SF y)).
Proof. rewrite FloatAxioms.ltb_spec. apply SFltb_key. Qed.

Lemma leb_key x y :
  (x <=? y)%float = true ↔
  SFnotnan (Prim2SF x) = true ∧ SFnotnan (Prim2SF y) = true ∧
  (lexlt (SFkey (Prim2SF x)) (SFkey (Prim2SF y)) ∨
   lexeq (SFkey (Prim2SF x)) (SFkey (Prim2SF y))).
Proof. rewrite FloatAxioms.leb_spec. apply SFleb_key. Qed.

(** Of two ordered values one is at most the other. *)
Lemma ltb_false_le x y :
  PrimFloat.is_nan x = false → PrimFloat.is_nan y = false →
  (x <? y)%float = false → Float64.le y x.
Proof.
  rewrite !notnan_spec. intros Hx Hy Hlt. unfold Float64.le. apply leb_key.
  split; [done|]. split; [done|].
  destruct (decide (lexlt (SFkey (Prim2SF x)) (SFkey (Prim2SF y)))) as [Hk|Hk].
  - assert ((x <? y)%float = true) by (apply ltb_key; auto). congruence.
  - unfold lexlt, lexeq in *. lia.
Qed.

Lemma ltb_le x y : (x <? y)%float = true → Float64.le x y.
Proof. unfold Float64.le. rewrite ltb_key, leb_key. tauto. Qed.

Lemma le_refl x : PrimFloat.is_nan x = false → Float64.le x x.
Proof.
  rewrite notnan_spec. intros H. apply leb_key. repeat split; try done.
  right. unfold lexeq. lia.
Qed.

Lemma eqb_nan_l x y : PrimFloat.is_nan x = true → (x =? y)%float = false.
Proof.
  rewrite is_nan_spec, FloatAxioms.eqb_spec. unfold SFeqb. intros H.
  assert (SFcompare (Prim2SF x) (Prim2SF y) = None) as ->; [|done].
  apply SFcompare_nan. left. by destruct (SFnotnan (Prim2SF x)).
Qed.

Lemma eqb_le x y : (x =? y)%float = true → Float64.le x y.
Proof.
  unfold Float64.le. rewrite FloatAxioms.eqb_spec, FloatAxioms.leb_spec.
  unfold SFeqb, SFleb. by destruct (SFcompare _ _) as [[]|].
Qed.

Lemma neg_infinity_le y : PrimFloat.is_nan y = false → Float64.le neg_infinity y.
Proof.
  rewrite notnan_spec. intros Hy. apply leb_key.
  change (Prim2SF neg_infinity) with (S754_infinity true).
  split; [done|]. split; [done|].
  destruct (Prim2SF y) as [s|[]| |[] m e]; try done; unfold lexlt, lexeq; cbn; lia.
Qed.

(** ** Signs through the operations *)

Lemma shr_1_nonneg mrs : 0 ≤ shr_m mrs → 0 ≤ shr_m (shr_1 mrs).
Proof. destruct mrs as [[|[p|p|]|[p|p|]] r s]; cbn; lia. Qed.

Lemma iter_shr_1_nonneg p :
  ∀ mrs, 0 ≤ shr_m mrs → 0 ≤ shr_m (SpecFloat.iter_pos shr_1 p mrs).
Proof.
  induction p as [p IH|p IH|]; intros mrs H; cbn.
  - apply IH, IH, shr_1_nonneg, H.
  - apply IH, IH, H.
  - apply shr_1_nonneg, H.
Qed.

Lemma shr_fexp_nonneg m e l : 0 ≤ m → 0 ≤ shr_m (shr_fexp prec emax m e l).1.
Proof.
  intros H. unfold shr_fexp, shr.
  assert (0 ≤ shr_m (shr_record_of_loc m l)) as H' by (destruct l as [|[]]; exact H).
  destruct (fexp prec emax (Zdigits2 m + e) - e); cbn; auto using iter_shr_1_nonneg.
Qed.

Lemma round_nearest_even_nonneg m l : 0 ≤ m → 0 ≤ round_nearest_even m l.
Proof. intros H. destruct l as [|[]]; cbn; try lia. destruct (Z.even m); lia. Qed.

(** Rounding a non-negative mantissa keeps the sign and makes no NaN. *)
Lemma binary_round_aux_signed sx mx ex lx :
  0 ≤ mx → SFsigned sx (binary_round_aux prec emax sx mx ex lx).
Proof.
  intros H. unfold binary_round_aux.
  pose proof (shr_fexp_nonneg mx ex lx H) as H1.
  destruct (shr_fexp prec emax mx ex lx) as [mrs' e'].
  pose proof (shr_fexp_nonneg _ e' loc_Exact
                (round_nearest_even_nonneg _ (loc_of_shr_record mrs') H1)) as H2.
  destruct (shr_fexp prec emax _ e' loc_Exact) as [mrs'' e''].
  cbn in H2. destruct (shr_m mrs'') as [|m|m]; cbn; try reflexivity; try lia.
  destruct (e'' <=? emax - prec); reflexivity.
Qed.

Lemma binary_round_signed sx mx ex : SFsigned sx (binary_round prec emax sx mx ex).
Proof.
  unfold binary_round. destruct (shl_align _ _ _) as [mz ez].
  apply binary_round_aux_signed. lia.
Qed.

Lemma binary_normalize_nonneg m e :
  0 ≤ m → SFsigned false (binary_normalize prec emax m e false).
Proof.
  intros H. destruct m as [|m|m]; cbn; [reflexivity | apply binary_round_signed | lia].
Qed.

Lemma SFsigned_nn x : SFsigned false x → SFnn x.
Proof. destruct x; cbn; auto. Qed.

Lemma SFsigned_notnan s x : SFsigned s x → SFnotnan x = true.
Proof. by destruct x. Qed.

Lemma SFadd_nn x y : SFnn x → SFnn y → SFnn (SF64add x y).
Proof.
  destruct x as [sx|sx| |sx mx ex], y as [sy|sy| |sy my ey]; cbn; try tauto; try congruence.
  - intros _ _. destruct sx, sy; exact I.
  - intros -> ->. exact eq_refl.
  - intros -> ->. apply SFsigned_nn, binary_normalize_nonneg. cbn. lia.
Qed.

(** [c + y] for a positive finite [c] has its sign bit clear. *)
Lemma SFadd_pos_nn m e y : SFnn y → SFsigned false (SF64add (S754_finite false m e) y).
Proof.
  destruct y as [sy|sy| |sy my ey]; cbn; try tauto.
  intros ->. apply binary_normalize_nonneg. cbn. lia.
Qed.

Lemma SFmul_nn_pos x m e : SFnn x → SFnn (SF64mul x (S754_finite false m e)).
Proof.
  destruct x as [sx|sx| |sx mx ex]; cbn; try tauto.
  - intros ->. exact eq_refl.
  - intros ->. apply SFsigned_nn. apply binary_round_aux_signed. lia.
Qed.

(** The quotient of the mantissas in [SFdiv] is not negative. *)
Lemma SFdiv_core_quotient_nonneg m1 e1 m2 e2 :
  0 ≤ (SFdiv_core_binary prec emax (Z.pos m1) e1 (Z.pos m2) e2).1.1.
Proof.
  unfold SFdiv_core_binary.
  destruct (Z.div_eucl _ _) as [q r] eqn:Hq. cbn.
  match type of Hq with Z.div_eucl ?a ?b = _ =>
    pose proof (Z.div_eucl_eq a b ltac:(lia)) as Hd;
    pose proof (Z.mod_pos_bound a b ltac:(lia)) as Hm;
    assert (0 ≤ a) as Ha end.
  { destruct (e1 - e2 - _); cbn; try lia. apply Z.shiftl_nonneg. lia. }
  rewrite Hq in Hd. unfold Z.modulo in Hm. rewrite Hq in Hm. nia.
Qed.

Lemma SFdiv_finite_signed sx mx ex sy my ey :
  SFsigned (xorb sx sy) (SF64div (S754_finite sx mx ex) (S754_finite sy my ey)).
Proof.
  cbn -[SFdiv_core_binary].
  pose proof (SFdiv_core_quotient_nonneg mx ex my ey) as H.
  destruct (SFdiv_core_binary _ _ _ _ _ _) as [[mz ez] lz].
  by apply binary_round_aux_signed.
Qed.

Lemma SFdiv_nn_pos x m e : SFnn x → SFnn (SF64div x (S754_finite false m e)).
Proof.
  destruct x as [sx|sx| |sx mx ex]; try (cbn; tauto).
  - cbn. by intros ->.
  - intros Hx. cbn in Hx. subst sx. apply SFsigned_nn, (SFdiv_finite_signed false _ _ false).
Qed.

Lemma SFdiv_pos_signed m e y :
  SFsigned false y → SFsigned false (SF64div (S754_finite false m e) y).
Proof.
  destruct y as [sy|sy| |sy my ey]; try (cbn; tauto).
  intros Hy. cbn in Hy. subst sy. apply (SFdiv_finite_signed false _ _ false).
Qed.

Lemma SFdiv_notnan_pos x m e :
  SFnotnan x = true → SFnotnan (SF64div x (S754_finite false m e)) = true.
Proof.
  destruct x as [sx|sx| |sx mx ex]; try (cbn; done).
  intros _. eapply SFsigned_notnan, SFdiv_finite_signed.
Qed.

(** *** [1 - y] for [y] at most 1 *)

Lemma digits2_pos_size p : digits2_pos p = Pos.size p.
Proof. induction p; cbn; congruence. Qed.

(** A binary64 mantissa has at most 53 bits. *)
Lemma bounded_mantissa m e : bounded prec emax m e = true → Z.pos m < 2 ^ 53.
Proof.
  unfold bounded, canonical_mantissa, fexp. intros H.
  apply andb_true_iff in H as [H _]. apply Z.eqb_eq in H.
  rewrite digits2_pos_size in H.
  assert (Z.pos (Pos.size m) ≤ 53) as Hs by (unfold prec in H; lia).
  pose proof (Pos.size_gt m) as Hg.
  apply Z.lt_le_trans with (Z.pos (2 ^ Pos.size m)); [lia|].
  rewrite Pos2Z.inj_pow. apply Z.pow_le_mono_r; lia.
Qed.

Lemma iter_xO_pow m d : Z.pos (Pos.iter xO m d) = Z.pos m * 2 ^ Z.pos d.
Proof.
  change (Pos.iter xO m d) with (shift_pos d m).
  rewrite shift_pos_correct, Zpower_pos_nat, Zpower_nat_Z, positive_nat_Z. lia.
Qed.

Lemma SFsub_one_signed y :
  valid_binary y = true → SFleb y SFone = true →
  SFsigned false (SF64sub SFone y).
Proof.
  intros Hv Hle. apply SFleb_key in Hle as (Hy & _ & Hk).
  destruct y as [sy|sy| |sy my ey]; try discriminate.
  - exact eq_refl.
  - destruct sy; [exact eq_refl|]. exfalso. unfold lexlt, lexeq in Hk. cbn in Hk. lia.
  - cbn in Hv. apply bounded_mantissa in Hv.
    unfold SF64sub, SFone, SFsub. apply binary_normalize_nonneg.
    destruct sy; cbn [cond_Zopp]; [lia|].
    unfold lexlt, lexeq in Hk; cbn in Hk.
    assert (ey < -52 ∨ (ey = -52 ∧ Z.pos my ≤ 4503599627370496)) as [He|[-> Hm]] by lia.
    + rewrite Z.min_r by lia. unfold shl_align. rewrite Z.sub_diag.
      destruct (ey - -52) eqn:Hd; try lia. cbn [fst].
      rewrite iter_xO_pow.
      assert (2 ^ 1 ≤ 2 ^ Z.pos p) by (apply Z.pow_le_mono_r; lia).
      change (2 ^ 53) with (4503599627370496 * 2 ^ 1) in Hv. nia.
    + change ((-52) `min` (-52)) with (-52). unfold shl_align.
      change (-52 - -52) with 0. cbn [fst]. lia.
Qed.

(** ** Primitive floats: signs of results *)

Lemma sp_nn x : sp x → nn x.
Proof. apply SFsigned_nn. Qed.

Lemma nn_notnan x : nn x → PrimFloat.is_nan x = false.
Proof. unfold nn. rewrite notnan_spec. by destruct (Prim2SF x). Qed.

Lemma nn_le_zero x : nn x → Float64.le 0 x.
Proof.
  unfold nn, Float64.le. intros H. apply leb_key.
  change (Prim2SF 0) with (S754_zero false).
  destruct (Prim2SF x) as [s|s| |s m e]; cbn in *; try done; subst;
    unfold lexlt, lexeq; cbn; repeat split; lia.
Qed.

Lemma le_zero_nn x : Float64.le 0 x → nn x.
Proof.
  unfold nn, Float64.le. rewrite leb_key.
  change (Prim2SF 0) with (S754_zero false).
  destruct (Prim2SF x) as [s|s| |s m e]; cbn; unfold lexlt, lexeq; cbn;
    try destruct s; intros (? & ? & ?); try done; exfalso; cbn in *; lia.
Qed.

(** The conversion of a non-negative integer has its sign bit clear. *)
Lemma of_int64_sp z : 0 ≤ z → sp (Float64.of_int64 z).
Proof.
  intros Hz. unfold sp, Float64.of_int64.
  destruct (Z.eqb_spec z (- 2 ^ 63)); [lia|].
  destruct (Z.ltb_spec z 0); [lia|].
  rewrite FloatAxioms.of_uint63_spec. apply binary_normalize_nonneg.
  apply Uint63.to_Z_bounded.
Qed.

Section Constant.
(** [c] is a positive finite constant. *)
Context (c : float) (m : positive) (e : Z) (Hc : Prim2SF c = S754_finite false m e).

Lemma fdiv_nn x : nn x → nn (x / c).
Proof. unfold nn. rewrite FloatAxioms.div_spec, Hc. apply SFdiv_nn_pos. Qed.

Lemma fmul_nn x : nn x → nn (x * c).
Proof. unfold nn. rewrite FloatAxioms.mul_spec, Hc. apply SFmul_nn_pos. Qed.

Lemma fadd_sp y : nn y → sp (c + y).
Proof. unfold nn, sp. rewrite FloatAxioms.add_spec, Hc. apply SFadd_pos_nn. Qed.

Lemma fdiv_sp y : sp y → sp (c / y).
Proof. unfold sp. rewrite FloatAxioms.div_spec, Hc. apply SFdiv_pos_signed. Qed.

Lemma fdiv_notnan x : PrimFloat.is_nan x = false → PrimFloat.is_nan (x / c) = false.
Proof. rewrite !notnan_spec, FloatAxioms.div_spec, Hc. apply SFdiv_notnan_pos. Qed.
End Constant.

Lemma fadd_nn x y : nn x → nn y → nn (x + y).
Proof. unfold nn. rewrite FloatAxioms.add_spec. apply SFadd_nn. Qed.

Lemma fsub_one_sp y : Float64.le y 1.0 → sp (1.0 - y).
Proof.
  unfold Float64.le, sp. rewrite FloatAxioms.leb_spec, FloatAxioms.sub_spec.
  change (Prim2SF 1.0) with SFone. apply SFsub_one_signed, Prim2SF_valid.
Qed.

(** ** [math.Min] *)

Lemma IsNegInf_nn x : nn x → Float64.IsNegInf x = false.
Proof.
  unfold nn, Float64.IsNegInf. rewrite FloatAxioms.eqb_spec.
  change (Prim2SF neg_infinity) with (S754_infinity true).
  destruct (Prim2SF x) as [s|s| |s m e]; cbn; try done; by intros ->.
Qed.

Lemma Min_nn x y : nn x → nn y → nn (Float64.Min x y).
Proof.
  intros Hx Hy. unfold Float64.Min.
  rewrite !IsNegInf_nn, !nn_notnan by assumption. cbn [orb].
  destruct ((x =? 0)%float && (x =? y)%float); [destruct (Float64.Signbit x); assumption|].
  destruct (x <? y)%float; assumption.
Qed.

Lemma Min_le_r x y :
  PrimFloat.is_nan x = false → PrimFloat.is_nan y = false → Float64.le (Float64.Min x y) y.
Proof.
  intros Hx Hy. unfold Float64.Min.
  destruct (Float64.IsNegInf x || Float64.IsNegInf y); [by apply neg_infinity_le|].
  rewrite Hx, Hy. cbn [orb].
  destruct ((x =? 0)%float && (x =? y)%float) eqn:Hz.
  - apply andb_true_iff in Hz as [_ Hz]. destruct (Float64.Signbit x);
      [by apply eqb_le | by apply le_refl].
  - destruct (x <? y)%float eqn:Hlt; [by apply ltb_le | by apply le_refl].
Qed.

(** Capping at 1.0: the result is NaN or at most 1. *)
Lemma Min_one x :
  PrimFloat.is_nan (Float64.Min x 1.0) = true ∨ Float64.le (Float64.Min x 1.0) 1.0.
Proof.
  destruct (PrimFloat.is_nan x) eqn:Hx.
  - left. unfold Float64.Min, Float64.IsNegInf. rewrite (eqb_nan_l _ _ Hx), Hx. reflexivity.
  - right. by apply Min_le_r.
Qed.

(** ** The two-sided guard of reputation.go *)




(** ** [calculateQualityScore] *)

Section QualityScore.
Import topology.

(** The latency and jitter sub-scores [1 / (1 + d/Second)]. *)
Lemma subscore_sp (d : Z) :
  0 ≤ d → sp (1.0 / (1.0 + Float64.of_int64 d / Float64.of_int64 Second)).
Proof.
  intros Hd.
  eapply fdiv_sp; [reflexivity|]. eapply fadd_sp; [reflexivity|].
  eapply fdiv_nn; [reflexivity|]. by apply sp_nn, of_int64_sp.
Qed.

(** The score never exceeds 1: it is capped by [math.Min], which passes
    a NaN on. *)
Theorem calculateQualityScore_at_most_one (quality : ConnectionQuality) :
  PrimFloat.is_nan (calculateQualityScore quality) = true ∨
  Float64.le (calculateQualityScore quality) 1.0.
Proof. apply Min_one. Qed.

(** C3, as amended.  For a quality record whose latency, jitter and
    bandwidth are not negative and whose packet loss is not NaN, the
    quality score lies in [0, 1]. *)
Theorem calculateQualityScore_range (quality : ConnectionQuality) :
  0 ≤ Latency quality → 0 ≤ Jitter quality →
  Float64.le 0 (Bandwidth quality) → PrimFloat.is_nan (PacketLoss quality) = false →
  Float64.within 0 1.0 (calculateQualityScore quality).
Proof.
  intros Hl Hj Hb Hp. unfold calculateQualityScore.
  set (latencyScore := (1.0 / (1.0 + Float64.of_int64 (Latency quality) / _))%float).
  set (jitterScore := (1.0 / (1.0 + Float64.of_int64 (Jitter quality) / _))%float).
  set (bandwidthScore := Float64.Min (Bandwidth quality / 100.0) 1.0).
  set (packetLossScore := (1.0 - Float64.Min (PacketLoss quality / 100.0) 1.0)%float).
  assert (nn (latencyScore * 0.3)) as H1.
  { eapply fmul_nn; [reflexivity|]. by apply sp_nn, subscore_sp. }
  assert (nn (bandwidthScore * 0.3)) as H2.
  { eapply fmul_nn; [reflexivity|]. apply Min_nn; [|by apply le_zero_nn].
    eapply fdiv_nn; [reflexivity|]. by apply le_zero_nn. }
  assert (nn (packetLossScore * 0.2)) as H3.
  { eapply fmul_nn; [reflexivity|]. apply sp_nn, fsub_one_sp, Min_le_r; [|reflexivity].
    eapply fdiv_notnan; [reflexivity|done]. }
  assert (nn (jitterScore * 0.2)) as H4.
  { eapply fmul_nn; [reflexivity|]. by apply sp_nn, subscore_sp. }
  pose proof (fadd_nn _ _ (fadd_nn _ _ (fadd_nn _ _ H1 H2) H3) H4) as Ht.
  split.
  - apply nn_le_zero, Min_nn; [done | by apply le_zero_nn].
  - apply Min_le_r; [by apply nn_notnan | reflexivity].
Qed.

(** The quality record of the repository's test scores within [0, 1]. *)
Lemma calculateQualityScore_range_witness :
  Float64.within 0 1.0 (calculateQualityScore testQuality).
Proof.
  apply (calculateQualityScore_range testQuality);
    [ by vm_compute | by vm_compute | reflexivity | reflexivity ].
Defined.

(** C3 as stated fails: a bandwidth of -1000 Mbps, every other metric at
    its default, scores below zero. *)
Lemma calculateQualityScore_counterexample :
  (calculateQualityScore negativeBandwidth <? 0)%float = true ∧
  ¬ Float64.within 0 1.0 (calculateQualityScore negativeBandwidth).
Proof.
  split; [reflexivity|]. intros [H _]. vm_compute in H. discriminate.
Qed.

End QualityScore.

(** ** The manager's heap *)

Section Manager.
Import topology.

Lemma peerInfoOf_lookup id p info (w : World) :
  peers (mgr w) !! id = Some p → cells (heap w) !! p = Some info →
  peerInfoOf id w = Some info.
Proof.
  intros Hp Hc. unfold peerInfoOf, GetPeerInfo, load. rewrite Hp, Hc. cbn.
  apply lookup_insert_eq.
Qed.


Lemma wf_empty n : wf (emptyWorld n).
Proof. apply map_Forall_empty. Qed.

Lemma wf_twoPeers : wf twoPeers.
Proof. apply (bool_decide_unpack _). vm_compute. exact I. Qed.

Lemma wf_seasoned : wf seasoned.
Proof. apply (bool_decide_unpack _). vm_compute. exact I. Qed.

Lemma omap_ext_elem {A B} (f g : A → option B) (l : list A) :
  (∀ x, x ∈ l → f x = g x) → omap f l = omap g l.
Proof.
  induction l as [|x l IH]; intros H; [done|]. cbn.
  rewrite (H x) by left. rewrite IH; [done|]. intros y ?. apply H. by right.
Qed.

(** [GetBestPeers] reads only the cells the visited entries point to. *)
Lemma GetBestPeers_ext pf sort order n (w1 w2 : World) :
  (∀ id p, (id, p) ∈ order → load p (heap w1) = load p (heap w2)) →
  GetBestPeers pf sort order n w1 = GetBestPeers pf sort order n w2.
Proof.
  intros H. unfold GetBestPeers.
  destruct (runtime.makeslice pf runtime.sizeofString n); [|done]. do 4 f_equal.
  apply omap_ext_elem. intros [id p] Hin. by rewrite (H id p Hin).
Qed.

(** *** [AddPeer] *)

(** C9.  [AddPeer] with an id that is already present replaces the entry
    wholesale: what the manager then holds for the id is the record with
    reputation 0.0, [Connected] true, load 0 and the default quality
    (latency 1s, bandwidth 1.0, packet loss 0, jitter 10ms), whatever
    reputation and quality the id had; no entry is added and no other id
    is touched. *)
Theorem AddPeer_replaces (now1 now2 : Z) (peer : Peer) (w : World) :
  is_Some (peers (mgr w) !! peerID peer) →
  let w' := AddPeer now1 now2 peer w in
  peerInfoOf (peerID peer) w' = Some (defaultInfo now1 now2 peer) ∧
  GetPeerCount w' = GetPeerCount w ∧
  ∀ other, other ≠ peerID peer → peers (mgr w') !! other = peers (mgr w) !! other.
Proof.
  intros [p Hp] w'. split; [|split].
  - apply peerInfoOf_lookup with (p := next (heap w)); cbn; apply lookup_insert_eq.
  - unfold GetPeerCount. cbn.
    rewrite <- (insert_delete_id (peers (mgr w)) _ _ Hp) at 2.
    rewrite <- (insert_delete_eq (peers (mgr w))).
    by rewrite !map_size_insert_None by apply lookup_delete_eq.
  - intros other Hne. cbn. by rewrite lookup_insert_ne.
Qed.

(** Peer ["a"], with reputation 0.3 and measured quality, is added again. *)
Lemma AddPeer_replaces_witness :
  (Reputation <$> peerInfoOf "a" seasoned = Some 0.3%float) ∧
  let w' := AddPeer 11 12 peerA seasoned in
  peerInfoOf "a" w' = Some (defaultInfo 11 12 peerA) ∧
  GetPeerCount w' = GetPeerCount seasoned ∧
  ∀ other, other ≠ "a" → peers (mgr w') !! other = peers (mgr seasoned) !! other.
Proof.
  split; [vm_compute; reflexivity|].
  apply (AddPeer_replaces 11 12 peerA seasoned). vm_compute. by eexists.
Defined.

(** *** [GetPeerInfo] *)

(** C10.  For a peer the manager knows, [GetPeerInfo] returns a pointer to
    a copy of the stored record: the pointer [p] it returns is none of the
    manager's, the cell behind it holds the record [info] that the cell
    behind the manager's own pointer [q] holds, and the call changes
    neither the manager nor any other cell.  Whatever the caller then
    writes through [p] lands in the copy only: the manager's cell still
    holds [info], so [GetPeerInfo] still yields the stored record (hence
    the same quality score) and [GetBestPeers] the same result. *)
Theorem GetPeerInfo_returns_copy (id : string) (w : World) :
  wf w → is_Some (peers (mgr w) !! id) →
  ∃ q p w' info,
    peers (mgr w) !! id = Some q ∧ load q (heap w) = Some info ∧
    GetPeerInfo id w = (Some p, w') ∧ load p (heap w') = Some info ∧
    (∀ id' q', peers (mgr w) !! id' = Some q' → p ≠ q') ∧
    mgr w' = mgr w ∧
    (∀ r, r ≠ p → load r (heap w') = load r (heap w)) ∧
    peerInfoOf id w = Some info ∧
    ∀ mutate : PeerInfo → PeerInfo,
      let w'' := mkWorld (store p mutate (heap w')) (mgr w') in
      load p (heap w'') = Some (mutate info) ∧
      load q (heap w'') = Some info ∧
      (∀ r, r ≠ p → load r (heap w'') = load r (heap w)) ∧
      peerInfoOf id w'' = Some info ∧
      (∀ pf sort order n, rangeOrder order w →
         GetBestPeers pf sort order n w'' = GetBestPeers pf sort order n w).
Proof.
  intros Hwf [q Hq]. destruct (Hwf id q Hq) as [Hlt [info Hinfo]].
  exists q, (next (heap w)), (mkWorld (new info (heap w)).2 (mgr w)), info.
  assert (∀ mutate r, r ≠ next (heap w) →
            cells (store (next (heap w)) mutate (new info (heap w)).2) !! r =
            cells (heap w) !! r) as Hframe.
  { intros mutate r Hr. cbn. rewrite lookup_alter_ne by done.
    by rewrite lookup_insert_ne by done. }
  split; [done|]. split; [done|]. split; [|split; [|split; [|split; [|split; [|split]]]]].
  - unfold GetPeerInfo, load. by rewrite Hq, Hinfo.
  - cbn. apply lookup_insert_eq.
  - intros id' q' Hq'. destruct (Hwf id' q' Hq') as [Hlt' _]. lia.
  - done.
  - intros r Hr. unfold load. cbn. by rewrite lookup_insert_ne.
  - by apply peerInfoOf_lookup with (p := q).
  - intros mutate w''. split; [|split; [|split; [|split]]].
    + unfold load. subst w''. cbn. rewrite lookup_alter_eq.
      by rewrite lookup_insert_eq.
    + unfold load. subst w''. cbn [heap]. rewrite Hframe by lia. done.
    + intros r Hr. unfold load. subst w''. cbn [heap]. by apply Hframe.
    + apply peerInfoOf_lookup with (p := q); [done|]. subst w''. cbn [heap].
      rewrite Hframe by lia. done.
    + intros pf sort order n Hperm. apply GetBestPeers_ext. intros id' p' Hin.
      unfold rangeOrder in Hperm. rewrite Hperm in Hin. apply elem_of_map_to_list in Hin.
      destruct (Hwf id' p' Hin) as [Hlt' _]. unfold load. subst w''. cbn [heap].
      apply Hframe. lia.
Qed.

(** Peer ["a"] of [seasoned], whose stored reputation is 0.3. *)
Lemma GetPeerInfo_returns_copy_witness :
  ∃ q p w' info,
    peers (mgr seasoned) !! "a" = Some q ∧ load q (heap seasoned) = Some info ∧
    GetPeerInfo "a" seasoned = (Some p, w') ∧ load p (heap w') = Some info ∧
    (∀ id' q', peers (mgr seasoned) !! id' = Some q' → p ≠ q') ∧
    mgr w' = mgr seasoned ∧
    (∀ r, r ≠ p → load r (heap w') = load r (heap seasoned)) ∧
    peerInfoOf "a" seasoned = Some info ∧
    ∀ mutate : PeerInfo → PeerInfo,
      let w'' := mkWorld (store p mutate (heap w')) (mgr w') in
      load p (heap w'') = Some (mutate info) ∧
      load q (heap w'') = Some info ∧
      (∀ r, r ≠ p → load r (heap w'') = load r (heap seasoned)) ∧
      peerInfoOf "a" w'' = Some info ∧
      (∀ pf sort order n, rangeOrder order seasoned →
         GetBestPeers pf sort order n w'' = GetBestPeers pf sort order n seasoned).
Proof.
  apply (GetPeerInfo_returns_copy "a" seasoned); [apply wf_seasoned|].
  vm_compute. by eexists.
Defined.

End Manager.

(** ** Reputation stays bounded *)

Section Reputation.
Import topology.















(** A NaN behaviour score passes both guards and is stored. *)
Lemma UpdateReputationBasedOnBehavior_nan :
  Reputation <$> peerInfoOf "a" (UpdateReputationBasedOnBehavior "a" nan twoPeers) = Some nan.
Proof. vm_compute. reflexivity. Qed.

End Reputation.

(** ** Sorting *)

Section Sorting.
Context {A : Type} (less : A → A → bool).

Lemma bubble_perm x l : bubble less x l ≡ₚ x :: l.
Proof.
  induction l as [|y r IH]; cbn; [done|].
  destruct (less x y); [|done]. rewrite IH. apply perm_swap.
Qed.

Lemma insertion_perm data : ∀ acc,
  fold_left (λ acc x, bubble less x acc) data acc ≡ₚ data ++ acc.
Proof.
  induction data as [|x data IH]; intros acc; cbn; [done|].
  rewrite IH, bubble_perm. by rewrite Permutation_middle.
Qed.

Lemma insertionSort_perm data : insertionSort less data ≡ₚ data.
Proof.
  unfold insertionSort. rewrite reverse_Permutation, insertion_perm.
  by rewrite app_nil_r.
Qed.

Lemma bubble_hd x y l :
  notLess less y x → HdRel (notLess less) y l → HdRel (notLess less) y (bubble less x l).
Proof.
  intros Hyx Hl. destruct l as [|z r]; cbn; [by constructor|].
  inversion_clear Hl. destruct (less x z); by constructor.
Qed.

Lemma bubble_sorted x l :
  (∀ y, y ∈ l → less x y = true → less y x = false) →
  Sorted (notLess less) l → Sorted (notLess less) (bubble less x l).
Proof.
  intros Hasym. induction 1 as [|y r Hr IH Hhd]; cbn; [by repeat constructor|].
  destruct (less x y) eqn:Hxy.
  - constructor.
    + apply IH. intros z Hz. apply Hasym. by right.
    + apply bubble_hd; [|done]. apply Hasym; [left | done].
  - repeat constructor; done.
Qed.

Lemma Sorted_snoc (R : A → A → Prop) l x :
  Sorted R l → (∀ y, last l = Some y → R y x) → Sorted R (l ++ [x]).
Proof.
  induction 1 as [|y r Hr IH Hhd]; intros Hlast; cbn; [by repeat constructor|].
  constructor.
  - apply IH. intros z Hz. apply Hlast. by destruct r.
  - destruct r as [|z r']; cbn.
    + constructor. by apply Hlast.
    + inversion_clear Hhd. by constructor.
Qed.

Lemma Sorted_reverse_flip (R : A → A → Prop) l :
  Sorted R l → Sorted (flip R) (reverse l).
Proof.
  induction 1 as [|y r Hr IH Hhd]; [constructor|].
  rewrite reverse_cons. apply Sorted_snoc; [done|]. intros z Hz.
  rewrite last_reverse in Hz. destruct r as [|z' r']; [done|].
  cbn in Hz. injection Hz as <-. by inversion_clear Hhd.
Qed.

Lemma insertion_sorted data : ∀ acc,
  (∀ a b, a ∈ data ++ acc → b ∈ data ++ acc → less a b = true → less b a = false) →
  Sorted (notLess less) acc →
  Sorted (notLess less) (fold_left (λ acc x, bubble less x acc) data acc).
Proof.
  induction data as [|x data IH]; intros acc Hasym Hacc; cbn; [done|].
  assert (data ++ bubble less x acc ≡ₚ (x :: data) ++ acc) as Hp.
  { rewrite bubble_perm. symmetry. apply Permutation_middle. }
  apply IH.
  - intros a b Ha Hb. rewrite Hp in Ha, Hb. by apply Hasym.
  - apply bubble_sorted; [|done]. intros y Hy. apply Hasym.
    + apply list_elem_of_here.
    + apply elem_of_app. by right.
Qed.

Lemma insertionSort_sorted data :
  weakOrderOn less data → Sorted (λ a b, less b a = false) (insertionSort less data).
Proof.
  intros [Hasym _]. unfold insertionSort.
  apply (Sorted_reverse_flip (notLess less)). apply insertion_sorted; [|constructor].
  intros a b. rewrite app_nil_r. apply Hasym.
Qed.

(** In a sorted list every earlier element is related to every later one,
    when the relation is transitive on the elements of the list. *)
Lemma Sorted_pairwise (R : A → A → Prop) (l : list A) :
  (∀ a b c, a ∈ l → b ∈ l → c ∈ l → R a b → R b c → R a c) →
  Sorted R l →
  ∀ i j a b, (i < j)%nat → l !! i = Some a → l !! j = Some b → R a b.
Proof.
  intros Htrans Hs.
  assert (StronglySorted R l) as Hss.
  { induction Hs as [|x l Hl IH Hhd]; [constructor|].
    assert (StronglySorted R l) as Hsl.
    { apply IH. intros a b c ???. apply Htrans; by right. }
    constructor; [done|].
    destruct Hhd as [|y l' Hxy]; [constructor|].
    apply StronglySorted_inv in Hsl as [_ Hy]. constructor; [done|].
    apply Forall_forall. intros z Hz. rewrite Forall_forall in Hy.
    apply (Htrans x y z); [left | right; left | right; by right | done | by apply Hy]. }
  clear Hs Htrans. induction Hss as [|x l Hl IH Hx]; intros i j a b Hij Hi Hj; [done|].
  destruct j as [|j]; [lia|]. cbn in Hj. destruct i as [|i].
  - cbn in Hi. injection Hi as <-. rewrite Forall_forall in Hx. apply Hx.
    by eapply list_elem_of_lookup_2.
  - cbn in Hi. apply (IH i j); [lia|done|done].
Qed.
End Sorting.

(** The insertion sort of short slices keeps the promise of [sort.Slice]. *)
Lemma insertionSort_SortsSlices {A} : SortsSlices (@insertionSort A).
Proof. intros less l. split; [apply insertionSort_perm | apply insertionSort_sorted]. Qed.

(** Among scores that are not NaN, "greater than" is an order
    [sort.Slice] accepts. *)
Lemma score_weakOrderOn (l : list (string * float)) :
  (∀ x, x ∈ l → PrimFloat.is_nan x.2 = false) →
  weakOrderOn (λ a b : string * float, (b.2 <? a.2)%float) l.
Proof.
  intros Hn. split.
  - intros a b _ _ Hab. apply ltb_key in Hab as (Hb & Ha & Hk).
    destruct (a.2 <? b.2)%float eqn:Hba; [|done].
    apply ltb_key in Hba as (_ & _ & Hk'). unfold lexlt in *. lia.
  - intros a b c Ha Hb Hc Hab Hbc.
    destruct (a.2 <? c.2)%float eqn:Hac; [|done]. exfalso.
    apply ltb_key in Hac as (_ & _ & Hk).
    apply ltb_false_le in Hab, Hbc; try (by apply Hn).
    unfold Float64.le in *. rewrite leb_key in Hab, Hbc.
    unfold lexlt, lexeq in *. lia.
Qed.

(** ** [make] *)

Lemma makeslice_true pf size cap :
  runtime.makeslice pf size cap = true ↔ 0 ≤ cap ∧ size * cap ≤ runtime.maxAlloc pf.
Proof. unfold runtime.makeslice. rewrite andb_true_iff. lia. Qed.

Lemma makeslice_false pf size cap :
  runtime.makeslice pf size cap = false ↔ cap < 0 ∨ runtime.maxAlloc pf < size * cap.
Proof. unfold runtime.makeslice. rewrite andb_false_iff. lia. Qed.

(** Every platform makes a slice for a few strings. *)
Lemma makeslice_small pf cap :
  0 ≤ cap ≤ 2 ^ 28 → runtime.makeslice pf runtime.sizeofString cap = true.
Proof.
  intros H. apply makeslice_true. pose proof (runtime.maxAlloc_min pf) as Hmin.
  apply Z.leb_le in Hmin. unfold runtime.sizeofString. lia.
Qed.

(** ** [GetBestPeers] *)

Section BestPeers.
Import topology.

Lemma peerScores_cons id p info order (w : World) :
  cells (heap w) !! p = Some info →
  peerScores ((id, p) :: order) w = (id, peerScoreOf info) :: peerScores order w.
Proof. intros H. unfold peerScores. cbn. unfold load at 1. by rewrite H. Qed.

(** The slice holds one pair per visited entry: the id and its score. *)
Lemma peerScores_spec order (w : World) :
  (∀ id p, (id, p) ∈ order → peers (mgr w) !! id = Some p) → wf w →
  (peerScores order w).*1 = order.*1 ∧
  ∀ id s, (id, s) ∈ peerScores order w →
    ∃ info, peerInfoOf id w = Some info ∧ s = peerScoreOf info.
Proof.
  intros Hin Hwf.
  induction order as [|[id p] order IH];
    [split; [done|]; intros ?? H; by apply elem_of_nil in H|].
  destruct IH as [IH1 IH2]; [intros ???; apply Hin; by right|].
  assert (peers (mgr w) !! id = Some p) as Hp by (apply Hin; left).
  destruct (Hwf id p Hp) as [_ [info Hinfo]].
  rewrite (peerScores_cons _ _ _ _ _ Hinfo). split; [cbn; by f_equal|].
  intros id' s [[= -> ->]|H]%elem_of_cons; [|by apply IH2].
  exists info. split; [|done]. by apply peerInfoOf_lookup with (p := p).
Qed.

(** C1, as amended.  [GetBestPeers(n)] panics when [n] is negative or
    when a slice of [n] strings is more than the platform allocates at
    once.  For every other [n], whatever order the map is visited in and
    whatever sort meets the contract of [sort.Slice], it returns
    min(n, number of known peers) distinct ids of known peers, and when no
    score is NaN the list is non-increasing in the score
    0.7*qualityScore + 0.3*reputation.  The order among equal scores is
    not fixed (see the counterexample). *)
Theorem GetBestPeers_sorted (pf : runtime.Platform)
    (sort_Slice : (string * float → string * float → bool) →
                  list (string * float) → list (string * float))
    (order : list (string * nat)) (n : Z) (w : World) :
  SortsSlices sort_Slice → wf w → rangeOrder order w →
  (n < 0 ∨ runtime.maxAlloc pf < 16 * n → GetBestPeers pf sort_Slice order n w = None) ∧
  (0 ≤ n → 16 * n ≤ runtime.maxAlloc pf →
   ∃ best,
     GetBestPeers pf sort_Slice order n w = Some best ∧
     Z.of_nat (length best) = Z.min n (Z.of_nat (size (peers (mgr w)))) ∧
     NoDup best ∧
     (∀ id, id ∈ best → is_Some (peerInfoOf id w)) ∧
     ((∀ id info, peerInfoOf id w = Some info → PrimFloat.is_nan (peerScoreOf info) = false) →
      ∀ i j a b ia ib, (i < j)%nat → best !! i = Some a → best !! j = Some b →
        peerInfoOf a w = Some ia → peerInfoOf b w = Some ib →
        Float64.le (peerScoreOf ib) (peerScoreOf ia))).
Proof.
  intros Hsort Hwf Hord. unfold rangeOrder in Hord.
  set (less := λ a b : string * float, (b.2 <? a.2)%float).
  set (sorted := sort_Slice less (peerScores order w)).
  assert (GetBestPeers pf sort_Slice order n w =
          if runtime.makeslice pf runtime.sizeofString n
          then Some (take (Z.to_nat n) sorted.*1) else None) as Hdef by reflexivity.
  split.
  { intros Hn. rewrite Hdef. by rewrite (proj2 (makeslice_false pf _ n)). }
  intros Hn0 Hn1. exists (take (Z.to_nat n) sorted.*1).
  split; [rewrite Hdef; by rewrite (proj2 (makeslice_true pf _ n))|].
  set (best := take (Z.to_nat n) sorted.*1).
  assert (best = take (Z.to_nat n) sorted.*1) as Hbest by reflexivity.
  destruct (Hsort less (peerScores order w)) as [Hperm Hsorted]. fold sorted in Hperm, Hsorted.
  destruct (peerScores_spec order w) as [Hids Hscore]; [|done|].
  { intros id p Hin. rewrite Hord in Hin. by apply elem_of_map_to_list. }
  assert (sorted.*1 ≡ₚ (map_to_list (peers (mgr w))).*1) as Hpids.
  { by rewrite Hperm, Hids, Hord. }
  assert (∀ id s, (id, s) ∈ sorted →
            ∃ info, peerInfoOf id w = Some info ∧ s = peerScoreOf info) as Hin.
  { intros id s H. rewrite Hperm in H. by apply Hscore. }
  split; [|split; [|split]].
  - rewrite Hbest, length_take, <- (length_map_to_list (peers (mgr w))).
    rewrite <- (length_fmap fst (map_to_list _)), <- Hpids. lia.
  - rewrite Hbest. apply (sublist_NoDup _ sorted.*1); [|apply sublist_take].
    rewrite Hpids. apply NoDup_fst_map_to_list.
  - intros id Hid. rewrite Hbest in Hid.
    apply (λ H, elem_of_sublist _ _ _ H (sublist_take _ _)) in Hid.
    apply list_elem_of_fmap in Hid as ([id' s] & -> & Hs).
    destruct (Hin _ _ Hs) as (info & Hinfo & _). cbn. by rewrite Hinfo.
  - intros Hnan i j a b ia ib Hij Ha Hb Hia Hib.
    rewrite Hbest in Ha, Hb.
    apply lookup_take_Some in Ha as [Ha _]. apply lookup_take_Some in Hb as [Hb _].
    apply list_lookup_fmap_Some in Ha as ([a' sa] & -> & Hsa).
    apply list_lookup_fmap_Some in Hb as ([b' sb] & -> & Hsb). cbn in Hia, Hib.
    destruct (Hin _ _ (list_elem_of_lookup_2 _ _ _ Hsa)) as (ia' & Hia' & ->).
    destruct (Hin _ _ (list_elem_of_lookup_2 _ _ _ Hsb)) as (ib' & Hib' & ->).
    assert (ia' = ia) as -> by congruence. assert (ib' = ib) as -> by congruence.
    assert (∀ x, x ∈ sorted → PrimFloat.is_nan x.2 = false) as Hn.
    { intros [id s] Hx. destruct (Hin _ _ Hx) as (info & Hinfo & ->). by eapply Hnan. }
    assert (weakOrderOn less (peerScores order w)) as [Hasym Htrans].
    { apply score_weakOrderOn. intros x Hx. apply Hn. by rewrite Hperm. }
    assert (∀ x y z : string * float, x ∈ sorted → y ∈ sorted → z ∈ sorted →
              less y x = false → less z y = false → less z x = false) as Htrans'.
    { intros x y z Hx Hy Hz. rewrite Hperm in Hx, Hy, Hz. by apply Htrans. }
    pose proof (Sorted_pairwise (λ x y : string * float, less y x = false) sorted
                  Htrans' (Hsorted (conj Hasym Htrans)) i j _ _ Hij Hsa Hsb) as Hle.
    cbn in Hle. apply ltb_false_le in Hle; [done| |]; by eapply Hnan.
Qed.

(** The best peers of [seasoned], where ["a"] outscores ["b"]. *)
Lemma GetBestPeers_sorted_witness :
  GetBestPeers amd64 (@insertionSort _) [("b", 1%nat); ("a", 0%nat)] 5 seasoned
    = Some ["a"; "b"] ∧
  GetBestPeers amd64 (@insertionSort _) [("b", 1%nat); ("a", 0%nat)] (2 ^ 45) seasoned
    = None ∧
  (5 < 0 ∨ runtime.maxAlloc amd64 < 16 * 5 →
   GetBestPeers amd64 (@insertionSort _) [("b", 1%nat); ("a", 0%nat)] 5 seasoned = None) ∧
  (0 ≤ 5 → 16 * 5 ≤ runtime.maxAlloc amd64 →
   ∃ best,
     GetBestPeers amd64 (@insertionSort _) [("b", 1%nat); ("a", 0%nat)] 5 seasoned
       = Some best ∧
     Z.of_nat (length best) = Z.min 5 (Z.of_nat (size (peers (mgr seasoned)))) ∧
     NoDup best ∧
     (∀ id, id ∈ best → is_Some (peerInfoOf id seasoned)) ∧
     ((∀ id info, peerInfoOf id seasoned = Some info →
         PrimFloat.is_nan (peerScoreOf info) = false) →
      ∀ i j a b ia ib, (i < j)%nat → best !! i = Some a → best !! j = Some b →
        peerInfoOf a seasoned = Some ia → peerInfoOf b seasoned = Some ib →
        Float64.le (peerScoreOf ib) (peerScoreOf ia))).
Proof.
  split; [vm_compute; reflexivity|].
  split; [vm_compute; reflexivity|].
  apply (GetBestPeers_sorted amd64 (@insertionSort _) [("b", 1%nat); ("a", 0%nat)] 5
           seasoned).
  - apply insertionSort_SortsSlices.
  - apply wf_seasoned.
  - unfold rangeOrder. vm_compute. apply perm_swap.
Defined.

(** C1 as stated fails on ties: [twoPeers] holds two peers of equal score,
    and the two orders in which the map can be visited give different
    best peers under a sort that meets the contract of [sort.Slice]. *)
Lemma GetBestPeers_tie_counterexample :
  SortsSlices (@insertionSort (string * float)) ∧
  rangeOrder [("a", 0%nat); ("b", 1%nat)] twoPeers ∧
  rangeOrder [("b", 1%nat); ("a", 0%nat)] twoPeers ∧
  GetBestPeers amd64 (@insertionSort _) [("a", 0%nat); ("b", 1%nat)] 1 twoPeers = Some ["a"] ∧
  GetBestPeers amd64 (@insertionSort _) [("b", 1%nat); ("a", 0%nat)] 1 twoPeers = Some ["b"].
Proof.
  split; [apply insertionSort_SortsSlices|].
  split; [unfold rangeOrder; vm_compute; reflexivity|].
  split; [unfold rangeOrder; vm_compute; apply perm_swap|].
  split; vm_compute; reflexivity.
Qed.

End BestPeers.

(** ** [VerifyHandshakeMessage] *)

Lemma sub64_exact a b : - 2 ^ 63 ≤ a - b < 2 ^ 63 → crypto.sub64 a b = a - b.
Proof. intros H. unfold crypto.sub64, crypto.wrap64. rewrite Z.mod_small by lia. lia. Qed.

Section HandshakeFacts.
Import crypto.
Context (L : Lib).

(** Once the key parses and the signature verifies, the verdict is that of
    the two 64-bit subtractions. *)
Lemma VerifyHandshakeMessage_timestamp_check now msg pubKey msgBytes :
  UnmarshalPublicKey L (PublicKey msg) = inl pubKey →
  json_Marshal L (mkHandshakeMessage (NodeID msg) (PublicKey msg) (Timestamp msg) []
                    (SessionKey msg)) = Some msgBytes →
  VerifySignature L msgBytes (Signature msg) pubKey = true →
  VerifyHandshakeMessage L now (Some msg) =
    if (300 <? sub64 now (Timestamp msg)) || (300 <? sub64 (Timestamp msg) now)
    then Some ErrTimestamp else None.
Proof. intros Hk Hm Hs. unfold VerifyHandshakeMessage. by rewrite Hk, Hm, Hs. Qed.

(** A message with a well-formed key, a valid signature and a timestamp
    within 300 seconds of the current time is accepted. *)
Theorem VerifyHandshakeMessage_accepts_fresh now msg pubKey msgBytes :
  UnmarshalPublicKey L (PublicKey msg) = inl pubKey →
  json_Marshal L (mkHandshakeMessage (NodeID msg) (PublicKey msg) (Timestamp msg) []
                    (SessionKey msg)) = Some msgBytes →
  VerifySignature L msgBytes (Signature msg) pubKey = true →
  int64 now → int64 (Timestamp msg) → Z.abs (now - Timestamp msg) ≤ 300 →
  VerifyHandshakeMessage L now (Some msg) = None.
Proof.
  intros Hk Hm Hs Hn Ht Hd.
  rewrite (VerifyHandshakeMessage_timestamp_check _ _ _ _ Hk Hm Hs).
  unfold int64 in *. rewrite !sub64_exact by lia.
  destruct (Z.ltb_spec 300 (now - Timestamp msg)), (Z.ltb_spec 300 (Timestamp msg - now));
    cbn; try reflexivity; lia.
Qed.

(** A message whose timestamp differs from the current time by more than
    300 seconds, and by less than 2^63, is rejected whatever its key and
    signature. *)
Theorem VerifyHandshakeMessage_rejects_stale now msg :
  int64 now → int64 (Timestamp msg) →
  300 < Z.abs (now - Timestamp msg) < 2 ^ 63 →
  VerifyHandshakeMessage L now (Some msg) ≠ None.
Proof.
  intros Hn Ht Hd. unfold VerifyHandshakeMessage, int64 in *.
  destruct (UnmarshalPublicKey L (PublicKey msg)); [|done].
  destruct (json_Marshal L _); [|done].
  destruct (negb _); [done|].
  rewrite !sub64_exact by lia.
  destruct (Z.ltb_spec 300 (now - Timestamp msg)), (Z.ltb_spec 300 (Timestamp msg - now));
    cbn; try done; lia.
Qed.

(** C4, where the code departs from it.  A message stamped exactly 2^63
    seconds before the current time is more than 300 seconds old, yet both
    subtractions wrap to [-2^63] and the message is accepted. *)
Theorem VerifyHandshakeMessage_accepts_wrapped now msg pubKey msgBytes :
  UnmarshalPublicKey L (PublicKey msg) = inl pubKey →
  json_Marshal L (mkHandshakeMessage (NodeID msg) (PublicKey msg) (Timestamp msg) []
                    (SessionKey msg)) = Some msgBytes →
  VerifySignature L msgBytes (Signature msg) pubKey = true →
  0 ≤ now < 2 ^ 63 → Timestamp msg = now - 2 ^ 63 →
  int64 (Timestamp msg) ∧ 300 < Z.abs (now - Timestamp msg) ∧
  VerifyHandshakeMessage L now (Some msg) = None.
Proof.
  intros Hk Hm Hs Hn Ht. split; [unfold int64; lia|]. split; [lia|].
  rewrite (VerifyHandshakeMessage_timestamp_check _ _ _ _ Hk Hm Hs), Ht.
  unfold sub64.
  replace (now - (now - 2 ^ 63)) with (2 ^ 63) by lia.
  replace (now - 2 ^ 63 - now) with (- 2 ^ 63) by lia.
  reflexivity.
Qed.

End HandshakeFacts.

Lemma VerifyHandshakeMessage_accepts_fresh_witness :
  crypto.VerifyHandshakeMessage trustingLib 1700000000 (Some freshMessage) = None.
Proof.
  apply (VerifyHandshakeMessage_accepts_fresh trustingLib 1700000000 freshMessage tt []);
    [reflexivity | reflexivity | reflexivity | unfold crypto.int64; lia
    | unfold crypto.int64; cbn; lia | cbn; lia].
Defined.

Lemma VerifyHandshakeMessage_rejects_stale_witness :
  crypto.VerifyHandshakeMessage trustingLib 1700000000 (Some staleMessage) ≠ None.
Proof.
  apply (VerifyHandshakeMessage_rejects_stale trustingLib 1700000000 staleMessage);
    [unfold crypto.int64; lia | unfold crypto.int64; cbn; lia | cbn; lia].
Defined.

Lemma VerifyHandshakeMessage_accepts_wrapped_witness :
  crypto.int64 (crypto.Timestamp wrappedMessage) ∧
  300 < Z.abs (1700000000 - crypto.Timestamp wrappedMessage) ∧
  crypto.VerifyHandshakeMessage trustingLib 1700000000 (Some wrappedMessage) = None.
Proof.
  apply (VerifyHandshakeMessage_accepts_wrapped trustingLib 1700000000 wrappedMessage tt []);
    [reflexivity | reflexivity | reflexivity | lia | reflexivity].
Defined.

(** ** [performSecureHandshake] *)

Section HandshakeProtocol.
Import p2p.
Context (L : crypto.Lib) (env : Env).

(** The accepting side, step by step. *)
Lemma performSecureHandshake_incoming (connection : Connection) (n : Network) :
  performSecureHandshake L env true connection (n, []) =
  match received env with
  | None => (inr ErrReceiveHandshake, (n, [EvReceive None]))
  | Some msg =>
      match crypto.VerifyHandshakeMessage L (now env) (Some msg) with
      | Some e =>
          (inr (ErrVerifyHandshake e), (n, [EvReceive (Some msg); EvVerify msg (Some e)]))
      | None =>
          let n1 := registerPeer (registration env) (crypto.NodeID msg) connection n in
          let tr := [EvReceive (Some msg); EvVerify msg None; EvRegister (crypto.NodeID msg)] in
          match created env with
          | None => (inr ErrCreateHandshake, (n1, tr ++ [EvCreate None]))
          | Some own =>
              (if written env then inl tt else inr ErrSendHandshake,
               (n1, tr ++ [EvCreate (Some own); EvSend own (written env)]))
          end
      end
  end.
Proof.
  unfold performSecureHandshake, receiveHandshakeMessage, verifyHandshake, register,
    CreateHandshakeMessage, sendHandshakeMessage, emit, update, fail,
    mbind, mret, run_bind, run_ret.
  cbn -[crypto.VerifyHandshakeMessage].
  destruct (received env) as [msg|]; [|reflexivity].
  cbn -[crypto.VerifyHandshakeMessage].
  destruct (crypto.VerifyHandshakeMessage L (now env) (Some msg)); [reflexivity|].
  cbn. destruct (created env); [|reflexivity]. cbn.
  destruct (written env); reflexivity.
Qed.

(** The dialing side, step by step. *)
Lemma performSecureHandshake_outgoing (connection : Connection) (n : Network) :
  performSecureHandshake L env false connection (n, []) =
  match created env with
  | None => (inr ErrCreateHandshake, (n, [EvCreate None]))
  | Some own =>
      if written env then
        let tr := [EvCreate (Some own); EvSend own true] in
        match received env with
        | None => (inr ErrReceiveHandshake, (n, tr ++ [EvReceive None]))
        | Some msg =>
            match crypto.VerifyHandshakeMessage L (now env) (Some msg) with
            | Some e =>
                (inr (ErrVerifyHandshake e),
                 (n, tr ++ [EvReceive (Some msg); EvVerify msg (Some e)]))
            | None =>
                (inl tt,
                 (registerPeer (registration env) (crypto.NodeID msg) connection n,
                  tr ++ [EvReceive (Some msg); EvVerify msg None;
                         EvRegister (crypto.NodeID msg)]))
            end
        end
      else (inr ErrSendHandshake, (n, [EvCreate (Some own); EvSend own false]))
  end.
Proof.
  unfold performSecureHandshake, receiveHandshakeMessage, verifyHandshake, register,
    CreateHandshakeMessage, sendHandshakeMessage, emit, update, fail,
    mbind, mret, run_bind, run_ret.
  cbn -[crypto.VerifyHandshakeMessage].
  destruct (created env) as [own|]; [|reflexivity]. cbn -[crypto.VerifyHandshakeMessage].
  destruct (written env); [|reflexivity]. cbn -[crypto.VerifyHandshakeMessage].
  destruct (received env) as [msg|]; [|reflexivity]. cbn -[crypto.VerifyHandshakeMessage].
  destruct (crypto.VerifyHandshakeMessage L (now env) (Some msg)); reflexivity.
Qed.

(** C5.  In a run of [performSecureHandshake], in either orientation, a
    peer is registered only for a received message that
    [VerifyHandshakeMessage] accepted, after that verification, and the
    network is then the one [registerPeer] gives.  The accepting side sends
    its own handshake only after verifying and registering; the dialing
    side sends first and registers after receiving.  When verification
    fails nothing is registered, the network is unchanged and an error is
    returned. *)
Theorem performSecureHandshake_registers_after_verify
    (incoming : bool) (connection : Connection) (n : Network) :
  ∀ res n' tr,
    performSecureHandshake L env incoming connection (n, []) = (res, (n', tr)) →
    (∀ id, EvRegister id ∈ tr →
       ∃ msg, received env = Some msg ∧ id = crypto.NodeID msg ∧
         crypto.VerifyHandshakeMessage L (now env) (Some msg) = None ∧
         precedes (EvReceive (Some msg)) (EvVerify msg None) tr ∧
         precedes (EvVerify msg None) (EvRegister id) tr ∧
         n' = registerPeer (registration env) id connection n) ∧
    (incoming = true → ∀ m ok, EvSend m ok ∈ tr →
       ∃ msg, precedes (EvVerify msg None) (EvSend m ok) tr ∧
              precedes (EvRegister (crypto.NodeID msg)) (EvSend m ok) tr) ∧
    (incoming = false → ∀ id, EvRegister id ∈ tr →
       ∃ own, precedes (EvSend own true) (EvReceive (received env)) tr) ∧
    ((∀ msg, received env = Some msg →
        crypto.VerifyHandshakeMessage L (now env) (Some msg) ≠ None) →
     (∀ id, EvRegister id ∉ tr) ∧ n' = n ∧ ∃ e, res = inr e).
Proof.
  intros res n' tr. destruct incoming.
  - rewrite performSecureHandshake_incoming.
    destruct (received env) as [msg|] eqn:Hr;
      [destruct (crypto.VerifyHandshakeMessage L (now env) (Some msg)) as [e|] eqn:Hv;
       [|destruct (created env) as [own|] eqn:Hc]|];
      cbn -[crypto.VerifyHandshakeMessage]; intros [= <- <- <-];
      (split; [|split; [|split]]); try discriminate.
    all: try solve
      [ intros id Hin; in_trace;
        try (subst id; exists msg; repeat split; try done;
             [before [EvReceive (Some msg)]
             |before [EvReceive (Some msg); EvVerify msg None]])
      | intros _ m ok Hin; in_trace;
        try (subst; exists msg; split;
             before [EvReceive (Some msg); EvVerify msg None;
                     EvRegister (crypto.NodeID msg); EvCreate (Some own)]) ].
    all: intros Hfail;
      first [ exfalso; by apply (Hfail msg)
            | split; [intros id Hin; in_trace | split; [done | by eexists]] ].
  - rewrite performSecureHandshake_outgoing.
    destruct (created env) as [own|] eqn:Hc;
      [destruct (written env) eqn:Hw;
       [destruct (received env) as [msg|] eqn:Hr;
        [destruct (crypto.VerifyHandshakeMessage L (now env) (Some msg)) as [e|] eqn:Hv|]|]|];
      cbn -[crypto.VerifyHandshakeMessage]; intros [= <- <- <-];
      (split; [|split; [|split]]); try discriminate.
    all: try solve
      [ intros _ id Hin; in_trace;
        try (exists own; before [EvCreate (Some own); EvSend own true])
      | intros id Hin; in_trace;
        try (subst id; exists msg; repeat split; try done;
             [before [EvCreate (Some own); EvSend own true; EvReceive (Some msg)]
             |before [EvCreate (Some own); EvSend own true; EvReceive (Some msg);
                      EvVerify msg None]]) ].
    all: intros Hfail;
      first [ exfalso; by apply (Hfail msg)
            | split; [intros id Hin; in_trace | split; [done | by eexists]] ].
Qed.

End HandshakeProtocol.

(** An accepted incoming handshake from ["bob"]: the run registers him. *)
Lemma performSecureHandshake_registers_after_verify_witness :
  let r := p2p.performSecureHandshake trustingLib acceptingEnv true someConnection
             (someNetwork, []) in
  r.1 = inl tt ∧ p2p.EvRegister "bob" ∈ r.2.2 ∧
  (∀ id, p2p.EvRegister id ∈ r.2.2 →
     ∃ msg, p2p.received acceptingEnv = Some msg ∧ id = crypto.NodeID msg ∧
       crypto.VerifyHandshakeMessage trustingLib (p2p.now acceptingEnv) (Some msg) = None ∧
       precedes (p2p.EvReceive (Some msg)) (p2p.EvVerify msg None) r.2.2 ∧
       precedes (p2p.EvVerify msg None) (p2p.EvRegister id) r.2.2 ∧
       r.2.1 = p2p.registerPeer (p2p.registration acceptingEnv) id someConnection someNetwork).
Proof.
  intros r. split; [reflexivity|]. split.
  - apply list_elem_of_further, list_elem_of_further, list_elem_of_here.
  - refine (proj1 (performSecureHandshake_registers_after_verify trustingLib acceptingEnv
                     true someConnection someNetwork r.1 r.2.1 r.2.2 _)).
    vm_compute. reflexivity.
Defined.

(** ** [AddConnection] *)

(** C6, as amended.  At capacity [AddConnection] returns the capacity
    error and leaves the pool as it was.  Below capacity it succeeds and
    stores the connection under its id: the count grows by one when the id
    is new to the pool, and stays the same when the id was already there
    (the old connection is replaced). *)
Theorem AddConnection_capacity (conn : p2p.Connection) (cp : p2p.ConnectionPool) :
  (p2p.maxConnections cp ≤ p2p.ConnectionCount cp →
   p2p.AddConnection conn cp = (Some (p2p.ErrPoolAtCapacity (p2p.maxConnections cp)), cp)) ∧
  (p2p.ConnectionCount cp < p2p.maxConnections cp →
   ∃ cp', p2p.AddConnection conn cp = (None, cp') ∧
     p2p.connections cp' !! p2p.connID conn = Some conn ∧
     p2p.maxConnections cp' = p2p.maxConnections cp ∧
     p2p.ConnectionCount cp' =
       (if decide (is_Some (p2p.connections cp !! p2p.connID conn))
        then p2p.ConnectionCount cp else p2p.ConnectionCount cp + 1)).
Proof.
  unfold p2p.AddConnection, p2p.ConnectionCount.
  destruct (Z.leb_spec (p2p.maxConnections cp) (Z.of_nat (size (p2p.connections cp))));
    (split; intros Hcap; [try done; lia|try lia]).
  eexists. split; [reflexivity|]. cbn. split; [apply lookup_insert_eq|]. split; [done|].
  case_decide as Hin.
  - destruct Hin as [c Hc].
    rewrite <- (insert_delete_id (p2p.connections cp) _ _ Hc) at 2.
    rewrite <- (insert_delete_eq (p2p.connections cp)).
    rewrite !map_size_insert_None by apply lookup_delete_eq. done.
  - rewrite map_size_insert_None; [lia|]. by apply eq_None_not_Some.
Qed.

(** A pool of capacity 50, empty, then holding [someConnection]; and a
    pool of capacity 1 that holds [someConnection] and refuses
    [otherConnection]. *)
Lemma AddConnection_capacity_witness :
  let cp := p2p.NewConnectionPool 50 0 in
  let full := (p2p.AddConnection someConnection (p2p.NewConnectionPool 1 0)).2 in
  (∃ cp', p2p.AddConnection someConnection cp = (None, cp') ∧
     p2p.connections cp' !! p2p.connID someConnection = Some someConnection ∧
     p2p.maxConnections cp' = 50 ∧
     p2p.ConnectionCount cp' = 1) ∧
  p2p.ConnectionCount full = 1 ∧
  p2p.AddConnection otherConnection full = (Some (p2p.ErrPoolAtCapacity 1), full).
Proof.
  intros cp full. split; [|split; [reflexivity|]].
  - exact (proj2 (AddConnection_capacity someConnection cp) ltac:(vm_compute; reflexivity)).
  - exact (proj1 (AddConnection_capacity otherConnection full)
             ltac:(vm_compute; intros H; discriminate H)).
Defined.

(** C6 as stated fails below capacity: adding a connection whose id the
    pool already holds succeeds and the count stays at one. *)
Lemma AddConnection_duplicate_counterexample :
  let cp := (p2p.AddConnection someConnection (p2p.NewConnectionPool 50 0)).2 in
  p2p.ConnectionCount cp = 1 ∧ p2p.maxConnections cp = 50 ∧
  (p2p.AddConnection someConnection cp).1 = None ∧
  p2p.ConnectionCount (p2p.AddConnection someConnection cp).2 = 1.
Proof. vm_compute. repeat split. Qed.

(** ** [Validate] *)

Lemma isEmpty_spec s : p2p.isEmpty s = true ↔ s = "".
Proof. destruct s; cbn; split; congruence. Qed.

(** C7.  [Validate] returns an error exactly when the type, the id or the
    sender of the message is the empty string; when all three are
    non-empty it returns nil. *)
Theorem Validate_fails_iff (m : p2p.Message) :
  (p2p.Validate m ≠ None ↔ p2p.Type_ m = "" ∨ p2p.ID m = "" ∨ p2p.Sender m = "") ∧
  (p2p.Type_ m ≠ "" → p2p.ID m ≠ "" → p2p.Sender m ≠ "" → p2p.Validate m = None).
Proof.
  unfold p2p.Validate.
  destruct (p2p.isEmpty (p2p.Type_ m)) eqn:Ht, (p2p.isEmpty (p2p.ID m)) eqn:Hi,
    (p2p.isEmpty (p2p.Sender m)) eqn:Hs;
    repeat match goal with
    | H : p2p.isEmpty _ = true |- _ => apply isEmpty_spec in H
    | H : p2p.isEmpty ?s = false |- _ =>
        assert (s ≠ "") by (intros E; apply isEmpty_spec in E; congruence); clear H
    end; split; try split; intros; try congruence; try tauto; try (intros ?; congruence).
Qed.

(** ** [Serialize] and [DeserializeMessage] *)

Lemma coerceFrom_valid s :
  ∀ skip, p2p.validFrom skip s = true → p2p.coerceFrom skip s = s.
Proof.
  induction s as [|c r IH]; intros skip H; [reflexivity|].
  destruct skip as [|k]; cbn [p2p.validFrom p2p.coerceFrom] in *.
  - destruct (p2p.runeSize (String c r)); [|discriminate]. f_equal. by apply IH.
  - f_equal. by apply IH.
Qed.

(** The encoder leaves a valid UTF-8 string as it is. *)
Lemma toValidUTF8_valid s : p2p.ValidString s = true → p2p.toValidUTF8 s = s.
Proof. apply coerceFrom_valid. Qed.

(** Induction on a document, through its arrays and objects. *)
Lemma json_nested_ind (P : p2p.json → Prop) :
  P p2p.JNull → (∀ b, P (p2p.JBool b)) → (∀ z, P (p2p.JInt z)) →
  (∀ f, P (p2p.JFloat f)) → (∀ s, P (p2p.JString s)) →
  (∀ l, Forall P l → P (p2p.JArray l)) →
  (∀ kvs, Forall (λ kv, P kv.2) kvs → P (p2p.JObject kvs)) →
  ∀ j, P j.
Proof.
  intros Hn Hb Hi Hf Hs Ha Ho. fix IH 1.
  intros [| b | z | f | s | l | kvs];
    [apply Hn | apply Hb | apply Hi | apply Hf | apply Hs | apply Ha | apply Ho].
  - induction l as [|x l IHl]; constructor; [apply IH | exact IHl].
  - induction kvs as [|[k v] kvs IHl]; constructor; [apply IH | exact IHl].
Qed.

Lemma depth_nonneg j : 0 ≤ p2p.depth j.
Proof.
  assert (∀ l : list Z, 0 ≤ foldr Z.max 0 l) as Hmax.
  { induction l as [|x l IHl]; cbn; lia. }
  destruct j as [| | | | | l | kvs]; cbn; try lia.
  - specialize (Hmax (p2p.depth <$> l)). lia.
  - specialize (Hmax ((λ kv, p2p.depth kv.2) <$> kvs)). lia.
Qed.

(** An object is stored into an [interface{}] when each of its values is. *)
Lemma unmarshal_object_is_Some (kvs : list (string * p2p.json)) :
  ∀ acc : option (list (string * p2p.GoValue)),
    is_Some (foldl (λ acc kv, m ← acc; v ← p2p.unmarshalValue kv.2;
                              Some (p2p.mapAssign kv.1 v m)) acc kvs) ↔
    is_Some acc ∧ Forall (λ kv, is_Some (p2p.unmarshalValue kv.2)) kvs.
Proof.
  induction kvs as [|[k v] kvs IH]; intros acc; cbn [foldl].
  - split; [intros H; by split|by intros [H _]].
  - rewrite IH, Forall_cons. cbn [fst snd].
    destruct acc as [m|]; cbn.
    + destruct (p2p.unmarshalValue v) as [x|]; cbn.
      * split; [intros [_ H]; repeat split; [by eexists|by eexists|done]|].
        intros [_ [_ H]]. split; [by eexists|done].
      * split; [intros [[? [=]] _]|intros [_ [[? [=]] _]]].
    + split; intros [[? [=]] _].
Qed.

(** Storing a document into an [interface{}] fails exactly when one of
    its integers is beyond the range of [float64]. *)
Lemma unmarshalValue_is_Some j : is_Some (p2p.unmarshalValue j) ↔ numbersFit j = true.
Proof.
  induction j as [| b | z | f | s | l IH | kvs IH] using json_nested_ind;
    cbn [p2p.unmarshalValue numbersFit];
    try (split; [done|by eexists]).
  - unfold p2p.convertNumber. destruct (PrimFloat.is_infinity (Float64.of_Z z)); cbn.
    + split; [intros [? [=]]|done].
    + split; [done|by eexists].
  - rewrite fmap_is_Some, mapM_is_Some, forallb_forall, Forall_forall.
    rewrite Forall_forall in IH.
    split; intros H x Hx.
    + apply IH; [by apply list_elem_of_In|]. apply H. by apply list_elem_of_In.
    + apply IH; [done|]. apply H. by apply list_elem_of_In.
  - rewrite fmap_is_Some, unmarshal_object_is_Some, forallb_forall, Forall_forall.
    rewrite Forall_forall in IH.
    split.
    + intros [_ H] x Hx. apply IH; [by apply list_elem_of_In|]. apply H. by apply list_elem_of_In.
    + intros H. split; [by eexists|]. intros x Hx. apply IH; [done|]. apply H.
      by apply list_elem_of_In.
Qed.

Lemma unmarshalValue_None j : p2p.unmarshalValue j = None ↔ numbersFit j = false.
Proof.
  pose proof (unmarshalValue_is_Some j) as H.
  destruct (p2p.unmarshalValue j) as [v|], (numbersFit j); split; try done.
  - intros _. assert (false = true) by (apply H; by eexists). done.
  - intros _. by destruct (proj2 H eq_refl).
Qed.

Lemma depth_envelope type id sender ts payload :
  p2p.depth (envelope type id sender ts payload) = 1 + p2p.depth payload.
Proof. pose proof (depth_nonneg payload). cbn. lia. Qed.

Lemma marshalValue_nestedSlices n :
  p2p.marshalValue (nestedSlices n) = Some (nestedArrays n).
Proof.
  induction n as [|n IH]; [done|].
  change (nestedSlices (S n)) with (p2p.GoSlice [nestedSlices n]).
  change (nestedArrays (S n)) with (p2p.JArray [nestedArrays n]).
  cbn. by rewrite IH.
Qed.

Lemma depth_nestedArrays n : p2p.depth (nestedArrays n) = Z.of_nat n.
Proof.
  induction n as [|n IH]; [done|].
  change (nestedArrays (S n)) with (p2p.JArray [nestedArrays n]).
  cbn [p2p.depth fmap list_fmap foldr]. rewrite IH. lia.
Qed.

Section RoundTrip.
Import p2p.
Context (time_MarshalJSON : Z → option string) (time_UnmarshalJSON : string → option Z).

(** What [Serialize] returns, and what [DeserializeMessage] makes of it. *)
Lemma Serialize_envelope (m : Message) ts payload :
  time_MarshalJSON (Timestamp m) = Some ts → marshalValue (Payload m) = Some payload →
  Serialize time_MarshalJSON m =
    inl (envelope (toValidUTF8 (Type_ m)) (toValidUTF8 (ID m)) (toValidUTF8 (Sender m))
           ts payload).
Proof. intros Hts Hp. unfold Serialize. by rewrite Hts, Hp. Qed.

Lemma Deserialize_envelope type id sender ts payload :
  DeserializeMessage time_UnmarshalJSON (envelope type id sender ts payload) =
    if maxNestingDepth <=? depth payload then inr ErrUnmarshal
    else
      match time_UnmarshalJSON ts with
      | None => inr ErrUnmarshal
      | Some t =>
          match unmarshalValue payload with
          | Some v => inl (mkMessage type id sender t v)
          | None => inr ErrUnmarshal
          end
      end.
Proof.
  unfold DeserializeMessage. rewrite depth_envelope.
  destruct (Z.ltb_spec maxNestingDepth (1 + depth payload)),
           (Z.leb_spec maxNestingDepth (depth payload)); try lia; [done|].
  unfold envelope. cbn -[unmarshalValue].
  destruct (time_UnmarshalJSON ts); cbn -[unmarshalValue]; [|done].
  by destruct (unmarshalValue payload).
Qed.

(** C8, as amended.  A valid message whose type, id and sender are valid
    UTF-8, whose timestamp [time.Time] can encode and whose payload
    [encoding/json] can encode is serialized.  When [time.Time] decodes
    the timestamp again, the payload nests fewer than 10000 arrays and
    objects and every integer in it is within the range of [float64],
    [DeserializeMessage] of the result succeeds, and the message obtained
    has the type, id and sender of the original.  When one of the three
    fails, so does [DeserializeMessage]. *)
Theorem Deserialize_Serialize (m : Message) (ts : string) (payload : json) :
  Validate m = None →
  ValidString (Type_ m) = true → ValidString (ID m) = true → ValidString (Sender m) = true →
  time_MarshalJSON (Timestamp m) = Some ts →
  marshalValue (Payload m) = Some payload →
  ∃ data,
    Serialize time_MarshalJSON m = inl data ∧
    (is_Some (time_UnmarshalJSON ts) → depth payload < maxNestingDepth →
     numbersFit payload = true →
     ∃ m', DeserializeMessage time_UnmarshalJSON data = inl m' ∧ sameEnvelope m m') ∧
    (time_UnmarshalJSON ts = None ∨ maxNestingDepth ≤ depth payload ∨
     numbersFit payload = false →
     DeserializeMessage time_UnmarshalJSON data = inr ErrUnmarshal).
Proof.
  intros _ Ht Hi Hs Hts Hp.
  eexists. split; [by apply Serialize_envelope|].
  rewrite !toValidUTF8_valid by assumption. rewrite Deserialize_envelope.
  split.
  - intros [t' Ht'] Hdepth Hfit. apply unmarshalValue_is_Some in Hfit as [v Hv].
    destruct (Z.leb_spec maxNestingDepth (depth payload)); [lia|].
    rewrite Ht', Hv. eexists. split; [done|]. by repeat split.
  - intros Hfail. destruct (Z.leb_spec maxNestingDepth (depth payload)); [done|].
    destruct (time_UnmarshalJSON ts); [|done].
    destruct Hfail as [?|[?|Hfit]]; [done|lia|].
    apply unmarshalValue_None in Hfit. by rewrite Hfit.
Qed.

End RoundTrip.

(** The round trip of [helloMessage]. *)
Lemma Deserialize_Serialize_witness :
  ∃ data m',
    p2p.Serialize (λ _, Some "2026-01-01T00:00:00Z") helloMessage = inl data ∧
    p2p.DeserializeMessage (λ _, Some 0) data = inl m' ∧
    sameEnvelope helloMessage m'.
Proof.
  destruct (Deserialize_Serialize (λ _, Some "2026-01-01T00:00:00Z") (λ _, Some 0)
              helloMessage "2026-01-01T00:00:00Z" (p2p.JString "hi")
              eq_refl eq_refl eq_refl eq_refl eq_refl eq_refl) as (data & Hs & Hok & _).
  destruct Hok as (m' & Hd & He); [by eexists|reflexivity|reflexivity|].
  by exists data, m'.
Defined.

(** C8 as stated fails for valid messages.  One whose payload is a
    channel cannot be serialized, and one whose id is the byte 0xFF comes
    back with another id, whatever the time codec.  One whose payload
    nests 10000 slices, and one whose payload is the integer [10^400], are
    serialized, and [DeserializeMessage] refuses the result. *)
Lemma Deserialize_Serialize_counterexample :
  (p2p.Validate chanMessage = None ∧
   ¬ ∃ tm tu data m', p2p.Serialize tm chanMessage = inl data ∧
                      p2p.DeserializeMessage tu data = inl m') ∧
  (p2p.Validate badMessage = None ∧
   ¬ ∃ tm tu data m', p2p.Serialize tm badMessage = inl data ∧
                      p2p.DeserializeMessage tu data = inl m' ∧ sameEnvelope badMessage m') ∧
  (p2p.Validate deepMessage = None ∧
   ∀ tm ts, tm 0 = Some ts →
     ∃ data, p2p.Serialize tm deepMessage = inl data ∧
             ∀ tu, p2p.DeserializeMessage tu data = inr p2p.ErrUnmarshal) ∧
  (p2p.Validate bigMessage = None ∧
   ∀ tm ts, tm 0 = Some ts →
     ∃ data, p2p.Serialize tm bigMessage = inl data ∧
             ∀ tu, p2p.DeserializeMessage tu data = inr p2p.ErrUnmarshal).
Proof.
  split; [|split; [|split]]; (split; [reflexivity|]).
  - intros (tm & tu & data & m' & H & _). unfold p2p.Serialize in H. cbn in H.
    destruct (tm 0); discriminate.
  - intros (tm & tu & data & m' & H & H' & _ & Hid & _). unfold p2p.Serialize in H. cbn in H.
    destruct (tm 0) as [ts|]; [|discriminate]. injection H as <-.
    vm_compute in H'. destruct (tu ts); [|discriminate]. injection H' as <-.
    vm_compute in Hid. discriminate.
  - intros tm ts Hts. eexists. split.
    + apply (Serialize_envelope tm deepMessage ts); [done|]. apply marshalValue_nestedSlices.
    + intros tu. rewrite Deserialize_envelope, depth_nestedArrays, Z2Nat.id by done.
      reflexivity.
  - intros tm ts Hts. eexists. split.
    + by apply (Serialize_envelope tm bigMessage ts).
    + intros tu. rewrite Deserialize_envelope. cbn -[p2p.unmarshalValue].
      destruct (tu ts); [|done]. reflexivity.
Qed.


(* ================================================================= *)
(** * Further properties *)

(** ** The topology manager: what every reachable state satisfies *)

Section ManagerStates.
Import topology.

Lemma Sound_empty n : Sound (emptyWorld n).
Proof.
  split; [apply wf_empty|]. split; [|split; [done|]].
  - intros id1 id2 p H. cbn in H. by rewrite lookup_empty in H.
  - intros id p info H. cbn in H. by rewrite lookup_empty in H.
Qed.

(** A store that keeps the cell connected. *)
Lemma Sound_store (w : World) p f :
  (∀ info, Connected (f info) = Connected info) →
  Sound w → Sound (mkWorld (store p f (heap w)) (mgr w)).
Proof.
  intros Hf (Hwf & Hinj & Hmesh & Hconn). split; [|split; [done|split; [done|]]].
  - intros id q Hq. destruct (Hwf id q Hq) as [Hlt [info Hinfo]]. cbn. split; [done|].
    rewrite lookup_alter. case_decide; subst; rewrite Hinfo; by eexists.
  - intros id q info Hq. cbn. rewrite lookup_alter. case_decide as Hpq.
    + subst q. destruct (cells (heap w) !! p) as [info0|] eqn:H0; [|done].
      cbn. intros [= <-]. rewrite Hf. by eapply Hconn.
    + intros Hc. by eapply Hconn.
Qed.

Lemma Sound_new (w : World) info : Sound w → Sound (mkWorld (new info (heap w)).2 (mgr w)).
Proof.
  intros (Hwf & Hinj & Hmesh & Hconn). split; [|split; [done|split; [done|]]].
  - intros id q Hq. destruct (Hwf id q Hq) as [Hlt Hs]. cbn. split; [lia|].
    by rewrite lookup_insert_ne by lia.
  - intros id q info' Hq. destruct (Hwf id q Hq) as [Hlt _]. cbn.
    rewrite lookup_insert_ne by lia. intros Hc. by eapply Hconn.
Qed.

Lemma Sound_AddPeer now1 now2 peer w : Sound w → Sound (AddPeer now1 now2 peer w).
Proof.
  intros (Hwf & Hinj & Hmesh & Hconn). split; [|split; [|split; [done|]]].
  - intros id q. cbn. rewrite lookup_insert. case_decide.
    + intros [= <-]. split; [lia|]. rewrite lookup_insert_eq. by eexists.
    + intros Hq. destruct (Hwf id q Hq) as [Hlt Hs]. split; [lia|].
      by rewrite lookup_insert_ne by lia.
  - intros id1 id2 q. cbn. rewrite !lookup_insert.
    repeat case_decide; try congruence.
    + intros [= <-] Hq. destruct (Hwf id2 _ Hq). lia.
    + intros Hq [= <-]. destruct (Hwf id1 _ Hq). lia.
    + apply Hinj.
  - intros id q info. cbn. rewrite lookup_insert. case_decide.
    + intros [= <-]. rewrite lookup_insert_eq. by intros [= <-].
    + intros Hq. destruct (Hwf id q Hq) as [Hlt _].
      rewrite lookup_insert_ne by lia. intros Hc. by eapply Hconn.
Qed.

Lemma Sound_RemovePeer id w : Sound w → Sound (RemovePeer id w).
Proof.
  intros (Hwf & Hinj & Hmesh & Hconn). split; [|split; [|split; [done|]]].
  - intros id' q. cbn. rewrite lookup_delete. case_decide; [done|]. apply Hwf.
  - intros id1 id2 q. cbn. rewrite !lookup_delete. repeat case_decide; try done. apply Hinj.
  - intros id' q info. cbn. rewrite lookup_delete. case_decide; [done|]. apply Hconn.
Qed.

Lemma Sound_GetPeerInfo id w : Sound w → Sound (GetPeerInfo id w).2.
Proof.
  intros H. unfold GetPeerInfo. destruct (peers (mgr w) !! id); [|done].
  destruct (load _ _) as [info|]; [|done]. by apply Sound_new.
Qed.

Lemma Sound_UpdatePeerReputation id r w : Sound w → Sound (UpdatePeerReputation id r w).
Proof.
  intros H. unfold UpdatePeerReputation. destruct (peers (mgr w) !! id); [|done].
  by apply Sound_store.
Qed.

Lemma Sound_Behavior id s w : Sound w → Sound (UpdateReputationBasedOnBehavior id s w).
Proof.
  intros H. unfold UpdateReputationBasedOnBehavior.
  pose proof (Sound_GetPeerInfo id w H) as H'.
  destruct (GetPeerInfo id w) as [[c|] w']; [|done]. cbn in H'.
  destruct (load c (heap w')); [|done]. by apply Sound_UpdatePeerReputation.
Qed.

Lemma Sound_Decay id r w : Sound w → Sound (DecayReputation id r w).
Proof.
  intros H. unfold DecayReputation.
  pose proof (Sound_GetPeerInfo id w H) as H'.
  destruct (GetPeerInfo id w) as [[c|] w']; [|done]. cbn in H'.
  destruct (load c (heap w')); [|done]. by apply Sound_UpdatePeerReputation.
Qed.

Lemma Sound_call w c : Sound w → Sound (call w c).
Proof.
  intros H.
  destruct c as [[n1 n2 pr|id|nw id q|id n|id|id s|id r t|id u d|id r]|id r]; cbn [call step].
  - by apply Sound_AddPeer.
  - by apply Sound_RemovePeer.
  - unfold UpdatePeerQuality. destruct (peers (mgr w) !! id); [|done]. by apply Sound_store.
  - unfold UpdatePeerLoad. destruct (peers (mgr w) !! id); [|done]. by apply Sound_store.
  - by apply Sound_GetPeerInfo.
  - by apply Sound_Behavior.
  - by apply Sound_Behavior.
  - by apply Sound_Behavior.
  - by apply Sound_Decay.
  - by apply Sound_UpdatePeerReputation.
Qed.

Lemma Sound_calls cs : ∀ w, Sound w → Sound (calls cs w).
Proof. induction cs as [|c cs IH]; intros w H; [done|]. apply IH, Sound_call, H. Qed.

Lemma Sound_reachable maxPeers cs : Sound (calls cs (emptyWorld maxPeers)).
Proof. apply Sound_calls, Sound_empty. Qed.

End ManagerStates.


Section ManagerQueries.
Import topology.

(** The entries a [range] over the map visits are entries of the map. *)
Lemma rangeOrder_lookup order (w : World) id p :
  rangeOrder order w → (id, p) ∈ order → peers (mgr w) !! id = Some p.
Proof. intros Ho Hin. rewrite Ho in Hin. by apply elem_of_map_to_list. Qed.

Lemma rangeOrder_length order (w : World) :
  rangeOrder order w → length order = size (peers (mgr w)).
Proof. intros Ho. by rewrite Ho, length_map_to_list. Qed.

Lemma GetConnectedPeers_fold (order : list (string * nat)) (w : World) (acc : list string) :
  (∀ id p, (id, p) ∈ order → ∃ info, load p (heap w) = Some info ∧ Connected info = true) →
  fold_left
    (λ peers '(id, p),
       match load p (heap w) with
       | Some info => if Connected info then peers ++ [id] else peers
       | None => peers
       end) order acc = acc ++ order.*1.
Proof.
  revert acc. induction order as [|[id p] order IH]; intros acc H; cbn.
  - by rewrite app_nil_r.
  - destruct (H id p) as (info & -> & ->); [left|].
    rewrite IH by (intros id' p' Hin; apply (H id' p'); by right). by rewrite <- app_assoc.
Qed.

Lemma add64_range a b : - 2 ^ 63 ≤ add64 a b < 2 ^ 63.
Proof. unfold add64. pose proof (Z.mod_pos_bound (a + b + 2 ^ 63) (2 ^ 64)). lia. Qed.

Lemma add64_add64 l a s : add64 (add64 l a) s = add64 l (a + s).
Proof.
  unfold add64.
  replace ((l + a + 2 ^ 63) mod 2 ^ 64 - 2 ^ 63 + s + 2 ^ 63)
    with ((l + a + 2 ^ 63) mod 2 ^ 64 + s) by lia.
  rewrite Z.add_mod_idemp_l by lia. f_equal. f_equal. lia.
Qed.

(** What the loop of [GetNetworkMetrics] counts and sums. *)
Lemma GetNetworkMetrics_loop order (w : World) :
  let m := GetNetworkMetrics order w in
  let total := Z.of_nat (size (peers (mgr w))) in
  let latency := add64 0 (foldr Z.add 0 (Latency ∘ Quality <$> infosOf order w)) in
  total_peers m = total ∧
  connected_peers m =
    Z.of_nat (length (filter (λ i, Connected i = true) (infosOf order w))) ∧
  avg_latency m = (if 0 <? total then latency ÷ total else latency) ∧
  topology_type m = GetTopologyType w ∧ max_peers m = maxPeers (mgr w).
Proof.
  unfold GetNetworkMetrics.
  match goal with |- context [fold_left ?F order ?a] => set (f := F) end.
  assert (∀ order,
            (fold_left f order (0, 0, 0.0%float)).1.1 =
              Z.of_nat (length (filter (λ i, Connected i = true) (infosOf order w))) ∧
            (fold_left f order (0, 0, 0.0%float)).1.2 =
              add64 0 (foldr Z.add 0 (Latency ∘ Quality <$> infosOf order w))) as H.
  { clear order. induction order as [|[id p] order IH] using rev_ind; [done|].
    rewrite fold_left_app. cbn [fold_left]. unfold infosOf in *. rewrite omap_app. cbn [omap].
    destruct (fold_left f order (0, 0, 0.0%float)) as [[c l] b]. cbn in IH.
    destruct IH as [-> ->]. unfold f at 1 2. cbn.
    destruct (load p (heap w)) as [info|]; cbn; [|by rewrite !app_nil_r].
    rewrite filter_app, fmap_app, foldr_app, length_app. cbn.
    split.
    - destruct (Connected info); case_decide; try done; cbn; lia.
    - rewrite add64_add64. f_equal.
      generalize (Latency ∘ Quality <$> omap (λ '(_, p0), load p0 (heap w)) order).
      intros l. cbn. induction l as [|x l IHl]; cbn; [lia|]. rewrite <- IHl. cbn. lia. }
  destruct (H order) as [Hc Hl].
  destruct (fold_left f order (0, 0, 0.0%float)) as [[c l] b]. cbn in Hc, Hl. cbn.
  subst c l. done.
Qed.

Lemma sum_Permutation (l1 l2 : list Z) : l1 ≡ₚ l2 → foldr Z.add 0 l1 = foldr Z.add 0 l2.
Proof. induction 1; cbn; lia. Qed.

(** No call of the manager or of the reputation system marks a peer as
    disconnected: in every state reached from [NewManager],
    [GetConnectedPeers] returns every known peer (in the order the map is
    visited) and [GetNetworkMetrics] counts as many connected peers as
    peers. *)
Theorem GetConnectedPeers_all (maxPeers : Z) (cs : list Call) (order : list (string * nat)) :
  let w := calls cs (emptyWorld maxPeers) in
  rangeOrder order w →
  GetConnectedPeers order w = order.*1 ∧
  GetConnectedPeers order w ≡ₚ (map_to_list (peers (mgr w))).*1 ∧
  connected_peers (GetNetworkMetrics order w) = total_peers (GetNetworkMetrics order w).
Proof.
  intros w Ho. destruct (Sound_reachable maxPeers cs) as (Hwf & _ & _ & Hconn). fold w in Hwf, Hconn.
  assert (∀ id p, (id, p) ∈ order →
            ∃ info, load p (heap w) = Some info ∧ Connected info = true) as Hall.
  { intros id p Hin. pose proof (rangeOrder_lookup _ _ _ _ Ho Hin) as Hp.
    destruct (Hwf id p Hp) as [_ [info Hinfo]]. exists info. split; [done|]. by eapply Hconn. }
  assert (GetConnectedPeers order w = order.*1) as Heq.
  { unfold GetConnectedPeers. by rewrite GetConnectedPeers_fold. }
  split; [done|]. split; [by rewrite Heq, Ho|].
  destruct (GetNetworkMetrics_loop order w) as (-> & -> & _).
  rewrite <- (rangeOrder_length _ _ Ho). f_equal.
  clear Heq Ho. induction order as [|[id p] order IH]; [done|].
  destruct (Hall id p) as (info & Hinfo & Hc); [left|].
  unfold infosOf, load in *. cbn. rewrite Hinfo. cbn.
  case_decide; [|done]. cbn. f_equal.
  apply IH. intros id' p' Hin. apply (Hall id' p'). by right.
Qed.

(** Three peers added, one removed, one rated: both remain connected. *)
Lemma GetConnectedPeers_all_witness :
  let w := calls [CallOp (OpAddPeer 1 2 peerA); CallOp (OpAddPeer 3 4 peerB);
                  CallUpdatePeerReputation "a" (-1.0); CallOp (OpRemovePeer "c")]
             (emptyWorld 10) in
  GetConnectedPeers [("b", 1%nat); ("a", 0%nat)] w = ["b"; "a"] ∧
  GetConnectedPeers [("b", 1%nat); ("a", 0%nat)] w ≡ₚ (map_to_list (peers (mgr w))).*1 ∧
  connected_peers (GetNetworkMetrics [("b", 1%nat); ("a", 0%nat)] w) =
    total_peers (GetNetworkMetrics [("b", 1%nat); ("a", 0%nat)] w).
Proof.
  apply (GetConnectedPeers_all 10
           [CallOp (OpAddPeer 1 2 peerA); CallOp (OpAddPeer 3 4 peerB);
            CallUpdatePeerReputation "a" (-1.0); CallOp (OpRemovePeer "c")]
           [("b", 1%nat); ("a", 0%nat)]).
  unfold rangeOrder. vm_compute. apply perm_swap.
Defined.

(** The counts, the average latency, the topology type and the peer limit
    that [GetNetworkMetrics] reports do not depend on the order in which
    the map is visited; the peers counted as connected are at most the
    peers known, and with no peer the average latency is the zero
    duration (nothing is divided). *)
Theorem GetNetworkMetrics_order_independent (o1 o2 : list (string * nat)) (w : World) :
  rangeOrder o1 w → rangeOrder o2 w →
  let m1 := GetNetworkMetrics o1 w in
  let m2 := GetNetworkMetrics o2 w in
  total_peers m1 = Z.of_nat (GetPeerCount w) ∧
  0 ≤ connected_peers m1 ≤ total_peers m1 ∧
  total_peers m1 = total_peers m2 ∧
  connected_peers m1 = connected_peers m2 ∧
  avg_latency m1 = avg_latency m2 ∧
  topology_type m1 = topology_type m2 ∧
  max_peers m1 = max_peers m2 ∧
  (GetPeerCount w = 0%nat → avg_latency m1 = 0 ∧ avg_bandwidth m1 = 0.0%float).
Proof.
  intros H1 H2 m1 m2.
  destruct (GetNetworkMetrics_loop o1 w) as (Ht1 & Hc1 & Hl1 & Hy1 & Hm1).
  destruct (GetNetworkMetrics_loop o2 w) as (Ht2 & Hc2 & Hl2 & Hy2 & Hm2).
  fold m1 in Ht1, Hc1, Hl1, Hy1, Hm1. fold m2 in Ht2, Hc2, Hl2, Hy2, Hm2.
  assert (o1 ≡ₚ o2) as Hp by (by rewrite H1, H2).
  assert (infosOf o1 w ≡ₚ infosOf o2 w) as Hi by (unfold infosOf; by rewrite Hp).
  split; [done|]. split.
  { rewrite Hc1, Ht1, <- (rangeOrder_length _ _ H1). split; [lia|].
    apply inj_le. etrans; [apply length_filter|].
    unfold infosOf. clear. induction o1 as [|[id p] o IH]; cbn; [lia|].
    destruct (load p (heap w)); cbn; lia. }
  split; [congruence|]. split; [by rewrite Hc1, Hc2, Hi|].
  split; [rewrite Hl1, Hl2; by rewrite (sum_Permutation _ _ (fmap_Permutation _ _ _ Hi))|].
  split; [congruence|]. split; [congruence|].
  intros H0. unfold GetPeerCount in H0.
  assert (o1 = []) as Ho1.
  { apply length_zero_iff_nil. by rewrite (rangeOrder_length _ _ H1). }
  subst m1. rewrite Ho1. unfold GetNetworkMetrics. rewrite H0. done.
Qed.

(** The two orders over [seasoned]. *)
Lemma GetNetworkMetrics_order_independent_witness :
  let m1 := GetNetworkMetrics [("a", 0%nat); ("b", 1%nat)] seasoned in
  let m2 := GetNetworkMetrics [("b", 1%nat); ("a", 0%nat)] seasoned in
  total_peers m1 = Z.of_nat (GetPeerCount seasoned) ∧
  0 ≤ connected_peers m1 ≤ total_peers m1 ∧
  total_peers m1 = total_peers m2 ∧
  connected_peers m1 = connected_peers m2 ∧
  avg_latency m1 = avg_latency m2 ∧
  topology_type m1 = topology_type m2 ∧
  max_peers m1 = max_peers m2 ∧
  (GetPeerCount seasoned = 0%nat → avg_latency m1 = 0 ∧ avg_bandwidth m1 = 0.0%float).
Proof.
  apply (GetNetworkMetrics_order_independent
           [("a", 0%nat); ("b", 1%nat)] [("b", 1%nat); ("a", 0%nat)] seasoned).
  - unfold rangeOrder. vm_compute. reflexivity.
  - unfold rangeOrder. vm_compute. apply perm_swap.
Defined.

(** In every state reached from [NewManager] the topology type follows the
    peer count alone: ["star"] up to 3 peers, ["full-mesh"] from 4 to 10,
    ["partial-mesh"] above 10. *)
Theorem GetTopologyType_thresholds (maxPeers : Z) (cs : list Call) :
  let w := calls cs (emptyWorld maxPeers) in
  let n := GetPeerCount w in
  (GetTopologyType w = "star" ↔ (n ≤ 3)%nat) ∧
  (GetTopologyType w = "full-mesh" ↔ (4 ≤ n ≤ 10)%nat) ∧
  (GetTopologyType w = "partial-mesh" ↔ (10 < n)%nat).
Proof.
  intros w n. destruct (Sound_reachable maxPeers cs) as (_ & _ & Hmesh & _). fold w in Hmesh.
  unfold GetTopologyType. rewrite Hmesh. fold (GetPeerCount w). fold n.
  destruct (Z.leb_spec (Z.of_nat n) 3), (Z.leb_spec (Z.of_nat n) 10);
    repeat split; intros; try lia; try discriminate; done.
Qed.

End ManagerQueries.


Section BroadcastPeers.
Import topology.
Context (pf : runtime.Platform)
        (sort_Slice : (string * float → string * float → bool) →
                      list (string * float) → list (string * float))
        (Hsort : SortsSlices sort_Slice).

(** Whatever [n] a slice can be made for, the ids [GetBestPeers] returns
    are the first [n] of a list that holds every known id once. *)
Lemma GetBestPeers_prefix (order : list (string * nat)) (n : Z) (w : World) :
  wf w → rangeOrder order w →
  ∃ ids, ids ≡ₚ (map_to_list (peers (mgr w))).*1 ∧
         GetBestPeers pf sort_Slice order n w =
           if runtime.makeslice pf runtime.sizeofString n
           then Some (take (Z.to_nat n) ids) else None.
Proof.
  intros Hwf Ho.
  set (less := λ a b : string * float, (b.2 <? a.2)%float).
  exists (sort_Slice less (peerScores order w)).*1. split; [|reflexivity].
  destruct (Hsort less (peerScores order w)) as [Hperm _].
  destruct (peerScores_spec order w) as [Hids _]; [|done|].
  { intros id p Hin. by eapply rangeOrder_lookup. }
  by rewrite Hperm, Hids, Ho.
Qed.

Lemma GetBestPeers_all (order : list (string * nat)) (w : World) :
  wf w → rangeOrder order w →
  16 * Z.of_nat (size (peers (mgr w))) ≤ runtime.maxAlloc pf →
  ∃ best,
    GetBestPeers pf sort_Slice order (Z.of_nat (size (peers (mgr w)))) w = Some best ∧
    best ≡ₚ (map_to_list (peers (mgr w))).*1.
Proof.
  intros Hwf Ho Hfit.
  destruct (GetBestPeers_prefix order (Z.of_nat (size (peers (mgr w)))) w Hwf Ho)
    as (ids & Hids & ->).
  rewrite (proj2 (makeslice_true pf _ _)) by (unfold runtime.sizeofString; lia).
  eexists. split; [done|].
  rewrite take_ge; [done|]. rewrite Hids, length_fmap, length_map_to_list. lia.
Qed.

(** A loop that appends the elements satisfying [keep] while fewer than
    [max] are held keeps the first [max] of them. *)
Lemma bounded_filter_fold {A} (keep : A → bool) (max : Z) (l : list A) (acc : list A) :
  0 ≤ max → Z.of_nat (length acc) ≤ max →
  fold_left (λ result x,
               if keep x && (Z.of_nat (length result) <? max) then result ++ [x] else result)
    l acc =
  acc ++ take (Z.to_nat max - length acc) (filter (λ x, keep x = true) l).
Proof.
  intros Hmax. revert acc. induction l as [|x l IH]; intros acc Hacc; cbn.
  - by rewrite take_nil, app_nil_r.
  - destruct (keep x) eqn:Hk; cbn.
    + case_decide; [|done]. destruct (Z.ltb_spec (Z.of_nat (length acc)) max).
      * rewrite IH by (rewrite length_app; cbn; lia).
        rewrite <- app_assoc. f_equal. rewrite length_app. cbn.
        destruct (Z.to_nat max - length acc)%nat as [|k] eqn:Hd; [lia|].
        cbn. do 2 f_equal. lia.
      * rewrite IH by done. replace (Z.to_nat max - length acc)%nat with 0%nat by lia.
        by rewrite !take_0.
    + case_decide; [congruence|]. by apply IH.
Qed.

Lemma fold_left_pointwise {A B} (f g : A → B → A) (l : list B) (a : A) :
  (∀ a x, f a x = g a x) → fold_left f l a = fold_left g l a.
Proof. intros H. revert a. induction l as [|x l IH]; intros a; cbn; [done|]. by rewrite H, IH. Qed.

(** [GetOptimalPeersForBroadcast] panics exactly when [maxPeers] is
    negative or when a slice of [maxPeers] strings, or one of as many
    strings as there are peers, is more than the platform allocates at
    once.  Otherwise it returns the first [maxPeers] of the best peers
    (all known peers, best first) that are connected and are not the
    excluded peer: at most [maxPeers] ids, without repetition, never the
    excluded one, in the order [GetBestPeers] gives them. *)
Theorem GetOptimalPeersForBroadcast_spec
    (order : list (string * nat)) (excludePeerID : string) (maxPeers : Z) (w : World) :
  wf w → rangeOrder order w →
  let known := Z.of_nat (size (peers (mgr w))) in
  (GetOptimalPeersForBroadcast pf sort_Slice order excludePeerID maxPeers w = None ↔
   runtime.maxAlloc pf < 16 * known ∨ maxPeers < 0 ∨ runtime.maxAlloc pf < 16 * maxPeers) ∧
  (16 * known ≤ runtime.maxAlloc pf → 0 ≤ maxPeers → 16 * maxPeers ≤ runtime.maxAlloc pf →
   ∃ best result,
     GetBestPeers pf sort_Slice order known w = Some best ∧
     GetOptimalPeersForBroadcast pf sort_Slice order excludePeerID maxPeers w = Some result ∧
     result = take (Z.to_nat maxPeers)
                (filter (λ id, id ≠ excludePeerID ∧ connectedIn w id = true) best) ∧
     Z.of_nat (length result) ≤ maxPeers ∧
     (excludePeerID ∉ result) ∧
     NoDup result ∧
     (result `sublist_of` best) ∧
     (∀ id, id ∈ result →
        ∃ info, peerInfoOf id w = Some info ∧ Connected info = true)).
Proof.
  intros Hwf Ho known.
  assert (GetOptimalPeersForBroadcast pf sort_Slice order excludePeerID maxPeers w = None ↔
          runtime.maxAlloc pf < 16 * known ∨ maxPeers < 0 ∨
          runtime.maxAlloc pf < 16 * maxPeers) as Hnone.
  { unfold GetOptimalPeersForBroadcast. fold known.
    destruct (GetBestPeers_prefix order known w Hwf Ho) as (ids & _ & ->).
    destruct (runtime.makeslice pf runtime.sizeofString known) eqn:Hk; cbn.
    - apply makeslice_true in Hk. unfold runtime.sizeofString in Hk.
      destruct (runtime.makeslice pf runtime.sizeofString maxPeers) eqn:Hm; cbn.
      + apply makeslice_true in Hm. unfold runtime.sizeofString in Hm.
        split; [done|lia].
      + apply makeslice_false in Hm. unfold runtime.sizeofString in Hm.
        split; [lia|done].
    - apply makeslice_false in Hk. unfold runtime.sizeofString in Hk.
      split; [lia|done]. }
  split; [done|]. clear Hnone.
  intros Hfit Hmax Hcap.
  destruct (GetBestPeers_all order w Hwf Ho Hfit) as (best & Hbest & Hall). fold known in Hbest.
  exists best. unfold GetOptimalPeersForBroadcast. fold known. rewrite Hbest. cbn.
  rewrite (proj2 (makeslice_true pf _ maxPeers)) by (unfold runtime.sizeofString; lia). cbn.
  set (keep := λ id, negb (String.eqb id excludePeerID) && connectedIn w id).
  assert (∀ id, keep id = true ↔ id ≠ excludePeerID ∧ connectedIn w id = true) as Hkeep.
  { intros id. unfold keep. rewrite andb_true_iff, negb_true_iff.
    destruct (String.eqb_spec id excludePeerID); split; intros [? ?]; split; congruence. }
  eexists. split; [done|]. split; [reflexivity|].
  assert (fold_left
            (λ result peerID,
               if negb (String.eqb peerID excludePeerID)
                  && (Z.of_nat (length result) <? maxPeers)
               then
                 match peers (mgr w) !! peerID with
                 | Some p =>
                     match load p (heap w) with
                     | Some peer => if Connected peer then result ++ [peerID] else result
                     | None => result
                     end
                 | None => result
                 end
               else result) best [] =
          take (Z.to_nat maxPeers)
            (filter (λ id, id ≠ excludePeerID ∧ connectedIn w id = true) best)) as ->.
  { rewrite (fold_left_pointwise _
               (λ result x, if keep x && (Z.of_nat (length result) <? maxPeers)
                            then result ++ [x] else result)).
    - rewrite bounded_filter_fold by (cbn; lia). cbn. rewrite Nat.sub_0_r. f_equal.
      apply list_filter_iff. intros id. apply Hkeep.
    - intros result id. unfold keep, connectedIn.
      destruct (negb (String.eqb id excludePeerID)), (Z.of_nat (length result) <? maxPeers);
        cbn; try done; try by rewrite andb_false_r.
      all: destruct (peers (mgr w) !! id) as [p|]; cbn; try done.
      all: destruct (load p (heap w)) as [info|]; cbn; try done.
      all: destruct (Connected info); cbn; done. }
  set (kept := filter (λ id, id ≠ excludePeerID ∧ connectedIn w id = true) best).
  assert (NoDup best) as Hnd.
  { rewrite Hall. apply NoDup_fst_map_to_list. }
  assert (take (Z.to_nat maxPeers) kept `sublist_of` best) as Hsub.
  { etrans; [apply sublist_take|]. apply sublist_filter. }
  split; [done|]. split; [rewrite length_take; lia|].
  split; [|split; [|split; [done|]]].
  - intros Hin. apply (λ H, elem_of_sublist _ _ _ H (sublist_take _ _)) in Hin.
    apply list_elem_of_filter in Hin as [[Hne _] _]. done.
  - by apply (sublist_NoDup _ best).
  - intros id Hin. apply (λ H, elem_of_sublist _ _ _ H (sublist_take _ _)) in Hin.
    apply list_elem_of_filter in Hin as [[_ Hc] _]. unfold connectedIn in Hc.
    destruct (peers (mgr w) !! id) as [p|] eqn:Hp; [|done].
    destruct (load p (heap w)) as [info|] eqn:Hl; [|done].
    exists info. split; [|done]. by apply peerInfoOf_lookup with (p := p).
Qed.

(** With ten peers or fewer, [GetTrustedPeers] returns every known peer
    whatever the threshold and whatever the peers' reputations: the
    threshold is not read. *)
Theorem GetTrustedPeers_ignores_threshold
    (order : list (string * nat)) (threshold : float) (w : World) :
  wf w → rangeOrder order w → (size (peers (mgr w)) ≤ 10)%nat →
  ∃ trusted,
    GetTrustedPeers pf sort_Slice order threshold w = Some trusted ∧
    length trusted = size (peers (mgr w)) ∧
    ∀ id, is_Some (peers (mgr w) !! id) → id ∈ trusted.
Proof.
  intros Hwf Ho Hsize. unfold GetTrustedPeers.
  destruct (GetBestPeers_prefix order 10 w Hwf Ho) as (ids & Hids & ->).
  rewrite makeslice_small by lia.
  assert (length ids = size (peers (mgr w))) as Hlen.
  { by rewrite Hids, length_fmap, length_map_to_list. }
  eexists. split; [done|].
  rewrite take_ge by lia. split; [done|].
  intros id [p Hp]. rewrite Hids. apply list_elem_of_fmap. exists (id, p).
  split; [done|]. by apply elem_of_map_to_list.
Qed.

End BroadcastPeers.

(** The best peers of [seasoned] for a broadcast that ["a"] started; a
    broadcast to at most [2^45] peers panics. *)
Lemma GetOptimalPeersForBroadcast_spec_witness :
  topology.GetOptimalPeersForBroadcast amd64 (@insertionSort _)
    [("a", 0%nat); ("b", 1%nat)] "a" 5 seasoned = Some ["b"] ∧
  topology.GetOptimalPeersForBroadcast amd64 (@insertionSort _)
    [("a", 0%nat); ("b", 1%nat)] "a" (2 ^ 45) seasoned = None ∧
  let known := Z.of_nat (size (topology.peers (topology.mgr seasoned))) in
  (topology.GetOptimalPeersForBroadcast amd64 (@insertionSort _)
     [("a", 0%nat); ("b", 1%nat)] "a" 5 seasoned = None ↔
   runtime.maxAlloc amd64 < 16 * known ∨ 5 < 0 ∨ runtime.maxAlloc amd64 < 16 * 5) ∧
  (16 * known ≤ runtime.maxAlloc amd64 → 0 ≤ 5 → 16 * 5 ≤ runtime.maxAlloc amd64 →
   ∃ best result,
     topology.GetBestPeers amd64 (@insertionSort _) [("a", 0%nat); ("b", 1%nat)] known seasoned
       = Some best ∧
     topology.GetOptimalPeersForBroadcast amd64 (@insertionSort _)
       [("a", 0%nat); ("b", 1%nat)] "a" 5 seasoned = Some result ∧
     result = take (Z.to_nat 5)
                (filter (λ id, id ≠ "a" ∧ connectedIn seasoned id = true) best) ∧
     Z.of_nat (length result) ≤ 5 ∧
     ("a" ∉ result) ∧
     NoDup result ∧
     (result `sublist_of` best) ∧
     (∀ id, id ∈ result →
        ∃ info, topology.peerInfoOf id seasoned = Some info ∧ topology.Connected info = true)).
Proof.
  split; [vm_compute; reflexivity|].
  split; [vm_compute; reflexivity|].
  apply (GetOptimalPeersForBroadcast_spec amd64 (@insertionSort _) insertionSort_SortsSlices
           [("a", 0%nat); ("b", 1%nat)] "a" 5 seasoned).
  - apply wf_seasoned.
  - unfold rangeOrder. vm_compute. reflexivity.
Defined.

(** Peer ["b"] of [seasoned] has reputation 0 and is trusted at 0.99. *)
Lemma GetTrustedPeers_ignores_threshold_witness :
  (topology.Reputation <$> topology.peerInfoOf "b" seasoned = Some 0.0%float) ∧
  ∃ trusted,
    topology.GetTrustedPeers amd64 (@insertionSort _) [("a", 0%nat); ("b", 1%nat)] 0.99
      seasoned = Some trusted ∧
    length trusted = size (topology.peers (topology.mgr seasoned)) ∧
    ∀ id, is_Some (topology.peers (topology.mgr seasoned) !! id) → id ∈ trusted.
Proof.
  split; [vm_compute; reflexivity|].
  apply (GetTrustedPeers_ignores_threshold amd64 (@insertionSort _) insertionSort_SortsSlices
           [("a", 0%nat); ("b", 1%nat)] 0.99 seasoned).
  - apply wf_seasoned.
  - unfold rangeOrder. vm_compute. reflexivity.
  - vm_compute. lia.
Defined.


Section ReputationFrame.
Import topology.

(** The rank is between 1 and 10 whatever the reputation stored and
    whatever the platform makes of the conversion to [int]; an unknown
    peer has rank 1; the peer map is not changed. *)
Theorem GetPeerRank_range (unrepresentable : float → Z) (peerID : string) (w : World) :
  1 ≤ (GetPeerRank unrepresentable peerID w).1 ≤ 10 ∧
  mgr (GetPeerRank unrepresentable peerID w).2 = mgr w ∧
  (peers (mgr w) !! peerID = None → GetPeerRank unrepresentable peerID w = (1, w)).
Proof.
  unfold GetPeerRank, GetPeerInfo.
  destruct (peers (mgr w) !! peerID) as [p|]; [|cbn; split; [lia|done]].
  destruct (load p (heap w)) as [info|]; [|cbn; split; [lia|done]].
  cbn. unfold load. cbn. rewrite lookup_insert_eq.
  set (rank := Float64.to_int _ _).
  split; [|done]. cbn.
  destruct (Z.ltb_spec rank 1); cbn; [lia|]. destruct (Z.ltb_spec 10 rank); cbn; lia.
Qed.

(** What [GetPeerInfo] reads is the cell the map points to. *)
Lemma peerInfoOf_eq id (w : World) :
  peerInfoOf id w = peers (mgr w) !! id ≫= λ p, cells (heap w) !! p.
Proof.
  unfold peerInfoOf, GetPeerInfo, load.
  destruct (peers (mgr w) !! id) as [p|]; [|done]. cbn.
  destruct (cells (heap w) !! p) as [info|] eqn:Hc; [|done]. cbn.
  by rewrite lookup_insert_eq.
Qed.

Lemma set_Reputation_same info : set_Reputation (Reputation info) info = info.
Proof. by destruct info. Qed.

Lemma onlyReputation_refl target w : onlyReputation target w w.
Proof.
  split; [done|]. intros p _. split; [done|]. intros _.
  destruct (cells (heap w) !! p) as [info|]; [|by exists 0%float].
  exists (Reputation info). cbn. by rewrite set_Reputation_same.
Qed.

Lemma onlyReputation_UpdatePeerReputation target r w :
  onlyReputation target w (UpdatePeerReputation target r w).
Proof.
  unfold UpdatePeerReputation.
  destruct (peers (mgr w) !! target) as [q|] eqn:Hq; [|apply onlyReputation_refl].
  split; [done|]. intros p _. cbn. rewrite Hq, lookup_alter. split.
  - intros Hne. case_decide; [congruence|done].
  - intros [= ->]. exists r. by case_decide.
Qed.

Lemma onlyReputation_GetPeerInfo target id (w w' : World) :
  onlyReputation target (GetPeerInfo id w).2 w' → onlyReputation target w w'.
Proof.
  unfold GetPeerInfo. destruct (peers (mgr w) !! id) as [q|]; [|done].
  destruct (load q (heap w)) as [info|]; [|done]. cbn.
  intros [Hm H]. split; [done|]. intros p Hp.
  destruct (H p) as [H1 H2]; [cbn; lia|]. cbn in H1, H2.
  rewrite lookup_insert_ne in H1, H2 by lia. done.
Qed.

Lemma onlyReputation_Behavior target s w :
  onlyReputation target w (UpdateReputationBasedOnBehavior target s w).
Proof.
  unfold UpdateReputationBasedOnBehavior. apply (onlyReputation_GetPeerInfo _ target).
  destruct (GetPeerInfo target w) as [[c|] w1]; [|apply onlyReputation_refl]. cbn.
  destruct (load c (heap w1)); [|apply onlyReputation_refl].
  apply onlyReputation_UpdatePeerReputation.
Qed.

Lemma onlyReputation_Decay target r w :
  onlyReputation target w (DecayReputation target r w).
Proof.
  unfold DecayReputation. apply (onlyReputation_GetPeerInfo _ target).
  destruct (GetPeerInfo target w) as [[c|] w1]; [|apply onlyReputation_refl]. cbn.
  destruct (load c (heap w1)); [|apply onlyReputation_refl].
  apply onlyReputation_UpdatePeerReputation.
Qed.

Lemma onlyReputation_call target c w :
  reputationTarget c = Some target → onlyReputation target w (call w c).
Proof.
  destruct c as [[n1 n2 pr|id|nw id q|id n|id|id s|id r t|id u d|id r]|id r];
    cbn [reputationTarget call step]; intros [= <-].
  - apply onlyReputation_Behavior.
  - apply onlyReputation_Behavior.
  - apply onlyReputation_Behavior.
  - apply onlyReputation_Decay.
  - apply onlyReputation_UpdatePeerReputation.
Qed.

(** A reputation update is confined to the reputation of its peer.  In a
    state reached from [NewManager], a call of the reputation system or of
    [UpdatePeerReputation] for [target] leaves the set of peers and every
    other peer's record as they were; the record of [target] changes in
    its reputation at most; and for an unknown [target] nothing that can
    be read changes. *)
Theorem reputation_update_frame
    (maxPeers : Z) (cs : list Call) (c : Call) (target : string) :
  reputationTarget c = Some target →
  let w := calls cs (emptyWorld maxPeers) in
  let w' := call w c in
  peers (mgr w') = peers (mgr w) ∧
  (∀ id, id ≠ target → peerInfoOf id w' = peerInfoOf id w) ∧
  (∀ info, peerInfoOf target w = Some info →
     ∃ r, peerInfoOf target w' = Some (set_Reputation r info)) ∧
  (peerInfoOf target w = None → peerInfoOf target w' = None).
Proof.
  intros Hc w w'. destruct (Sound_reachable maxPeers cs) as (Hwf & Hinj & _ & _).
  fold w in Hwf, Hinj.
  destruct (onlyReputation_call target c w Hc) as [Hm H]. fold w' in Hm, H.
  split; [by rewrite Hm|]. split; [|split].
  - intros id Hne. rewrite !peerInfoOf_eq, Hm.
    destruct (peers (mgr w) !! id) as [p|] eqn:Hp; [|done]. cbn.
    destruct (Hwf id p Hp) as [Hlt _]. apply (H p Hlt).
    intros Ht. apply Hne. by eapply Hinj.
  - intros info. rewrite !peerInfoOf_eq, Hm.
    destruct (peers (mgr w) !! target) as [p|] eqn:Hp; [|done]. cbn. intros Hi.
    destruct (Hwf target p Hp) as [Hlt _].
    destruct (H p Hlt) as [_ [r Hr]]; [done|]. exists r. by rewrite Hr, Hi.
  - rewrite !peerInfoOf_eq, Hm.
    destruct (peers (mgr w) !! target) as [p|] eqn:Hp; [|done]. cbn. intros Hi.
    destruct (Hwf target p Hp) as [_ [info Hinfo]]. congruence.
Qed.

End ReputationFrame.

(** A behaviour report on ["a"] among two peers. *)
Lemma reputation_update_frame_witness :
  let w := calls [CallOp (OpAddPeer 1 2 peerA); CallOp (OpAddPeer 3 4 peerB)] (emptyWorld 10) in
  let w' := call w (CallOp (OpBehavior "a" 1.0)) in
  topology.peers (topology.mgr w') = topology.peers (topology.mgr w) ∧
  (∀ id, id ≠ "a" → topology.peerInfoOf id w' = topology.peerInfoOf id w) ∧
  (∀ info, topology.peerInfoOf "a" w = Some info →
     ∃ r, topology.peerInfoOf "a" w' = Some (topology.set_Reputation r info)) ∧
  (topology.peerInfoOf "a" w = None → topology.peerInfoOf "a" w' = None).
Proof.
  apply (reputation_update_frame 10
           [CallOp (OpAddPeer 1 2 peerA); CallOp (OpAddPeer 3 4 peerB)]
           (CallOp (OpBehavior "a" 1.0)) "a").
  reflexivity.
Defined.


Section RouterCache.
Import topology.
Context (pf : runtime.Platform)
        (sort_Slice : (string * float → string * float → bool) →
                      list (string * float) → list (string * float)).

Lemma directRoute_AddPeer now1 now2 (peer : Peer) (w : World) :
  (directRoute (peerID peer) (AddPeer now1 now2 peer w)).1 = [peerID peer].
Proof.
  unfold directRoute, GetPeerInfo, AddPeer, load. cbn.
  by rewrite lookup_insert_eq, lookup_insert_eq.
Qed.

Lemma directRoute_unknown target (w : World) :
  peers (mgr w) !! target = None → directRoute target w = ([], w).
Proof. intros H. unfold directRoute, GetPeerInfo. by rewrite H. Qed.

(** The router's strategies never panic: they ask [GetBestPeers] for
    three peers or two. *)
Lemma strategy_returns (order : list (string * nat)) (target : string) (r : Router)
    (w : World) :
  ∃ route w1,
    (if strategy r =? Direct then Some (directRoute target w)
     else if strategy r =? Gossip then gossipRoute pf sort_Slice order target w
     else if strategy r =? ShortestPath then shortestPathRoute pf sort_Slice order target w
     else Some (directRoute target w)) = Some (route, w1).
Proof.
  assert (∀ n, 0 ≤ n ≤ 3 → is_Some (GetBestPeers pf sort_Slice order n w)) as Hbest.
  { intros n Hn. unfold GetBestPeers. rewrite makeslice_small by lia. by eexists. }
  destruct (strategy r =? Direct); [destruct (directRoute target w); by eexists _, _|].
  destruct (strategy r =? Gossip).
  { unfold gossipRoute. destruct (Hbest 3) as [best ->]; [lia|]. by eexists _, _. }
  destruct (strategy r =? ShortestPath); [|destruct (directRoute target w); by eexists _, _].
  unfold shortestPathRoute. destruct (GetPeerInfo target w) as [[p|] w1]; [by eexists _, _|].
  assert (∀ n, 0 ≤ n ≤ 3 → is_Some (GetBestPeers pf sort_Slice order n w1)) as Hbest1.
  { intros n Hn. unfold GetBestPeers. rewrite makeslice_small by lia. by eexists. }
  destruct (Hbest1 2) as [best ->]; [lia|]. by eexists _, _.
Qed.

(** [RouteMessage] returns, and answers from its cache.  Once a target has
    been routed, a later call returns the same route whatever the manager
    has become, and changes neither the router nor the manager.  So with
    the direct strategy a target that was unknown when first routed stays
    without a route after [AddPeer] has added it, although [GetRoute]
    finds it, until [UpdateRouteCache] empties the cache. *)
Theorem RouteMessage_cached (o1 o2 : list (string * nat)) (target : string)
    (r : Router) (w w2 : World) :
  ∃ route r1 w1,
    RouteMessage pf sort_Slice o1 target r w = Some (route, r1, w1) ∧
    RouteMessage pf sort_Slice o2 target r1 w2 = Some (route, r1, w2) ∧
    (strategy r ≠ Gossip → strategy r ≠ ShortestPath →
     routeCache r !! target = None → peers (mgr w) !! target = None →
     route = [] ∧
     ∀ now1 now2 (peer : Peer), peerID peer = target →
       let w3 := AddPeer now1 now2 peer w2 in
       GetRoute target w3 = [target] ∧
       RouteMessage pf sort_Slice o2 target r1 w3 = Some ([], r1, w3) ∧
       ∃ r3 w4,
         RouteMessage pf sort_Slice o2 target (UpdateRouteCache r1) w3 =
           Some ([target], r3, w4)).
Proof.
  unfold RouteMessage at 1.
  destruct (routeCache r !! target) as [cached|] eqn:Hcache.
  - exists cached, r, w. split; [done|]. split; [|done]. unfold RouteMessage. by rewrite Hcache.
  - destruct (strategy_returns o1 target r w) as (route & w1 & Hres).
    exists route, (mkRouter (strategy r) (<[target := route]> (routeCache r))), w1.
    split; [by rewrite Hres|].
    assert (∀ w', RouteMessage pf sort_Slice o2 target
                    (mkRouter (strategy r) (<[target := route]> (routeCache r))) w' =
                  Some (route, mkRouter (strategy r) (<[target := route]> (routeCache r)), w'))
      as Hhit.
    { intros w'. unfold RouteMessage. cbn. by rewrite lookup_insert_eq. }
    split; [apply Hhit|].
    intros Hg Hs _ Hunknown.
    assert (route = []) as ->.
    { rewrite directRoute_unknown in Hres by done.
      destruct (Z.eqb_spec (strategy r) Direct); [by injection Hres|].
      destruct (Z.eqb_spec (strategy r) Gossip); [done|].
      destruct (Z.eqb_spec (strategy r) ShortestPath); [done|]. by injection Hres. }
    split; [done|]. intros now1 now2 peer <-. split; [|split].
    + unfold GetRoute, AddPeer. cbn. by rewrite lookup_insert_eq.
    + by rewrite Hhit.
    + unfold RouteMessage, UpdateRouteCache. cbn -[directRoute AddPeer]. rewrite lookup_empty.
      pose proof (directRoute_AddPeer now1 now2 peer w2) as Hd.
      destruct (directRoute (peerID peer) (AddPeer now1 now2 peer w2)) as [rt w4].
      cbn in Hd. subst rt.
      destruct (Z.eqb_spec (strategy r) Direct); [cbn; by eexists _, _|].
      destruct (Z.eqb_spec (strategy r) Gossip); [congruence|].
      destruct (Z.eqb_spec (strategy r) ShortestPath); [congruence|cbn; by eexists _, _].
Qed.

End RouterCache.

(** A direct router asked for ["b"] before ["b"] is added. *)
Lemma RouteMessage_cached_witness :
  let w := topology.AddPeer 1 2 peerA (emptyWorld 10) in
  let r := topology.NewRouter topology.Direct in
  let w3 := topology.AddPeer 3 4 peerB w in
  ∃ r1,
    topology.RouteMessage amd64 (@insertionSort _) [("a", 0%nat)] "b" r w = Some ([], r1, w) ∧
    topology.GetRoute "b" w3 = ["b"] ∧
    topology.RouteMessage amd64 (@insertionSort _) [("a", 0%nat)] "b" r1 w3
      = Some ([], r1, w3) ∧
    ∃ r3 w4,
      topology.RouteMessage amd64 (@insertionSort _) [("a", 0%nat)] "b"
        (topology.UpdateRouteCache r1) w3 = Some (["b"], r3, w4).
Proof.
  intros w r w3.
  destruct (RouteMessage_cached amd64 (@insertionSort _) [("a", 0%nat)] [("a", 0%nat)]
              "b" r w w) as (route & r1 & w1 & Hfirst & _ & Hstale).
  destruct (Hstale ltac:(discriminate) ltac:(discriminate) eq_refl eq_refl) as [-> Hlater].
  exists r1. split; [|exact (Hlater 3 4 peerB eq_refl)].
  rewrite Hfirst. vm_compute in Hfirst. by injection Hfirst as <- <-.
Defined.


(** ** The connection pool *)

Section Pool.
Import p2p.

Lemma NewConnectionPool_bounds max t :
  let cp := NewConnectionPool max t in
  0 < maxConnections cp ∧ 0 < timeout cp ∧ ConnectionCount cp = 0 ∧
  maxConnections cp = (if max <=? 0 then 50 else max) ∧
  timeout cp = (if t <=? 0 then 30 * Second else t).
Proof.
  unfold NewConnectionPool, ConnectionCount, DefaultMaxConnections, DefaultConnectionTimeout,
    Second. cbn.
  destruct (Z.leb_spec max 0), (Z.leb_spec t 0); repeat split; lia.
Qed.

(** What the deletions of [cleanInactiveConnections] leave. *)
Lemma delete_all_spec (l : list string) (cp : ConnectionPool) :
  let cp' :=
    fold_left
      (λ cp id, mkPool (maxConnections cp) (timeout cp) (delete id (connections cp)) (peers cp))
      l cp in
  maxConnections cp' = maxConnections cp ∧ timeout cp' = timeout cp ∧ peers cp' = peers cp ∧
  (∀ id, connections cp' !! id = if decide (id ∈ l) then None else connections cp !! id) ∧
  (NoDup l → (∀ id, id ∈ l → is_Some (connections cp !! id)) →
   (size (connections cp') + length l)%nat = size (connections cp)).
Proof.
  revert cp. induction l as [|x l IH]; intros cp; cbn.
  { repeat split; try done; intros; lia. }
  destruct (IH (mkPool (maxConnections cp) (timeout cp) (delete x (connections cp)) (peers cp)))
    as (Hm & Ht & Hp & Hl & Hs). cbn in *.
  split; [done|]. split; [done|]. split; [done|]. split.
  - intros id. rewrite Hl, lookup_delete.
    destruct (decide (id ∈ l)) as [Hin|Hin].
    + rewrite decide_True; [done|by right].
    + destruct (decide (x = id)) as [->|Hne].
      * rewrite decide_True; [done|by left].
      * rewrite decide_False; [done|]. intros [?|?]%elem_of_cons; congruence.
  - intros Hnd Hin. apply NoDup_cons in Hnd as [Hx Hnd].
    assert (is_Some (connections cp !! x)) as Hsx by (apply Hin; left).
    pose proof (map_size_delete_Some x (connections cp) Hsx) as Hd.
    assert (size (connections cp) ≠ 0)%nat as Hne.
    { apply map_size_ne_0_lookup. by exists x. }
    specialize (Hs Hnd). rewrite Hd in Hs. rewrite <- Nat.add_succ_comm. cbn.
    rewrite Hs; [lia|].
    intros id Hid. rewrite lookup_delete_ne; [apply Hin; by right|].
    intros ->. done.
Qed.

(** The ids the first loop of [cleanInactiveConnections] collects. *)
Lemma inactive_spec (clock : string → Z) (t : Z) (order : list (string * Connection))
    (acc : list string) :
  fold_left
    (λ inactive '(id, conn),
       if negb (IsActive (clock id) t conn) then inactive ++ [id] else inactive)
    order acc =
  acc ++ (filter (λ e, IsActive (clock e.1) t e.2 = false) order).*1.
Proof.
  revert acc. induction order as [|[id c] order IH]; intros acc; cbn.
  - by rewrite app_nil_r.
  - rewrite IH. destruct (IsActive (clock id) t c); cbn; case_decide; try done.
    cbn. by rewrite <- app_assoc.
Qed.

Lemma cleanInactiveConnections_fields clock order (cp : ConnectionPool) :
  let cp' := (cleanInactiveConnections clock order cp).2 in
  maxConnections cp' = maxConnections cp ∧ timeout cp' = timeout cp ∧ peers cp' = peers cp ∧
  ∀ id, is_Some (connections cp' !! id) → is_Some (connections cp !! id).
Proof.
  unfold cleanInactiveConnections. cbn [snd].
  match goal with |- context [fold_left ?F order []] => generalize (fold_left F order []) end.
  intros l. destruct (delete_all_spec l cp) as (Hm & Ht & Hp & Hl & _).
  repeat split; try done. intros id. rewrite Hl. case_decide; [by intros [? ?]|done].
Qed.

Lemma poolStep_invariant (cp : ConnectionPool) op :
  maxConnections (poolStep cp op) = maxConnections cp ∧
  timeout (poolStep cp op) = timeout cp ∧
  (ConnectionCount cp ≤ maxConnections cp →
   ConnectionCount (poolStep cp op) ≤ maxConnections cp).
Proof.
  destruct op as [conn|id|peer|id|clock]; cbn [poolStep].
  - unfold AddConnection, ConnectionCount.
    destruct (Z.leb_spec (maxConnections cp) (Z.of_nat (size (connections cp)))); cbn;
      [done|]. repeat split; try done. intros _.
    pose proof (map_size_insert (connID conn) conn (connections cp)) as Hs.
    destruct (connections cp !! connID conn); cbn in Hs; lia.
  - repeat split; try done. unfold ConnectionCount. cbn.
    pose proof (map_size_delete id (connections cp)) as Hs.
    destruct (connections cp !! id); cbn in Hs; lia.
  - done.
  - done.
  - destruct (cleanInactiveConnections_fields clock (map_to_list (connections cp)) cp)
      as (Hm & Ht & _ & Hsub).
    repeat split; try done. unfold ConnectionCount. intros Hle.
    etrans; [|apply Hle]. apply inj_le, map_subseteq_size, map_subseteq_spec.
    intros id c Hc. destruct (Hsub id) as [c' Hc']; [by eexists|].
    revert Hc. unfold cleanInactiveConnections. cbn [snd].
    match goal with |- context [fold_left ?F (map_to_list _) []] =>
      generalize (fold_left F (map_to_list (connections cp)) []) end.
    intros l. destruct (delete_all_spec l cp) as (_ & _ & _ & Hl & _).
    rewrite Hl. by case_decide.
Qed.

(** The pool never holds more connections than its capacity.  From
    [NewConnectionPool], after every sequence of [AddConnection],
    [RemoveConnection], [AddPeer], [RemovePeer] and
    [cleanInactiveConnections], the capacity and the timeout are the
    positive values fixed at creation (50 and 30s replace values that are
    not positive) and the connection count is within the capacity. *)
Theorem pool_within_capacity (max t : Z) (ops : list PoolOp) :
  let cp := poolRun ops (NewConnectionPool max t) in
  maxConnections cp = (if max <=? 0 then 50 else max) ∧
  timeout cp = (if t <=? 0 then 30 * Second else t) ∧
  0 < maxConnections cp ∧ 0 < timeout cp ∧
  0 ≤ ConnectionCount cp ≤ maxConnections cp.
Proof.
  intros cp.
  assert (∀ cp0, ConnectionCount cp0 ≤ maxConnections cp0 →
            maxConnections (poolRun ops cp0) = maxConnections cp0 ∧
            timeout (poolRun ops cp0) = timeout cp0 ∧
            ConnectionCount (poolRun ops cp0) ≤ maxConnections cp0) as H.
  { induction ops as [|op ops IH]; intros cp0 H0; [done|].
    change (poolRun (op :: ops) cp0) with (poolRun ops (poolStep cp0 op)).
    destruct (poolStep_invariant cp0 op) as (Hm & Ht & Hc).
    destruct (IH (poolStep cp0 op)) as (Hm' & Ht' & Hc'); [rewrite Hm; auto|].
    rewrite Hm', Ht', Hm, Ht. rewrite Hm in Hc'. done. }
  destruct (NewConnectionPool_bounds max t) as (Hm0 & Ht0 & Hc0 & Hme & Hte).
  destruct (H (NewConnectionPool max t)) as (Hm & Ht & Hc); [lia|]. fold cp in Hm, Ht, Hc.
  rewrite Hm, Ht. repeat split; try done; try lia. unfold ConnectionCount. lia.
Qed.

(** [AddConnection] and [RemoveConnection] undo each other.  Adding a
    connection whose id is new to a pool below capacity and removing it
    again gives the pool back; in between [GetConnection] finds the
    connection, afterwards it does not; and removing an id the pool does
    not hold changes nothing. *)
Theorem AddConnection_RemoveConnection (conn : Connection) (cp : ConnectionPool) :
  IsFull cp = false → GetConnection (connID conn) cp = None →
  let cp1 := (AddConnection conn cp).2 in
  (AddConnection conn cp).1 = None ∧
  GetConnection (connID conn) cp1 = Some conn ∧
  ConnectionCount cp1 = ConnectionCount cp + 1 ∧
  RemoveConnection (connID conn) cp1 = cp ∧
  GetConnection (connID conn) (RemoveConnection (connID conn) cp1) = None ∧
  RemoveConnection (connID conn) cp = cp.
Proof.
  unfold IsFull, GetConnection, AddConnection, RemoveConnection, ConnectionCount.
  intros Hfull Hnew. rewrite Hfull. cbn.
  rewrite lookup_insert_eq, delete_insert_eq, lookup_delete_eq, map_size_insert_None by done.
  rewrite !delete_id by done. destruct cp. cbn. repeat split; try done. lia.
Qed.

(** [cleanInactiveConnections] removes the connections that are inactive
    when they are tested, [time.Since(LastSeen) >= timeout], and only
    those: the connections left are the active ones, the ids closed are
    those of the inactive ones, each once, and the count drops by their
    number.  The peers of the pool are not touched, also those whose
    connection was closed. *)
Theorem cleanInactiveConnections_spec (clock : string → Z)
    (order : list (string * Connection)) (cp : ConnectionPool) :
  order ≡ₚ map_to_list (connections cp) →
  let closed := (cleanInactiveConnections clock order cp).1 in
  let cp' := (cleanInactiveConnections clock order cp).2 in
  connections cp' =
    filter (λ e, IsActive (clock e.1) (timeout cp) e.2 = true) (connections cp) ∧
  (∀ id, id ∈ closed ↔
     ∃ c, connections cp !! id = Some c ∧ IsActive (clock id) (timeout cp) c = false) ∧
  NoDup closed ∧
  ConnectionCount cp' = ConnectionCount cp - Z.of_nat (length closed) ∧
  peers cp' = peers cp ∧ maxConnections cp' = maxConnections cp ∧ timeout cp' = timeout cp.
Proof.
  intros Ho closed cp'. subst closed cp'. unfold cleanInactiveConnections. cbn [fst snd].
  rewrite inactive_spec. cbn [app].
  set (closed := (filter (λ e, IsActive (clock e.1) (timeout cp) e.2 = false) order).*1).
  assert (∀ id, id ∈ closed ↔
            ∃ c, connections cp !! id = Some c ∧ IsActive (clock id) (timeout cp) c = false)
    as Hclosed.
  { intros id. unfold closed. rewrite list_elem_of_fmap. split.
    - intros ([id' c] & -> & [Hc Hin]%list_elem_of_filter). exists c. split; [|done].
      rewrite Ho in Hin. by apply elem_of_map_to_list.
    - intros (c & Hc & Hi). exists (id, c). split; [done|]. apply list_elem_of_filter.
      split; [done|]. rewrite Ho. by apply elem_of_map_to_list. }
  assert (NoDup closed) as Hnd.
  { unfold closed. apply (sublist_NoDup _ order.*1); [|apply fmap_sublist, sublist_filter].
    rewrite Ho. apply NoDup_fst_map_to_list. }
  destruct (delete_all_spec closed cp) as (Hm & Ht & Hp & Hl & Hs).
  split; [|split; [done|split; [done|split; [|done]]]].
  - apply map_eq. intros id. rewrite Hl, map_lookup_filter.
    destruct (connections cp !! id) as [c|] eqn:Hc; cbn.
    + destruct (IsActive (clock id) (timeout cp) c) eqn:Hact.
      * rewrite decide_False; [by rewrite option_guard_True|].
        intros (c' & Hc' & Hi)%Hclosed. congruence.
      * rewrite decide_True; [by rewrite option_guard_False|]. apply Hclosed. by exists c.
    + by case_decide.
  - unfold ConnectionCount. rewrite <- Hs; [lia|done|].
    intros id (c & Hc & _)%Hclosed. by eexists.
Qed.

End Pool.

(** An empty pool of capacity 50 and [someConnection]. *)
Lemma AddConnection_RemoveConnection_witness :
  let cp := p2p.NewConnectionPool 50 0 in
  let cp1 := (p2p.AddConnection someConnection cp).2 in
  (p2p.AddConnection someConnection cp).1 = None ∧
  p2p.GetConnection (p2p.connID someConnection) cp1 = Some someConnection ∧
  p2p.ConnectionCount cp1 = p2p.ConnectionCount cp + 1 ∧
  p2p.RemoveConnection (p2p.connID someConnection) cp1 = cp ∧
  p2p.GetConnection (p2p.connID someConnection)
    (p2p.RemoveConnection (p2p.connID someConnection) cp1) = None ∧
  p2p.RemoveConnection (p2p.connID someConnection) cp = cp.
Proof.
  apply (AddConnection_RemoveConnection someConnection (p2p.NewConnectionPool 50 0));
    reflexivity.
Defined.

(** At instant 5 + 40s, with the timeout of 30s, [someConnection] (last
    seen at 5) is closed and [otherConnection] (last seen at 5 + 20s)
    stays. *)
Lemma cleanInactiveConnections_spec_witness :
  let clock := λ _ : string, 5 + 40 * p2p.Second in
  let order := map_to_list (p2p.connections twoConnections) in
  (p2p.cleanInactiveConnections clock order twoConnections).1 = ["conn_10.0.0.2:7000_1"] ∧
  let closed := (p2p.cleanInactiveConnections clock order twoConnections).1 in
  let cp' := (p2p.cleanInactiveConnections clock order twoConnections).2 in
  p2p.connections cp' =
    filter (λ e, p2p.IsActive (clock e.1) (p2p.timeout twoConnections) e.2 = true)
      (p2p.connections twoConnections) ∧
  (∀ id, id ∈ closed ↔
     ∃ c, p2p.connections twoConnections !! id = Some c ∧
          p2p.IsActive (clock id) (p2p.timeout twoConnections) c = false) ∧
  NoDup closed ∧
  p2p.ConnectionCount cp' = p2p.ConnectionCount twoConnections - Z.of_nat (length closed) ∧
  p2p.peers cp' = p2p.peers twoConnections ∧
  p2p.maxConnections cp' = p2p.maxConnections twoConnections ∧
  p2p.timeout cp' = p2p.timeout twoConnections.
Proof.
  intros clock order. split; [vm_compute; reflexivity|].
  apply (cleanInactiveConnections_spec clock order twoConnections). reflexivity.
Defined.


(** ** Handshake messages and message encryption *)

Section Crypto.
Import crypto.
Context (L : Lib).

Context (C : CryptoLib L).

(** A handshake message a node creates is one its peers accept.  When the
    libraries read back the key they write and verify the signatures made
    with the private key of the pair, the message [CreateHandshakeMessage]
    returns carries the node id and the time of its creation, and
    [VerifyHandshakeMessage] accepts it at any time within 300 seconds of
    that. *)
Theorem CreateHandshakeMessage_verifies (e : Encryptor C) (nodeID : string)
    (sessionKey : option (list Byte.byte)) (now : Z) (salt : Rand C)
    (currentTime : Z) (msg : HandshakeMessage) :
  (∀ der, x509_MarshalPKIXPublicKey C (publicKey C e) = Some der →
          UnmarshalPublicKey L (pem_EncodeToMemory C der) = inl (publicKey C e)) →
  (∀ salt hash signature,
     rsa_SignPSS C salt (privateKey C e) hash = Some signature →
     rsa_VerifyPSS L (publicKey C e) hash signature = true) →
  CreateHandshakeMessage C e nodeID sessionKey now salt = inl msg →
  int64 now → int64 currentTime → Z.abs (currentTime - now) ≤ 300 →
  NodeID msg = nodeID ∧ Timestamp msg = now ∧ Some (SessionKey msg) = sessionKey ∧
  VerifyHandshakeMessage L currentTime (Some msg) = None.
Proof.
  intros Hkey Hsig Hcreate Hn Hc Hd. unfold CreateHandshakeMessage, MarshalPublicKey in Hcreate.
  destruct (x509_MarshalPKIXPublicKey C (publicKey C e)) as [der|] eqn:Hder; [|done].
  destruct sessionKey as [sessionKey|]; [|done].
  destruct (json_Marshal L _) as [msgBytes|] eqn:Hm; [|done].
  unfold SignMessage in Hcreate.
  destruct (rsa_SignPSS C salt (privateKey C e) _) as [signature|] eqn:Hs; [|done].
  injection Hcreate as <-. cbn [NodeID Timestamp SessionKey]. repeat split.
  rewrite (VerifyHandshakeMessage_timestamp_check L _ _ (publicKey C e) msgBytes); cbn.
  - unfold int64 in *. rewrite !sub64_exact by lia.
    destruct (Z.ltb_spec 300 (currentTime - now)), (Z.ltb_spec 300 (now - currentTime));
      cbn; try done; lia.
  - by apply Hkey.
  - done.
  - unfold VerifySignature. by eapply Hsig.
Qed.

(** [EncryptMessage] and [DecryptMessage] agree on the framing.  When the
    RSA ciphertext of the recipient's key pair has the size of the private
    key, OAEP decryption undoes OAEP encryption and GCM opening undoes GCM
    sealing, the recipient decrypts what [EncryptMessage] returns to the
    plaintext, for an AES key of 16, 24 or 32 bytes and a nonce of 12. *)
Theorem DecryptMessage_EncryptMessage (recipient : Encryptor C)
    (aesKey nonce plaintext : list Byte.byte) (oaep : Rand C)
    (senderPubKey : RSAPublicKey L) (encrypted : list Byte.byte) :
  (∀ r key enc, rsa_EncryptOAEP C r (publicKey C recipient) key = Some enc →
     length enc = rsa_Size C (privateKey C recipient) ∧
     rsa_DecryptOAEP C (privateKey C recipient) enc = Some key) →
  (∀ key nonce plaintext,
     gcm_Open C key nonce (gcm_Seal C key nonce plaintext) = Some plaintext) →
  length nonce = NonceSize →
  EncryptMessage C (Some aesKey) oaep (Some nonce) plaintext (publicKey C recipient)
    = inl encrypted →
  DecryptMessage C recipient encrypted senderPubKey = inl plaintext.
Proof.
  intros Hrsa Hgcm Hnonce Henc. unfold EncryptMessage in Henc.
  destruct (rsa_EncryptOAEP C oaep (publicKey C recipient) aesKey) as [enc|] eqn:He; [|done].
  destruct (aes_NewCipher aesKey) eqn:Haes; [|done]. cbn in Henc. injection Henc as <-.
  destruct (Hrsa _ _ _ He) as [Hlen Hdec].
  unfold DecryptMessage. rewrite <- Hlen.
  rewrite take_app_length, drop_app_length, Hdec, Haes. cbn [negb].
  destruct (Nat.ltb_spec (length (enc ++ nonce ++ gcm_Seal C aesKey nonce plaintext))
              (length enc)) as [Hlt|_]; [rewrite length_app in Hlt; lia|].
  destruct (Nat.ltb_spec (length (nonce ++ gcm_Seal C aesKey nonce plaintext)) NonceSize)
    as [Hlt|_]; [rewrite length_app in Hlt; lia|].
  rewrite <- Hnonce, take_app_length, drop_app_length. by rewrite Hgcm.
Qed.

End Crypto.

(** The message [someEncryptor] creates for ["node-1"] at the instant
    1700000000 is accepted 300 seconds later. *)
Lemma CreateHandshakeMessage_verifies_witness :
  let msg := crypto.mkHandshakeMessage "node-1" [] 1700000000 [] [] in
  crypto.NodeID msg = "node-1" ∧ crypto.Timestamp msg = 1700000000 ∧
  Some (crypto.SessionKey msg) = Some [] ∧
  crypto.VerifyHandshakeMessage trustingLib 1700000300 (Some msg) = None.
Proof.
  apply (CreateHandshakeMessage_verifies trustingLib trustingCrypto someEncryptor "node-1"
           (Some []) 1700000000 tt 1700000300).
  - intros der _. reflexivity.
  - intros ???. reflexivity.
  - reflexivity.
  - unfold crypto.int64. lia.
  - unfold crypto.int64. lia.
  - lia.
Defined.

(** [somePlaintext] sealed under [someKey] for [someEncryptor]. *)
Lemma DecryptMessage_EncryptMessage_witness :
  crypto.DecryptMessage trustingCrypto someEncryptor
    (someKey ++ someNonce ++ somePlaintext) tt = inl somePlaintext.
Proof.
  apply (DecryptMessage_EncryptMessage trustingLib trustingCrypto someEncryptor
           someKey someNonce somePlaintext tt tt).
  - intros r key enc. cbn. destruct (Nat.eqb_spec (length key) 32); [|done].
    by intros [= <-].
  - reflexivity.
  - reflexivity.
  - reflexivity.
Defined.


(** ** Messages and the network *)

Section Network.
Import p2p.

(** [NewMessage] keeps the type, the sender and the payload it is given
    and makes an id that is never empty: the message it returns passes
    [Validate] exactly when the type and the sender are not empty. *)
Theorem NewMessage_valid (unixNano now : Z) (msgType sender : string) (payload : GoValue) :
  let m := NewMessage unixNano now msgType sender payload in
  Type_ m = msgType ∧ Sender m = sender ∧ Payload m = payload ∧ ID m ≠ "" ∧
  (Validate m = None ↔ msgType ≠ "" ∧ sender ≠ "").
Proof.
  intros m. subst m. unfold NewMessage, Validate. cbn.
  split; [done|]. split; [done|]. split; [done|].
  split; [destruct msgType; discriminate|].
  destruct msgType as [|c t]; cbn.
  { split; [discriminate|]. by intros [? _]. }
  destruct sender; cbn; (split; [try discriminate; done|]); [by intros [_ ?]|done].
Qed.

(** [registerPeer] enters the peer, with the connection, in the peers of
    the network and of the pool and in the topology manager.  What the
    manager then holds for the id is a new record: reputation 0.0 and the
    default quality, whatever it held before.  The connections of the
    pool and every other peer are left as they were. *)
Theorem registerPeer_registers (t : Readings) (peerID : string) (connection : Connection)
    (n : Network) :
  let n' := registerPeer t peerID connection n in
  let peer :=
    mkPeer peerID (connAddress connection) "1.0.0" (newPeer2 t) (newPeer1 t)
      (Some connection) in
  netPeers n' !! peerID = Some peer ∧
  GetPeer peerID (pool n') = Some peer ∧
  topology.peerInfoOf peerID (topologyMgr n') =
    Some (topology.mkPeerInfo peerID (connAddress connection)
            (topology.mkQuality topology.Second 1.0 0.0 (topology.Millisecond * 10)
               (addPeer2 t))
            (addPeer1 t) true 0.0 0) ∧
  connections (pool n') = connections (pool n) ∧
  nodeID n' = nodeID n ∧
  ∀ other, other ≠ peerID →
    netPeers n' !! other = netPeers n !! other ∧
    GetPeer other (pool n') = GetPeer other (pool n) ∧
    topology.peers (topology.mgr (topologyMgr n')) !! other =
      topology.peers (topology.mgr (topologyMgr n)) !! other.
Proof.
  intros n' peer. subst n' peer. unfold registerPeer, GetPeer, AddPeer, NewPeer, SetConnection.
  cbn -[topology.peerInfoOf topology.AddPeer]. rewrite !lookup_insert_eq.
  split; [done|]. split; [done|]. split.
  { apply peerInfoOf_lookup with (p := topology.next (topology.heap (topologyMgr n)));
      cbn; apply lookup_insert_eq. }
  split; [done|]. split; [done|]. intros other Hne.
  rewrite !lookup_insert_ne by done. split; [done|]. split; [done|].
  cbn. by rewrite lookup_insert_ne.
Qed.

Context (L : crypto.Lib) (env : Env).

(** On the accepting side a verified peer stays registered when the
    answer fails.  If the received handshake verifies,
    [performSecureHandshake] on an incoming connection leaves the network
    as [registerPeer] made it, also when it returns the error of a
    response that could not be created or sent. *)
Theorem performSecureHandshake_keeps_registration
    (connection : Connection) (n : Network) (msg : crypto.HandshakeMessage) :
  received env = Some msg →
  crypto.VerifyHandshakeMessage L (now env) (Some msg) = None →
  let r := performSecureHandshake L env true connection (n, []) in
  r.2.1 = registerPeer (registration env) (crypto.NodeID msg) connection n ∧
  (r.1 = inl tt ↔ is_Some (created env) ∧ written env = true) ∧
  (created env = None → r.1 = inr ErrCreateHandshake) ∧
  (is_Some (created env) → written env = false → r.1 = inr ErrSendHandshake).
Proof.
  intros Hr Hv r. subst r. rewrite performSecureHandshake_incoming, Hr, Hv.
  destruct (created env) as [own|]; cbn.
  - destruct (written env); cbn; repeat split; try done; try by eexists.
    intros [_ ?]. done.
  - repeat split; try done. intros [[? ?] _]. done.
Qed.

End Network.

(** A handshake from ["bob"] that verifies, with a write that fails. *)
Lemma performSecureHandshake_keeps_registration_witness :
  let env := p2p.mkEnv 1700000000 someReadings (Some freshMessage) (Some freshMessage) false in
  let r := p2p.performSecureHandshake trustingLib env true someConnection (someNetwork, []) in
  r.2.1 = p2p.registerPeer someReadings "bob" someConnection someNetwork ∧
  (r.1 = inl tt ↔ is_Some (Some freshMessage) ∧ false = true) ∧
  (Some freshMessage = None → r.1 = inr p2p.ErrCreateHandshake) ∧
  (is_Some (Some freshMessage) → false = false → r.1 = inr p2p.ErrSendHandshake).
Proof.
  intros env.
  apply (performSecureHandshake_keeps_registration trustingLib env someConnection someNetwork
           freshMessage); reflexivity.
Defined.


Section Broadcasting.
Import p2p.
Context (time_MarshalJSON : Z → option string)
        (json_text : json → list Byte.byte)
        (conn_Write : nat → list Byte.byte → bool).

Lemma wrapU64_add a b : monitor.wrapU64 (monitor.wrapU64 a + b) = monitor.wrapU64 (a + b).
Proof. unfold monitor.wrapU64. by rewrite Z.add_mod_idemp_l. Qed.

(** [Broadcast] writes the message, followed by a newline, to the socket
    of every peer of the pool that has a connection, in the order of the
    peers and also after a write has failed.  It returns nil exactly when
    every write succeeded, and the monitor counts one message and the
    bytes written for each write that did.  A message that cannot be
    serialized is written nowhere. *)
Theorem Broadcast_spec (order : list (string * Peer)) (msg : Message) (stats : monitor.Stats) :
  0 ≤ monitor.TotalMessagesSent stats < 2 ^ 64 →
  0 ≤ monitor.TotalBytesSent stats < 2 ^ 64 →
  let sockets := omap (λ e, Conn <$> peerConnection e.2) order in
  let r := Broadcast time_MarshalJSON json_text conn_Write order msg stats in
  (∀ doc, Serialize time_MarshalJSON msg = inl doc →
     let data := json_text doc ++ [Byte.x0a] in
     let sent := filter (λ c, conn_Write c data = true) sockets in
     r.2 = sockets ∧
     (r.1.1 = None ↔ ∀ c, c ∈ sockets → conn_Write c data = true) ∧
     monitor.TotalMessagesSent r.1.2 =
       monitor.wrapU64 (monitor.TotalMessagesSent stats + Z.of_nat (length sent)) ∧
     monitor.TotalBytesSent r.1.2 =
       monitor.wrapU64 (monitor.TotalBytesSent stats
                        + Z.of_nat (length sent) * Z.of_nat (length data))) ∧
  (∀ e, Serialize time_MarshalJSON msg = inr e →
     r.2 = [] ∧ r.1.2 = stats ∧ (r.1.1 = None ↔ sockets = [])).
Proof.
  intros Hm Hb sockets r. subst sockets r. split.
  - intros doc Hdoc data sent. subst sent.
    induction order as [|[id peer] order IH] using rev_ind.
    + cbn. unfold monitor.wrapU64. rewrite !Z.add_0_r, !Z.mod_small by lia.
      repeat split; try done. intros _ c Hc. by apply elem_of_nil in Hc.
    + unfold Broadcast in *. rewrite fold_left_app, omap_app. cbn [fold_left omap].
      match type of IH with context [fold_left ?F order ?a] =>
        destruct (fold_left F order a) as [[err st] wr] end.
      cbn [fst snd] in IH. destruct IH as (Hw & He & Hms & Hbs). cbn.
      destruct (peerConnection peer) as [conn|]; cbn; [|by rewrite !app_nil_r].
      unfold sendMessageToConn. rewrite Hdoc. fold data.
      rewrite filter_app, length_app. cbn.
      destruct (conn_Write (Conn conn) data) eqn:Hcw; cbn; rewrite Hw.
      * split; [done|]. split.
        { rewrite He. split.
          - intros H c [Hc|Hc%list_elem_of_singleton]%elem_of_app; [by apply H|by subst].
          - intros H c Hc. apply H, elem_of_app. by left. }
        case_decide; [|done]. cbn. rewrite Hms, Hbs, !wrapU64_add.
        split; f_equal; lia.
      * split; [done|]. split.
        { split; [done|]. intros H. rewrite H in Hcw; [done|]. apply elem_of_app. right.
          by apply list_elem_of_singleton. }
        case_decide; [done|]. cbn. rewrite Hms, Hbs, !Nat.add_0_r. done.
  - intros e He.
    induction order as [|[id peer] order IH] using rev_ind; [done|].
    unfold Broadcast in *. rewrite fold_left_app, omap_app. cbn [fold_left omap].
    match type of IH with context [fold_left ?F order ?a] =>
      destruct (fold_left F order a) as [[err st] wr] end.
    cbn [fst snd] in IH. destruct IH as (Hw & Hs & Hn). cbn.
    destruct (peerConnection peer) as [conn|]; cbn; [|by rewrite !app_nil_r].
    unfold sendMessageToConn. rewrite He. cbn. rewrite app_nil_r.
    split; [done|]. split; [done|]. split; [done|].
    intros H. by apply app_eq_nil in H as [_ ?].
Qed.

(** [SendMessage] fails, writing nothing, for a peer the network does not
    know and for a peer that has no connection.  A send that fails leaves
    the statistics as they were; a send that succeeds wrote to the socket
    of the peer's connection and counts one message. *)
Theorem SendMessage_outcomes (peerID : string) (msg : Message) (n : Network)
    (stats : monitor.Stats) :
  let r := SendMessage time_MarshalJSON json_text conn_Write peerID msg n stats in
  (netPeers n !! peerID = None → r = (Some (ErrPeerNotFound peerID), stats, [])) ∧
  (∀ peer, netPeers n !! peerID = Some peer → peerConnection peer = None →
     r = (Some (ErrNoConnection peerID), stats, [])) ∧
  (r.1.1 ≠ None → r.1.2 = stats) ∧
  (r.1.1 = None →
   ∃ peer conn, netPeers n !! peerID = Some peer ∧ peerConnection peer = Some conn ∧
     r.2 = [Conn conn] ∧
     monitor.TotalMessagesSent r.1.2 = monitor.wrapU64 (monitor.TotalMessagesSent stats + 1)).
Proof.
  intros r. subst r. unfold SendMessage.
  destruct (netPeers n !! peerID) as [peer|]; [|by repeat split].
  destruct (peerConnection peer) as [conn|] eqn:Hconn.
  - split; [done|]. split; [by intros ? [= <-]; congruence|].
    unfold sendMessageToConn.
    destruct (Serialize time_MarshalJSON msg) as [doc|e]; [|by split].
    destruct (conn_Write (Conn conn) _); cbn; [|by split].
    split; [done|]. intros _. by exists peer, conn.
  - split; [done|]. split; [done|]. by split.
Qed.

End Broadcasting.

(** [helloMessage] broadcast to [poolPeers] over sockets that accept every
    write: one write, on the socket of ["bob"]. *)
Lemma Broadcast_spec_witness :
  let r := p2p.Broadcast (λ _, Some "2026-01-01T00:00:00Z") (λ _, []) (λ _ _, true)
             poolPeers helloMessage (monitor.NewStats 0) in
  r.2 = [0%nat] ∧ r.1.1 = None ∧ monitor.TotalMessagesSent r.1.2 = 1 ∧
  monitor.TotalBytesSent r.1.2 = 1.
Proof.
  intros r.
  destruct (Broadcast_spec (λ _, Some "2026-01-01T00:00:00Z") (λ _, []) (λ _ _, true)
              poolPeers helloMessage (monitor.NewStats 0)) as [H _].
  - cbn. lia.
  - cbn. lia.
  - destruct (H _ eq_refl) as (Hw & He & Hms & Hbs). fold r in Hw, He, Hms, Hbs.
    split; [exact Hw|]. split; [by apply He|]. split; [exact Hms|exact Hbs].
Defined.


(** ** Configuration and logging *)

Section Config.
Import config.

Lemma validLogLevels_spec level :
  validLogLevels level = true ↔ level ∈ ["debug"; "info"; "warn"; "error"].
Proof.
  unfold validLogLevels. rewrite !orb_true_iff, !String.eqb_eq. split.
  - intros [[[->| ->]| ->]| ->]; repeat first [apply list_elem_of_here | apply list_elem_of_further].
  - intros H. repeat (apply elem_of_cons in H as [->|H]); auto. by apply elem_of_nil in H.
Qed.

(** [Validate] accepts a configuration exactly when the listen port is
    between 1024 and 65535, the peer limit, the storage size and the AI
    timeout are at least 1 and the log level is one of debug, info, warn
    and error.  The default configuration is accepted whatever the home
    directory, and for an accepted configuration the logger takes the
    level that is configured, not its fallback. *)
Theorem config_Validate_accepts_iff (c : Config) :
  (Validate c = None ↔
   1024 ≤ ListenPort (P2P c) ≤ 65535 ∧ 1 ≤ MaxPeers (P2P c) ∧ 1 ≤ MaxSizeGB (Storage c) ∧
   1 ≤ Timeout (AI c) ∧ Level (Logging c) ∈ ["debug"; "info"; "warn"; "error"]) ∧
  (∀ dataDir, Validate (Default dataDir) = None) ∧
  (Validate c = None →
   (logger.parseLevel (Level (Logging c)) = logger.DebugLevel ↔ Level (Logging c) = "debug") ∧
   (logger.parseLevel (Level (Logging c)) = logger.InfoLevel ↔ Level (Logging c) = "info") ∧
   (logger.parseLevel (Level (Logging c)) = logger.WarnLevel ↔ Level (Logging c) = "warn") ∧
   (logger.parseLevel (Level (Logging c)) = logger.ErrorLevel ↔ Level (Logging c) = "error")).
Proof.
  assert (Validate c = None ↔
          1024 ≤ ListenPort (P2P c) ≤ 65535 ∧ 1 ≤ MaxPeers (P2P c) ∧
          1 ≤ MaxSizeGB (Storage c) ∧ 1 ≤ Timeout (AI c) ∧
          Level (Logging c) ∈ ["debug"; "info"; "warn"; "error"]) as Hiff.
  { rewrite <- validLogLevels_spec. unfold Validate.
    destruct (Z.ltb_spec (ListenPort (P2P c)) 1024); cbn; [split; [done|lia]|].
    destruct (Z.ltb_spec 65535 (ListenPort (P2P c))); cbn; [split; [done|lia]|].
    destruct (Z.ltb_spec (MaxPeers (P2P c)) 1); [split; [done|lia]|].
    destruct (Z.ltb_spec (MaxSizeGB (Storage c)) 1); [split; [done|lia]|].
    destruct (Z.ltb_spec (Timeout (AI c)) 1); [split; [done|lia]|].
    destruct (validLogLevels (Level (Logging c))); cbn; split; try done; try lia;
      intros (_ & _ & _ & _ & ?); done. }
  split; [done|]. split; [done|].
  intros (_ & _ & _ & _ & Hl)%Hiff. unfold logger.parseLevel.
  repeat (apply elem_of_cons in Hl as [->|Hl]); [..|by apply elem_of_nil in Hl];
    cbn; repeat split; done.
Qed.

End Config.

(** ** Health checks *)

Section Health.
Import monitor.

Lemma collect_keys (order : list (string * Z)) (acc : list string) :
  fold_left (λ peers '(peerID, _), peers ++ [peerID]) order acc = acc ++ order.*1.
Proof.
  revert acc. induction order as [|[id t] order IH]; intros acc; cbn.
  - by rewrite app_nil_r.
  - by rewrite IH, <- app_assoc.
Qed.

Lemma unhealthy_fold (h : HealthChecker) (l acc : list string) :
  fold_left
    (λ unhealthy peerID,
       if negb (CheckPeerHealth peerID h) then unhealthy ++ [peerID] else unhealthy)
    l acc = acc ++ filter (λ id, CheckPeerHealth id h = false) l.
Proof.
  revert acc. induction l as [|id l IH]; intros acc; cbn.
  - by rewrite app_nil_r.
  - rewrite IH. destruct (CheckPeerHealth id h); cbn; case_decide; try done.
    by rewrite <- app_assoc.
Qed.

(** [GetUnhealthyPeers] returns the monitored peers that fail the health
    check, each once, in the order the peers are visited; it returns none
    while no check function is set. *)
Theorem GetUnhealthyPeers_spec (order : list (string * Z)) (h : HealthChecker) :
  order ≡ₚ map_to_list (peers h) →
  let unhealthy := GetUnhealthyPeers order h in
  unhealthy = filter (λ id, CheckPeerHealth id h = false) order.*1 ∧
  (∀ id, id ∈ unhealthy ↔ is_Some (peers h !! id) ∧ CheckPeerHealth id h = false) ∧
  NoDup unhealthy ∧
  (healthCheck h = None → unhealthy = []).
Proof.
  intros Ho unhealthy. subst unhealthy. unfold GetUnhealthyPeers.
  rewrite collect_keys, unhealthy_fold. cbn [app].
  split; [done|]. split; [|split].
  - intros id. rewrite list_elem_of_filter, list_elem_of_fmap. split.
    + intros [Hc ([id' t] & -> & Hin)]. split; [|done]. exists t.
      rewrite Ho in Hin. by apply elem_of_map_to_list.
    + intros [[t Ht] Hc]. split; [done|]. exists (id, t). split; [done|].
      rewrite Ho. by apply elem_of_map_to_list.
  - apply (sublist_NoDup _ order.*1); [|apply sublist_filter].
    rewrite Ho. apply NoDup_fst_map_to_list.
  - intros Hnone. unfold CheckPeerHealth. rewrite Hnone.
    induction (order.*1) as [|x l IH]; [done|]. rewrite filter_cons.
    case_decide; [done|]. apply IH.
Qed.

End Health.

(** Of ["a"] and ["b"], only ["b"] fails the check of [someChecker]. *)
Lemma GetUnhealthyPeers_spec_witness :
  let order := map_to_list (monitor.peers someChecker) in
  monitor.GetUnhealthyPeers order someChecker = ["b"] ∧
  let unhealthy := monitor.GetUnhealthyPeers order someChecker in
  unhealthy = filter (λ id, monitor.CheckPeerHealth id someChecker = false) order.*1 ∧
  (∀ id, id ∈ unhealthy ↔
     is_Some (monitor.peers someChecker !! id) ∧
     monitor.CheckPeerHealth id someChecker = false) ∧
  NoDup unhealthy ∧
  (monitor.healthCheck someChecker = None → unhealthy = []).
Proof.
  intros order. split; [vm_compute; reflexivity|].
  apply (GetUnhealthyPeers_spec order someChecker). reflexivity.
Defined.


(** ** Discovery *)

Section Bootstrap.
Import discovery.

Lemma existsb_eqb_elem_of (x : string) (l : list string) :
  existsb (String.eqb x) l = true ↔ x ∈ l.
Proof.
  induction l as [|y l IH]; cbn.
  - split; [done|]. intros H. by apply elem_of_nil in H.
  - rewrite orb_true_iff, IH, String.eqb_eq, elem_of_cons. done.
Qed.

(** [AddNode] keeps the list of bootstrap nodes free of repetitions: the
    node is in the list afterwards, the nodes already listed keep their
    places, a node already listed is not added again, so adding twice is
    adding once, and a list without repetitions stays so. *)
Theorem AddNode_no_duplicates (node : string) (b : BootstrapManager) :
  let b' := AddNode node b in
  node ∈ GetNodes b' ∧
  GetNodes b `prefix_of` GetNodes b' ∧
  (node ∈ GetNodes b → b' = b) ∧
  (node ∉ GetNodes b → GetNodes b' = GetNodes b ++ [node]) ∧
  AddNode node b' = b' ∧
  (NoDup (GetNodes b) → NoDup (GetNodes b')) ∧
  connected b' = connected b ∧ maxRetries b' = maxRetries b.
Proof.
  intros b'. subst b'. unfold AddNode, GetNodes.
  destruct (existsb (String.eqb node) (nodes b)) eqn:He.
  - apply existsb_eqb_elem_of in He. rewrite (proj2 (existsb_eqb_elem_of _ _) He).
    repeat split; try done.
  - assert (node ∉ nodes b) as Hni.
    { intros H. apply existsb_eqb_elem_of in H. congruence. }
    cbn. assert (existsb (String.eqb node) (nodes b ++ [node]) = true) as ->.
    { apply existsb_eqb_elem_of, elem_of_app. right. by apply list_elem_of_singleton. }
    repeat split; try done.
    + apply elem_of_app. right. by apply list_elem_of_singleton.
    + by apply prefix_app_r.
    + intros Hnd. apply NoDup_app. split; [done|]. split; [|apply NoDup_singleton].
      intros x Hx ->%list_elem_of_singleton. done.
Qed.

(** What the retry loop does from the iteration [i] on. *)
Lemma retryLoop_spec cancelled connects node fuel :
  ∀ i a b,
    (i + fuel)%nat = Z.to_nat (maxRetries b) →
    let r := retryLoop cancelled connects node fuel i a b in
    (calls a ≤ calls r.1.2 ≤ calls a + fuel)%nat ∧
    (sleeps a ≤ sleeps r.1.2)%nat ∧
    (sleeps r.1.2 - sleeps a ≤ calls r.1.2 - calls a)%nat ∧
    (Z.of_nat (sleeps r.1.2 - sleeps a) ≤ Z.max 0 (maxRetries b - 1 - Z.of_nat i)) ∧
    (r.1.1 = Connected →
     connected r.2 = <[node := true]> (connected b) ∧ nodes r.2 = nodes b ∧
     maxRetries r.2 = maxRetries b ∧
     (calls r.1.2 > calls a)%nat ∧
     connects (i + (calls r.1.2 - calls a) - 1)%nat = true ∧
     (sleeps r.1.2 - sleeps a = calls r.1.2 - calls a - 1)%nat) ∧
    (r.1.1 ≠ Connected → r.2 = b) ∧
    (∀ n, r.1.1 = GaveUp n →
       n = maxRetries b ∧ (calls r.1.2 = calls a + fuel)%nat ∧
       ∀ j, (i ≤ j < i + fuel)%nat → cancelled j = false ∧ connects j = false).
Proof.
  induction fuel as [|fuel IH]; intros i a b Hfuel; cbn.
  { split; [lia|]. split; [lia|]. split; [lia|]. split; [lia|]. split; [done|].
    split; [done|]. intros n [= <-]. split; [done|]. split; [lia|]. intros j Hj. lia. }
  destruct (cancelled i) eqn:Hc; cbn.
  { split; [lia|]. split; [lia|]. split; [lia|]. split; [lia|]. by repeat split. }
  destruct (connects i) eqn:Hk; cbn.
  { split; [lia|]. split; [lia|]. split; [lia|]. split; [lia|]. split; [|by split].
    intros _. repeat split; try done; try lia.
    by replace (i + (S (calls a) - calls a) - 1)%nat with i by lia. }
  destruct (Z.ltb_spec (Z.of_nat i) (maxRetries b - 1)).
  - pose proof (IH (S i) (mkAttempts (S (calls a)) (S (sleeps a))) b ltac:(lia)) as IH'.
    set (r := retryLoop cancelled connects node fuel (S i) _ b) in *.
    cbn [calls sleeps] in IH'. cbv zeta in IH'.
    destruct IH' as (H1 & H2 & H3 & H4 & H5 & H6 & H7).
    split; [lia|]. split; [lia|]. split; [lia|]. split; [lia|]. split; [|split; [done|]].
    + intros Hr. destruct (H5 Hr) as (Hx1 & Hx2 & Hx3 & Hx4 & Hcon & Hx5).
      split; [done|]. split; [done|]. split; [done|]. split; [lia|]. split; [|lia].
      replace (i + (calls r.1.2 - calls a) - 1)%nat
        with (S i + (calls r.1.2 - S (calls a)) - 1)%nat by lia.
      exact Hcon.
    + intros n Hn. destruct (H7 n Hn) as (Hy1 & Hy2 & Hall).
      split; [done|]. split; [lia|]. intros j Hj.
      destruct (decide (j = i)) as [->|]; [done|]. apply Hall. lia.
  - assert (fuel = 0%nat) as -> by lia. cbn.
    split; [lia|]. split; [lia|]. split; [lia|]. split; [lia|]. split; [done|].
    split; [done|]. intros n [= <-]. split; [done|]. split; [lia|]. intros j Hj.
    by assert (j = i) as -> by lia.
Qed.

(** [connectWithRetry] calls [connectFunc] at most [maxRetries] times (3
    for a manager made by [NewBootstrapManager]) and sleeps only between
    two calls.  It returns nil when a call succeeds, and the node is then
    marked connected; it gives up after exactly [maxRetries] failed calls;
    otherwise the context was cancelled.  Unless it returns nil the
    manager is unchanged, and no node marked connected is ever unmarked. *)
Theorem connectWithRetry_bounded (cancelled connects : nat → bool) (node : string)
    (b : BootstrapManager) :
  let r := connectWithRetry cancelled connects node b in
  let a := r.1.2 in
  Z.of_nat (calls a) ≤ Z.max 0 (maxRetries b) ∧
  Z.of_nat (sleeps a) ≤ Z.max 0 (maxRetries b - 1) ∧
  (r.1.1 = Connected →
   IsConnected node r.2 = true ∧ (0 < calls a)%nat ∧ connects (calls a - 1)%nat = true ∧
   sleeps a = (calls a - 1)%nat) ∧
  (r.1.1 ≠ Connected → r.2 = b) ∧
  (∀ n, r.1.1 = GaveUp n →
     n = maxRetries b ∧ Z.of_nat (calls a) = Z.max 0 (maxRetries b) ∧
     ∀ j, Z.of_nat j < maxRetries b → cancelled j = false ∧ connects j = false) ∧
  (∀ other, IsConnected other b = true → IsConnected other r.2 = true) ∧
  maxRetries (NewBootstrapManager (nodes b)) = 3.
Proof.
  intros r a. subst a r. unfold connectWithRetry.
  destruct (retryLoop_spec cancelled connects node (Z.to_nat (maxRetries b)) 0
              (mkAttempts 0 0) b eq_refl) as (H1 & H2 & H3 & H4 & H5 & H6 & H7).
  set (r := retryLoop cancelled connects node (Z.to_nat (maxRetries b)) 0 (mkAttempts 0 0) b)
    in *.
  cbn [calls sleeps] in *. split; [lia|]. split; [lia|]. split; [|split; [done|split]].
  - intros Hr. destruct (H5 Hr) as (Hc & _ & _ & Hpos & Hcon & Hs).
    unfold IsConnected. rewrite Hc, lookup_insert_eq. cbn.
    split; [done|]. split; [lia|]. split; [|lia].
    by replace (calls r.1.2 - 1)%nat with (0 + (calls r.1.2 - 0) - 1)%nat by lia.
  - intros n Hn. destruct (H7 n Hn) as (-> & Hcalls & Hall).
    split; [done|]. split; [lia|]. intros j Hj. apply Hall. lia.
  - split; [|done]. intros other Ho. destruct (r.1.1) as [| |n] eqn:Hr.
    + destruct (H5 eq_refl) as (Hc & _). unfold IsConnected in *. rewrite Hc.
      rewrite lookup_insert. by case_decide.
    + by rewrite H6.
    + by rewrite H6.
Qed.

(** The loop of [ExchangePeers] from the [k]-th peer on. *)
Lemma exchangeLoop_spec max connect cancelled (peers : list Peer) :
  ∀ k tried count,
    let r := exchangeLoop max connect cancelled peers k tried count in
    ∃ more,
      r.1.2 = tried ++ more ∧ more `prefix_of` peers ∧
      r.2 = count + Z.of_nat (length (filter (λ p, connect p = true) more)) ∧
      r.2 ≤ Z.max count max ∧
      (r.1.1 = None → more = peers ∨ max ≤ r.2) ∧
      (r.1.1 ≠ None → r.1.1 = Some ErrContext) ∧
      (max ≤ count → more = []).
Proof.
  induction peers as [|peer rest IH]; intros k tried count; cbn.
  { exists []. rewrite app_nil_r. split; [done|]. split; [done|]. split; [cbn; lia|].
    split; [lia|]. split; [by left|]. by split. }
  destruct (Z.leb_spec max count); cbn.
  { exists []. rewrite app_nil_r. split; [done|]. split; [apply prefix_nil|].
    split; [cbn; lia|]. split; [lia|]. split; [by right|]. by split. }
  destruct (cancelled k); cbn.
  { exists []. rewrite app_nil_r. split; [done|]. split; [apply prefix_nil|].
    split; [cbn; lia|]. split; [lia|]. split; [done|]. by split. }
  destruct (connect peer) eqn:Hc.
  - pose proof (IH (S k) (tried ++ [peer]) (count + 1)) as IH'. cbv zeta in IH'.
    destruct (exchangeLoop max connect cancelled rest (S k) (tried ++ [peer]) (count + 1))
      as [[err tr] cnt]. cbn [fst snd] in *.
    destruct IH' as (more & H1 & H2 & H3 & H4 & H5 & H6 & _).
    exists (peer :: more). rewrite H1, <- app_assoc. cbn [app].
    rewrite filter_cons. case_decide; [|congruence]. cbn [length].
    split; [done|]. split; [by apply prefix_cons|]. split; [lia|]. split; [lia|].
    split; [|split; [done|lia]].
    intros Hn. destruct (H5 Hn) as [->|?]; [by left|by right].
  - pose proof (IH (S k) (tried ++ [peer]) count) as IH'. cbv zeta in IH'.
    destruct (exchangeLoop max connect cancelled rest (S k) (tried ++ [peer]) count)
      as [[err tr] cnt]. cbn [fst snd] in *.
    destruct IH' as (more & H1 & H2 & H3 & H4 & H5 & H6 & _).
    exists (peer :: more). rewrite H1, <- app_assoc. cbn [app].
    rewrite filter_cons. case_decide; [congruence|].
    split; [done|]. split; [by apply prefix_cons|]. split; [lia|]. split; [lia|].
    split; [|split; [done|lia]].
    intros Hn. destruct (H5 Hn) as [->|?]; [by left|by right].
Qed.

(** [ExchangePeers] connects to at most [maxPeers] of the discovered
    peers.  It calls [peerConnect] on the discovered peers in order, up to
    the peer that made the count of accepted connections reach
    [maxPeers]; a refused connection is skipped and never makes the
    exchange fail, and with a limit of zero or less no peer is tried. *)
Theorem ExchangePeers_bounded (cancelled : nat → bool) (p : PeerExchange)
    (discovered : list Peer) (connect : Peer → bool) :
  peerDiscovery p = Some (Some discovered) → peerConnect p = Some connect →
  let r := ExchangePeers cancelled p in
  r.1.2 `prefix_of` discovered ∧
  r.2 = Z.of_nat (length (filter (λ p, connect p = true) r.1.2)) ∧
  r.2 ≤ Z.max 0 (maxPeers p) ∧
  (r.1.1 = None → r.1.2 = discovered ∨ maxPeers p ≤ r.2) ∧
  (r.1.1 ≠ None → r.1.1 = Some ErrContext) ∧
  (maxPeers p ≤ 0 → r.1.2 = []).
Proof.
  intros Hd Hc r. subst r. unfold ExchangePeers. rewrite Hd, Hc.
  pose proof (exchangeLoop_spec (maxPeers p) connect cancelled discovered 0 [] 0) as H.
  cbv zeta in H.
  destruct (exchangeLoop (maxPeers p) connect cancelled discovered 0 [] 0) as [[err tr] cnt].
  cbn [fst snd app] in *. destruct H as (more & -> & H2 & H3 & H4 & H5 & H6 & H7).
  split; [done|]. split; [lia|]. split; [done|]. split; [done|]. by split.
Qed.

End Bootstrap.

(** Two refusals, then a connection: three calls and two sleeps. *)
Lemma connectWithRetry_bounded_witness :
  let r := discovery.connectWithRetry (λ _, false) (λ i, (i =? 2)%nat) "10.0.0.1:8080"
             (discovery.NewBootstrapManager ["10.0.0.1:8080"]) in
  r.1.1 = discovery.Connected ∧ discovery.calls r.1.2 = 3%nat ∧
  discovery.sleeps r.1.2 = 2%nat ∧ discovery.IsConnected "10.0.0.1:8080" r.2 = true.
Proof.
  intros r.
  destruct (connectWithRetry_bounded (λ _, false) (λ i, (i =? 2)%nat) "10.0.0.1:8080"
              (discovery.NewBootstrapManager ["10.0.0.1:8080"]))
    as (_ & _ & H & _).
  fold r in H. destruct (H eq_refl) as (Hc & _ & _ & Hs).
  split; [reflexivity|]. split; [reflexivity|]. split; [exact Hs|exact Hc].
Defined.

(** [someExchange]: all three peers are tried, two accept. *)
Lemma ExchangePeers_bounded_witness :
  let r := discovery.ExchangePeers (λ _, false) someExchange in
  r.1.2 = discovered3 ∧ r.2 = 2 ∧
  (r.1.2 `prefix_of` discovered3) ∧
  r.2 = Z.of_nat (length (filter (λ p, negb (String.eqb (discovery.ID p) "n1") = true) r.1.2)) ∧
  r.2 ≤ Z.max 0 (discovery.maxPeers someExchange) ∧
  (r.1.1 = None → r.1.2 = discovered3 ∨ discovery.maxPeers someExchange ≤ r.2) ∧
  (r.1.1 ≠ None → r.1.1 = Some discovery.ErrContext) ∧
  (discovery.maxPeers someExchange ≤ 0 → r.1.2 = []).
Proof.
  intros r. split; [reflexivity|]. split; [reflexivity|].
  apply (ExchangePeers_bounded (λ _, false) someExchange discovered3
           (λ p, negb (String.eqb (discovery.ID p) "n1"))); reflexivity.
Defined.


Section NodeIDs.
Import discovery.

Lemma runeShape_range c n lo hi :
  p2p.runeShape c = Some (n, lo, hi) →
  (n = 1%nat ∧ (N_of_ascii c < 0x80)%N) ∨
  ((2 ≤ n)%nat ∧ (0xC2 ≤ N_of_ascii c)%N ∧ (0x80 ≤ lo)%N ∧ (hi ≤ 0xBF)%N).
Proof.
  unfold p2p.runeShape.
  repeat match goal with
  | |- context [(?a <? ?b)%N] => destruct (N.ltb_spec a b)
  | |- context [(?a =? ?b)%N] => destruct (N.eqb_spec a b)
  end; intros [= <- <- <-]; try (left; split; [done|lia]); right; lia.
Qed.

Lemma inRange_weaken lo hi c :
  (0x80 ≤ lo)%N → (hi ≤ 0xBF)%N → p2p.inRange lo hi c = true → p2p.inRange 0x80 0xBF c = true.
Proof.
  unfold p2p.inRange. rewrite !andb_true_iff, !N.leb_le. lia.
Qed.

Lemma equals_not_continuation c :
  p2p.inRange 0x80 0xBF c = true → Ascii.eqb c "="%char = false.
Proof.
  destruct (Ascii.eqb_spec c "="%char) as [->|]; [|done]. by vm_compute.
Qed.

(** After a well-formed rune of [n] bytes come [n - 1] continuation
    bytes. *)
Lemma runeSize_continuations c r n :
  p2p.runeSize (String c r) = Some n →
  (n = 1%nat ∨ Ascii.eqb c "="%char = false) ∧ p2p.continuations (pred n) r = true.
Proof.
  unfold p2p.runeSize. destruct (p2p.runeShape c) as [[[n' lo] hi]|] eqn:Hs; [|done].
  destruct (runeShape_range _ _ _ _ Hs) as [[-> _]|(Hn & Hc & Hlo & Hhi)].
  { intros [= <-]. split; [by left|done]. }
  assert (Ascii.eqb c "="%char = false) as Hne.
  { destruct (Ascii.eqb_spec c "="%char) as [->|]; [|done]. vm_compute in Hc. done. }
  destruct n' as [|[|n']]; [lia|lia|].
  destruct r as [|c1 r1]; [done|].
  destruct (p2p.inRange lo hi c1) eqn:Hr; [|done]. cbn [andb].
  replace (S (S n') - 2)%nat with n' by lia.
  destruct (p2p.continuations n' r1) eqn:Hk; [|done]. intros [= <-].
  split; [by right|]. cbn. rewrite Hk, (inRange_weaken _ _ _ Hlo Hhi Hr). done.
Qed.

Lemma runeSize_None_not_equals c r :
  p2p.runeSize (String c r) = None → Ascii.eqb c "="%char = false.
Proof.
  destruct (Ascii.eqb_spec c "="%char) as [->|]; [|done]. by vm_compute.
Qed.

(** The loop over the runes finds what a search over the bytes finds. *)
Lemma splitFrom_splitBytes (s : string) :
  ∀ skip before, p2p.continuations skip s = true →
    splitFrom skip before s = splitBytes before s.
Proof.
  induction s as [|c r IH]; intros skip before Hk; [by destruct skip|].
  destruct skip as [|k]; cbn [splitFrom splitBytes].
  - destruct (p2p.runeSize (String c r)) as [n|] eqn:Hn.
    + destruct (runeSize_continuations _ _ _ Hn) as [Hc Hcont].
      destruct n as [|[|n]].
      * destruct Hc as [?|Hc]; [done|]. rewrite Hc. by apply IH.
      * destruct (Ascii.eqb c "="%char); [done|]. by apply IH.
      * destruct Hc as [?|Hc]; [done|]. rewrite Hc. by apply IH.
    + rewrite (runeSize_None_not_equals _ _ Hn). by apply IH.
  - cbn in Hk. apply andb_true_iff in Hk as [Hc Hk].
    rewrite (equals_not_continuation _ Hc). by apply IH.
Qed.

Lemma append_cons (x : ascii) (a b : string) : String x a +:+ b = String x (a +:+ b).
Proof. reflexivity. Qed.

Lemma append_nil (b : string) : "" +:+ b = b.
Proof. reflexivity. Qed.

Lemma append_empty_r (a : string) : a +:+ "" = a.
Proof. induction a as [|x a IH]; [done|]. by rewrite append_cons, IH. Qed.

Lemma append_snoc (a b : string) (c : ascii) : (a +:+ String c "") +:+ b = a +:+ String c b.
Proof. induction a as [|x a IH]; [done|]. by rewrite !append_cons, IH. Qed.

Lemma splitBytes_found (key value : string) :
  ∀ before, hasEquals key = false →
    splitBytes before (key +:+ "=" +:+ value) = [before +:+ key; value].
Proof.
  induction key as [|c key IH]; intros before Hk.
  - rewrite append_nil, append_empty_r. done.
  - cbn in Hk. apply orb_false_iff in Hk as [Hc Hk].
    rewrite append_cons. cbn [splitBytes]. rewrite Hc, IH by done.
    by rewrite append_snoc.
Qed.

Lemma splitBytes_none (s : string) :
  ∀ before, hasEquals s = false → splitBytes before s = [].
Proof.
  induction s as [|c s IH]; intros before Hs; cbn; [done|].
  cbn in Hs. apply orb_false_iff in Hs as [Hc Hs]. rewrite Hc. by apply IH.
Qed.

Lemma splitBytes_inv (s : string) :
  ∀ before,
    splitBytes before s = [] ∧ hasEquals s = false ∨
    ∃ key value, splitBytes before s = [before +:+ key; value] ∧
                 s = key +:+ "=" +:+ value ∧ hasEquals key = false.
Proof.
  induction s as [|c s IH]; intros before; cbn [splitBytes hasEquals]; [by left|].
  destruct (Ascii.eqb_spec c "="%char) as [->|Hc]; cbn [orb].
  - right. exists "", s. by rewrite append_empty_r.
  - destruct (IH (before +:+ String c "")) as [[H1 H2]|(key & value & H1 & -> & H3)].
    + by left.
    + right. exists (String c key), value. rewrite H1, append_snoc.
      split; [done|]. split; [done|]. cbn [hasEquals]. apply orb_false_iff. split; [|done].
      by apply Ascii.eqb_neq.
Qed.

(** [splitNodeID] splits at the first ['='] byte: a text [key=value] whose
    key holds no ['='] gives the key and the value (a value may hold
    more), and a text without ['='] gives the empty slice.  The result
    has two elements or none. *)
Theorem splitNodeID_first_equals (s : string) :
  (hasEquals s = false ↔ splitNodeID s = []) ∧
  (∀ key value, hasEquals key = false → s = key +:+ "=" +:+ value →
     splitNodeID s = [key; value]) ∧
  (hasEquals s = true →
   ∃ key value, splitNodeID s = [key; value] ∧ s = key +:+ "=" +:+ value ∧
                hasEquals key = false).
Proof.
  unfold splitNodeID. rewrite splitFrom_splitBytes by done.
  destruct (splitBytes_inv s "") as [[H1 H2]|(key & value & H1 & H2 & H3)].
  - rewrite H1, H2. split; [done|]. split; [|done].
    intros key value Hk ->. rewrite splitBytes_found in H1 by done. done.
  - rewrite H1. cbn. split.
    { split; [|done]. intros Hs. by rewrite (splitBytes_none s "" Hs) in H1. }
    split.
    + intros key' value' Hk ->. rewrite splitBytes_found in H1 by done. by injection H1.
    + intros _. by exists key, value.
Qed.

Lemma afterPrefix_app p s : afterPrefix p (p +:+ s) = Some s.
Proof.
  induction p as [|c p IH]; [done|]. rewrite append_cons. cbn [afterPrefix].
  by rewrite Ascii.eqb_refl.
Qed.

Lemma afterPrefix_Some p s r : afterPrefix p s = Some r → s = p +:+ r.
Proof.
  revert s. induction p as [|c p IH]; intros s; cbn; [by intros [= ->]|].
  destruct s as [|d s]; [done|]. destruct (Ascii.eqb_spec c d) as [->|]; [|done].
  intros H. by rewrite (IH _ H), append_cons.
Qed.

(** The two readers of mDNS TXT records agree: [processServiceEntry],
    which splits each record with [splitNodeID], and
    [MDNSDiscoverer.processEntry], which tests the prefix ["node_id="],
    read the same node id off every list of records. *)
Theorem nodeID_readers_agree (text : list string) :
  nodeIDOfServiceEntry text = nodeIDOfEntry text.
Proof.
  induction text as [|txt rest IH]; [done|]. cbn [nodeIDOfServiceEntry nodeIDOfEntry].
  unfold strings_HasPrefix, strings_TrimPrefix, splitNodeID.
  rewrite splitFrom_splitBytes by done.
  destruct (afterPrefix "node_id=" txt) as [v|] eqn:Hp.
  - apply afterPrefix_Some in Hp as ->.
    change ("node_id=" +:+ v) with ("node_id" +:+ "=" +:+ v).
    by rewrite splitBytes_found.
  - destruct (splitBytes_inv txt "") as [[-> _]|(key & value & -> & -> & _)]; [done|].
    rewrite append_nil. destruct (String.eqb_spec key "node_id") as [->|]; [|done].
    change ("node_id" +:+ "=" +:+ value) with ("node_id=" +:+ value) in Hp.
    by rewrite afterPrefix_app in Hp.
Qed.

End NodeIDs.
